(** * shuffleDeck: the shuffle engine, its step recorders and its statistics

    A shallow embedding of [src/utils/deckUtils.ts] and
    [src/utils/statisticsUtils.ts].

    Conventions of the embedding.
    - A well-typed [Card[]] is a [list Card]; array indices and lengths are
      [nat].  The array that [applyShuffleStep] builds can leave that type
      (stores past the end create holes, reads past the end give
      [undefined]), so that function works on [list slot].  The indices of
      a [ShuffleStep] are kept in [nat].  A number that is no array index
      (a negative or fractional number, or one from [2^32 - 1] on) is
      read as [undefined], is stored as a property that is no element, and
      is equal to no index that [map] visits; the naturals from
      [2^32 - 1] on behave so in the model and stand for such numbers.
    - A number is an IEEE 754 binary64 value, kept as the rational it
      stands for; an arithmetic operation rounds its exact result to the
      nearest double ([fl]).  Overflow to [Infinity] and the sign of zero
      are not modelled.  Counters, indices and stored averages are integers
      and kept in [nat] or [Z]: sums and products of integers are exact in
      binary64 below [2^53].  The one quotient of the statistics aggregator
      is an integer below [2^51] over a count, for which rounding the
      quotient does not change its [Math.round]; it is taken exactly.
    - [Math.random()] is a trace [source := nat -> draw]: the value of the
      k-th call, a double of [[0,1)].
    - A [while] loop is a [Fixpoint] on fuel returning [option]; [None]
      stands for a loop that does not finish within the fuel or that reads
      [undefined] out of a [Card[]].
    - [Math.log2] is implementation-approximated; [calculateEntropy] is
      modelled in [R] with the exact logarithm, and what is proved of it
      concerns the calls in which every intermediate value is a double
      (or that raise before any arithmetic). *)

From Stdlib Require Import ZArith QArith Qround Qminmax Reals Lra Lia.
From stdpp Require Import base list strings gmap pretty.
From Stdlib Require Lqa.

Local Open Scope string_scope.
Local Open Scope list_scope.
Local Open Scope nat_scope.

(** ** Card collection model *)

Inductive Suit := hearts | diamonds | clubs | spades.

Inductive Rank := rA | r2 | r3 | r4 | r5 | r6 | r7 | r8 | r9 | r10 | rJ | rQ | rK.

Record Card := mkCard {
  id : string;
  suit : Suit;
  rank : Rank;
  position : nat;
  isHighlighted : bool
}.

Definition suit_name (s : Suit) : string :=
  match s with
  | hearts => "hearts" | diamonds => "diamonds"
  | clubs => "clubs" | spades => "spades"
  end.

Definition rank_name (r : Rank) : string :=
  match r with
  | rA => "A" | r2 => "2" | r3 => "3" | r4 => "4" | r5 => "5" | r6 => "6"
  | r7 => "7" | r8 => "8" | r9 => "9" | r10 => "10"
  | rJ => "J" | rQ => "Q" | rK => "K"
  end.

Definition SUITS : list Suit := [hearts; diamonds; clubs; spades].
Definition RANKS : list Rank :=
  [rA; r2; r3; r4; r5; r6; r7; r8; r9; r10; rJ; rQ; rK].

(** [{...card, position: index, isHighlighted: h}] *)
Definition restamp (index : nat) (h : bool) (card : Card) : Card :=
  {| id := id card; suit := suit card; rank := rank card;
     position := index; isHighlighted := h |}.

Definition createOrderedDeck : list Card :=
  imap (fun index c => restamp index false c)
    (s ← SUITS; r ← RANKS;
     [ {| id := suit_name s +:+ "-" +:+ rank_name r; suit := s; rank := r;
          position := 0; isHighlighted := false |} ]).

Definition resetDeck (deck : list Card) : list Card :=
  imap (fun index card => restamp index false card) deck.

Definition clearHighlights (deck : list Card) : list Card :=
  (fun card => restamp (position card) false card) <$> deck.

(** ** Numbers *)

(** [a / b] rounded to the nearest integer, a tie going to the even one
    (for [0 <= a] and [0 < b]). *)
Definition nearest_even (a b : Z) : Z :=
  let q := (a / b)%Z in
  let r := (a mod b)%Z in
  if (2 * r <? b)%Z then q
  else if (b <? 2 * r)%Z then (q + 1)%Z
  else if Z.even q then q else (q + 1)%Z.

(** [a / b] rounded to the nearest integer of at most 53 significant bits:
    above [2^53] the last [log2 (a / b) - 52] bits are rounded away. *)
Definition round53 (a b : Z) : Z :=
  let sh := Z.max 0 (Z.log2 (a / b) - 52) in
  (nearest_even a (b * 2 ^ sh) * 2 ^ sh)%Z.

(** The finite doubles are the multiples of [2^-1074] whose multiplier has
    at most 53 significant bits. *)
Definition grid : positive := 2 ^ 1074.

(** The double nearest to a rational, ties to even. *)
Definition fl (x : Q) : Q :=
  let x := Qred x in
  (Z.sgn (Qnum x) * round53 (Z.abs (Qnum x) * Z.pos grid) (Z.pos (Qden x)))%Z
  # grid.

(** [x + y], [x * y] and [x / y] on doubles. *)
Definition double_add (x y : Q) : Q := fl (x + y).
Definition double_mul (x y : Q) : Q := fl (x * y).
Definition double_div (x y : Q) : Q := fl (x / y).

(** ** The random source *)

(** A value of [Math.random()]: a double of [[0,1)], that is
    [m / 2^(53 + s)] with [0 <= m < 2^53] and [0 <= s <= 1021].  The
    significand is taken from the 53 low bits of [bits] and the shift is
    capped at 1021, so that every inhabitant is such a double. *)
Record draw := mkDraw { bits : N; shift : N }.

Definition significand (u : draw) : Z := Z.of_N (bits u mod 2 ^ 53).

Definition scale (u : draw) : Z := (53 + Z.of_N (N.min (shift u) 1021))%Z.

Definition draw_value (u : draw) : Q :=
  inject_Z (significand u) / inject_Z (2 ^ scale u).

(** [Math.floor(u * n)], for a length or an index [n]. *)
Definition floor_times (u : draw) (n : nat) : nat :=
  Z.to_nat (Qfloor (double_mul (draw_value u) (inject_Z (Z.of_nat n)))).

(** [u < 0.5] *)
Definition below_half (u : draw) : bool :=
  if Qlt_le_dec (draw_value u) (1 # 2) then true else false.

(** The k-th call of [Math.random()]. *)
Definition source := nat -> draw.

Arguments fl : simpl never.
Arguments floor_times : simpl never.
Arguments below_half : simpl never.

(** ** Arrays *)

(** [[a[i], a[j]] = [a[j], a[i]]] on an array whose two indices exist.  The
    shuffles only call it inside the array. *)
Definition swap {A} (a : list A) (i j : nat) : list A :=
  match a !! i, a !! j with
  | Some x, Some y => <[j := x]> (<[i := y]> a)
  | _, _ => a
  end.

(** ** Step records *)

Inductive Action := act_swap | act_move | act_split | act_merge.

Record ShuffleStep := mkStep {
  description : string;
  cardIndices : list nat;
  action : Action;
  fromPositions : list nat;
  toPositions : list nat
}.

(** ** Fisher-Yates *)

(** The [for] loop of [fisherYatesShuffle]: [i] counts down to 1, [k] is the
    number of draws made so far. *)
Fixpoint fisherYates_loop (rng : source) (k i : nat) (shuffledDeck : list Card)
  : list Card :=
  match i with
  | 0 => shuffledDeck
  | S i' =>
      let randomIndex := floor_times (rng k) (i + 1) in
      fisherYates_loop rng (S k) i' (swap shuffledDeck i randomIndex)
  end.

Definition fisherYatesShuffle (rng : source) (deck : list Card) : list Card :=
  let shuffledDeck := fisherYates_loop rng 0 (length deck - 1) deck in
  imap (fun index card => restamp index false card) shuffledDeck.

Fixpoint fisherYatesSteps_loop (rng : source) (k i : nat)
    (workingDeck : list Card) (steps : list ShuffleStep) : list ShuffleStep :=
  match i with
  | 0 => steps
  | S i' =>
      let randomIndex := floor_times (rng k) (i + 1) in
      let step :=
        {| description :=
             "Step " +:+ pretty (length steps + 1) +:+
             ": Swap card at position " +:+ pretty i +:+
             " with card at position " +:+ pretty randomIndex;
           cardIndices := [i; randomIndex];
           action := act_swap;
           fromPositions := [i; randomIndex];
           toPositions := [randomIndex; i] |} in
      fisherYatesSteps_loop rng (S k) i' (swap workingDeck i randomIndex)
        (steps ++ [step])
  end.

Definition fisherYatesShuffleSteps (rng : source) (deck : list Card)
  : list ShuffleStep :=
  fisherYatesSteps_loop rng 0 (length deck - 1) deck [].

(** ** The step applicator *)

(** What an index of a JavaScript array can hold once [applyShuffleStep] has
    written to it. *)
Inductive slot :=
| Hole                                  (* an index that was never written *)
| Undefined                             (* the value [undefined] *)
| Blank (pos : nat) (highlighted : bool) (* [{position, isHighlighted}] *)
| Full (card : Card).

(** [a[i]] *)
Definition js_read (a : list slot) (i : nat) : slot :=
  match a !! i with
  | Some Hole | None => Undefined
  | Some v => v
  end.

(** The array indices are the integers from 0 to [2^32 - 2]. *)
Definition is_array_index (i : nat) : bool :=
  bool_decide (N.of_nat i < 2 ^ 32 - 1)%N.

(** [a[i] = v].  A store past the end at an array index extends the array
    with holes.  A store at an integer that is no array index sets a
    property that is no element: neither [length] nor [map] sees it.  (An
    array has at most [2^32 - 1] elements, so an index below its length
    is an array index.) *)
Definition js_write (a : list slot) (i : nat) (v : slot) : list slot :=
  if i <? length a then <[i := v]> a
  else if is_array_index i then a ++ replicate (i - length a) Hole ++ [v]
  else a.

(** [[...a]]: the iterator reads a hole as [undefined]. *)
Definition js_spread (a : list slot) : list slot :=
  (fun s => match s with Hole => Undefined | _ => s end) <$> a.

(** The callback of [map] in [applyShuffleStep]; [map] skips holes. *)
Definition stamp_slot (index : nat) (h : bool) (s : slot) : slot :=
  match s with
  | Hole => Hole
  | Undefined | Blank _ _ => Blank index h
  | Full card => Full (restamp index h card)
  end.

Definition applyShuffleStep (deck : list slot) (step : ShuffleStep) : list slot :=
  let newDeck := js_spread deck in
  let newDeck :=
    match action step, cardIndices step with
    | act_swap, [index1; index2] =>
        let v2 := js_read newDeck index2 in
        let v1 := js_read newDeck index1 in
        js_write (js_write newDeck index1 v2) index2 v1
    | _, _ => newDeck
    end in
  imap (fun index s =>
          stamp_slot index (bool_decide (index ∈ cardIndices step)) s) newDeck.

(** Replaying a list of records in order. *)
Definition replay (steps : list ShuffleStep) (deck : list slot) : list slot :=
  foldl applyShuffleStep deck steps.

(** ** Riffle *)

Definition riffle_splitPoint (rng : source) (n : nat) : nat :=
  let midPoint := n / 2 in
  let splitVariation := Z.sub (Z.of_nat (floor_times (rng 0) 3)) 1 in
  Z.to_nat
    (Z.max 1 (Z.min (Z.of_nat n - 1) (Z.of_nat midPoint + splitVariation))%Z).

(** [leftIndex < leftHalf.length &&
     (rightIndex >= rightHalf.length || Math.random() < 0.5)], with the
    number of draws made after it: the draw is only made when both halves
    still have cards. *)
Definition takeFromLeft (rng : source) (k : nat) (leftHalf rightHalf : list Card)
    (leftIndex rightIndex : nat) : bool * nat :=
  if leftIndex <? length leftHalf then
    if length rightHalf <=? rightIndex then (true, k)
    else (below_half (rng k), S k)
  else (false, k).

Fixpoint riffle_loop (fuel : nat) (rng : source) (k : nat)
    (leftHalf rightHalf : list Card) (leftIndex rightIndex : nat)
    (result : list Card) : option (list Card) :=
  if (leftIndex <? length leftHalf) || (rightIndex <? length rightHalf) then
    match fuel with
    | 0 => None
    | S fuel' =>
        let '(fromLeft, k') :=
          takeFromLeft rng k leftHalf rightHalf leftIndex rightIndex in
        if fromLeft then
          card ← leftHalf !! leftIndex;
          riffle_loop fuel' rng k' leftHalf rightHalf
            (leftIndex + 1) rightIndex (result ++ [card])
        else
          card ← rightHalf !! rightIndex;
          riffle_loop fuel' rng k' leftHalf rightHalf
            leftIndex (rightIndex + 1) (result ++ [card])
    end
  else Some result.

Definition riffleShuffle (fuel : nat) (rng : source) (deck : list Card)
  : option (list Card) :=
  let splitPoint := riffle_splitPoint rng (length deck) in
  let leftHalf := take splitPoint deck in
  let rightHalf := drop splitPoint deck in
  result ← riffle_loop fuel rng 1 leftHalf rightHalf 0 0 [];
  Some (imap (fun index card => restamp index false card) result).

Fixpoint riffleSteps_loop (fuel : nat) (rng : source) (k : nat)
    (splitPoint : nat) (leftHalf rightHalf : list Card)
    (leftIndex rightIndex : nat) (result : list Card) (stepCount : nat)
    (steps : list ShuffleStep) : option (list ShuffleStep) :=
  if (leftIndex <? length leftHalf) || (rightIndex <? length rightHalf) then
    match fuel with
    | 0 => None
    | S fuel' =>
        let '(fromLeft, k') :=
          takeFromLeft rng k leftHalf rightHalf leftIndex rightIndex in
        if fromLeft then
          card ← leftHalf !! leftIndex;
          let result := result ++ [card] in
          let step :=
            {| description :=
                 "Step " +:+ pretty stepCount +:+
                 ": Take card from left half (position " +:+
                 pretty leftIndex +:+ " in left half)";
               cardIndices := [leftIndex];
               action := act_move;
               fromPositions := [leftIndex];
               toPositions := [length result - 1] |} in
          riffleSteps_loop fuel' rng k' splitPoint leftHalf rightHalf
            (leftIndex + 1) rightIndex result (stepCount + 1) (steps ++ [step])
        else
          card ← rightHalf !! rightIndex;
          let result := result ++ [card] in
          let step :=
            {| description :=
                 "Step " +:+ pretty stepCount +:+
                 ": Take card from right half (position " +:+
                 pretty rightIndex +:+ " in right half)";
               cardIndices := [splitPoint + rightIndex];
               action := act_move;
               fromPositions := [splitPoint + rightIndex];
               toPositions := [length result - 1] |} in
          riffleSteps_loop fuel' rng k' splitPoint leftHalf rightHalf
            leftIndex (rightIndex + 1) result (stepCount + 1) (steps ++ [step])
    end
  else Some steps.

Definition riffleShuffleSteps (fuel : nat) (rng : source) (deck : list Card)
  : option (list ShuffleStep) :=
  let splitPoint := riffle_splitPoint rng (length deck) in
  let leftHalf := take splitPoint deck in
  let rightHalf := drop splitPoint deck in
  let split :=
    {| description :=
         "Step 1: Split deck at position " +:+ pretty splitPoint +:+ " (" +:+
         pretty (length leftHalf) +:+ " cards left, " +:+
         pretty (length rightHalf) +:+ " cards right)";
       cardIndices := seq 0 (length deck);
       action := act_split;
       fromPositions := seq 0 (length deck);
       toPositions := seq 0 (length deck) |} in
  riffleSteps_loop fuel rng 1 splitPoint leftHalf rightHalf 0 0 [] 2 [split].

(** ** Overhand *)

(** [card] or [cards] in a description. *)
Definition plural (n : nat) : string := if 1 <? n then "s" else "".

Fixpoint overhand_loop (fuel : nat) (rng : source) (k : nat)
    (shuffledDeck result : list Card) : option (list Card) :=
  if 0 <? length shuffledDeck then
    match fuel with
    | 0 => None
    | S fuel' =>
        let groupSize :=
          Nat.min (length shuffledDeck) (floor_times (rng k) 7 + 1) in
        (* splice(0, groupSize) *)
        let group := take groupSize shuffledDeck in
        let shuffledDeck := drop groupSize shuffledDeck in
        (* unshift(...group) *)
        overhand_loop fuel' rng (S k) shuffledDeck (group ++ result)
    end
  else Some result.

Definition overhandShuffle (fuel : nat) (rng : source) (deck : list Card)
  : option (list Card) :=
  result ← overhand_loop fuel rng 0 deck [];
  Some (imap (fun index card => restamp index false card) result).

Fixpoint overhandSteps_loop (fuel : nat) (rng : source) (k : nat)
    (workingDeck result : list Card) (stepCount : nat)
    (steps : list ShuffleStep) : option (list ShuffleStep) :=
  if 0 <? length workingDeck then
    match fuel with
    | 0 => None
    | S fuel' =>
        let groupSize :=
          Nat.min (length workingDeck) (floor_times (rng k) 7 + 1) in
        let groupIndices := seq 0 groupSize in
        let step :=
          {| description :=
               "Step " +:+ pretty stepCount +:+ ": Take " +:+
               pretty groupSize +:+ " card" +:+ plural groupSize +:+
               " from top and place on bottom";
             cardIndices := groupIndices;
             action := act_move;
             fromPositions := groupIndices;
             toPositions := (fun i => length result + i) <$> seq 0 groupSize |} in
        let group := take groupSize workingDeck in
        let workingDeck := drop groupSize workingDeck in
        overhandSteps_loop fuel' rng (S k) workingDeck (group ++ result)
          (stepCount + 1) (steps ++ [step])
    end
  else Some steps.

Definition overhandShuffleSteps (fuel : nat) (rng : source) (deck : list Card)
  : option (list ShuffleStep) :=
  overhandSteps_loop fuel rng 0 deck [] 1 [].

(** ** Hindu *)

Fixpoint hindu_loop (fuel : nat) (rng : source) (k : nat)
    (shuffledDeck result : list Card) : option (list Card) :=
  if 0 <? length shuffledDeck then
    match fuel with
    | 0 => None
    | S fuel' =>
        let packetSize :=
          Nat.min (length shuffledDeck) (floor_times (rng k) 6 + 1) in
        (* splice(-packetSize, packetSize) *)
        let packet := drop (length shuffledDeck - packetSize) shuffledDeck in
        let shuffledDeck := take (length shuffledDeck - packetSize) shuffledDeck in
        (* push(...packet) *)
        hindu_loop fuel' rng (S k) shuffledDeck (result ++ packet)
    end
  else Some result.

Definition hinduShuffle (fuel : nat) (rng : source) (deck : list Card)
  : option (list Card) :=
  result ← hindu_loop fuel rng 0 deck [];
  Some (imap (fun index card => restamp index false card) result).

Fixpoint hinduSteps_loop (fuel : nat) (rng : source) (k : nat)
    (workingDeck result : list Card) (stepCount : nat)
    (steps : list ShuffleStep) : option (list ShuffleStep) :=
  if 0 <? length workingDeck then
    match fuel with
    | 0 => None
    | S fuel' =>
        let packetSize :=
          Nat.min (length workingDeck) (floor_times (rng k) 6 + 1) in
        let packetIndices :=
          (fun i => length workingDeck - packetSize + i) <$> seq 0 packetSize in
        let step :=
          {| description :=
               "Step " +:+ pretty stepCount +:+ ": Pull " +:+
               pretty packetSize +:+ " card" +:+ plural packetSize +:+
               " from bottom and drop on top";
             cardIndices := packetIndices;
             action := act_move;
             fromPositions := packetIndices;
             toPositions := (fun i => length result + i) <$> seq 0 packetSize |} in
        let packet := drop (length workingDeck - packetSize) workingDeck in
        let workingDeck := take (length workingDeck - packetSize) workingDeck in
        hinduSteps_loop fuel' rng (S k) workingDeck (result ++ packet)
          (stepCount + 1) (steps ++ [step])
    end
  else Some steps.

Definition hinduShuffleSteps (fuel : nat) (rng : source) (deck : list Card)
  : option (list ShuffleStep) :=
  hinduSteps_loop fuel rng 0 deck [] 1 [].

(** ** The table of algorithms *)

Record ShuffleAlgorithm := mkAlgorithm {
  name : string;
  algorithmDescription : string;
  timeComplexity : string;
  steps : list ShuffleStep;
  execute : nat -> source -> list Card -> option (list ShuffleStep)
}.

Definition SHUFFLE_ALGORITHMS : list ShuffleAlgorithm :=
  [ {| name := "Fisher-Yates";
       algorithmDescription := "Modern unbiased shuffle algorithm that produces a uniformly random permutation. Each card has an equal probability of ending up in any position. This is the gold standard for computer-based shuffling.";
       timeComplexity := "O(n)";
       steps := [];
       execute := fun _ rng deck => Some (fisherYatesShuffleSteps rng deck) |};
    {| name := "Riffle Shuffle";
       algorithmDescription := "Simulates the physical riffle shuffle used in card games. The deck is split roughly in half and the cards are interleaved with slight randomization. Commonly used in casinos and card games.";
       timeComplexity := "O(n)";
       steps := [];
       execute := riffleShuffleSteps |};
    {| name := "Overhand Shuffle";
       algorithmDescription := "Common casual shuffling method where small groups of cards are taken from the top of the deck and placed on the bottom. While intuitive, it requires many iterations to achieve good randomization and has poor mixing properties.";
       timeComplexity := "O(n²) for full randomization";
       steps := [];
       execute := overhandShuffleSteps |};
    {| name := "Hindu Shuffle";
       algorithmDescription := "Traditional shuffle method from South Asia where small packets of cards are pulled from the bottom of the deck and dropped on top. Similar to overhand shuffle but with opposite direction of movement.";
       timeComplexity := "O(n²) for full randomization";
       steps := [];
       execute := hinduShuffleSteps |} ].

(** [SHUFFLE_ALGORITHMS.find(algo => algo.name === name)]; [None] is
    [undefined]. *)
Definition getAlgorithmByName (n : string) : option ShuffleAlgorithm :=
  List.find (fun algo => String.eqb (name algo) n) SHUFFLE_ALGORITHMS.

(** ** Numbers of the statistics *)

(** A stored score: an integer, or [NaN]. *)
Inductive number := NaN | Int (z : Z).

(** [a > b]; any comparison with [NaN] is false. *)
Definition number_gt (a b : number) : bool :=
  match a, b with
  | Int x, Int y => bool_decide (y < x)%Z
  | _, _ => false
  end.

(** [Math.round]: the nearest integer, a half going up. *)
Definition Math_round (q : Q) : Z := Qfloor (q + (1 # 2))%Q.

(** The result of a call that can raise. *)
Inductive outcome (A : Type) :=
| Returned (a : A)
| Thrown (error : string).
Arguments Returned {A} a.
Arguments Thrown {A} error.

(** ** The displacement score *)

(** [shuffledDeck.findIndex(card => card.id === x)] *)
Definition findIndex_id (shuffledDeck : list Card) (x : string) : Z :=
  match list_find (fun card => id card = x) shuffledDeck with
  | Some (i, _) => Z.of_nat i
  | None => (-1)%Z
  end.

(** The [for] loop of [calculateRandomnessMetrics], from index [i] on. *)
Fixpoint displacement_loop (shuffledDeck : list Card) (i : nat)
    (rest : list Card) (displacedCards totalDisplacement : Z) : Z * Z :=
  match rest with
  | [] => (displacedCards, totalDisplacement)
  | originalCard :: rest' =>
      let shuffledPosition := findIndex_id shuffledDeck (id originalCard) in
      if bool_decide (shuffledPosition ≠ Z.of_nat i) then
        displacement_loop shuffledDeck (i + 1) rest' (displacedCards + 1)%Z
          (totalDisplacement + Z.abs (shuffledPosition - Z.of_nat i))%Z
      else
        displacement_loop shuffledDeck (i + 1) rest'
          displacedCards totalDisplacement
  end.

Definition calculateRandomnessMetrics (originalDeck shuffledDeck : list Card)
  : number :=
  if bool_decide (length originalDeck ≠ length shuffledDeck) then Int 0
  else
    let '(displacedCards, totalDisplacement) :=
      displacement_loop shuffledDeck 0 originalDeck 0 0 in
    match length originalDeck with
    | 0 => NaN                                           (* 0 / 0 *)
    | _ =>
        let n := inject_Z (Z.of_nat (length originalDeck)) in
        let displacementRatio := double_div (inject_Z displacedCards) n in
        let averageDisplacement := double_div (inject_Z totalDisplacement) n in
        let normalizedDisplacement :=
          Qmin (double_div averageDisplacement (double_div n 2)) 1 in
        Int (Math_round
               (double_mul
                  (double_add
                     (double_mul displacementRatio (fl (6 # 10)))
                     (double_mul normalizedDisplacement (fl (4 # 10))))
                  100))
    end.

(** ** The entropy score *)

(** [Math.log2] *)
Definition log2 (x : R) : R := (ln x / ln 2)%R.

(** The [Map] filled by [shuffledDeck.forEach]: a later card with the same id
    replaces an earlier one. *)
Definition positions_of (shuffledDeck : list Card) : gmap string nat :=
  foldl (fun positions '(index, card) => <[id card := index]> positions)
    ∅ (imap (fun index card => (index, card)) shuffledDeck).

(** [positions.get(card.id) || 0] and the distance to the original index. *)
Definition position_differences (originalDeck shuffledDeck : list Card)
  : list nat :=
  let positions := positions_of shuffledDeck in
  imap (fun originalIndex card =>
          let newPosition := default 0 (positions !! id card) in
          Z.abs_nat (Z.of_nat newPosition - Z.of_nat originalIndex))
    originalDeck.

(** [Math.max(...l)]; [None] is [-Infinity], the maximum of no argument. *)
Definition Math_max (l : list nat) : option nat :=
  match l with
  | [] => None
  | _ => Some (max_list l)
  end.

(** [new Array(maxDifference + 1).fill(0)] after
    [differences.forEach(diff => buckets[diff]++)]. *)
Definition fill_buckets (maxDifference : nat) (differences : list nat)
  : list nat :=
  foldl (fun buckets diff => alter S diff buckets)
    (replicate (maxDifference + 1) 0) differences.

(** The accumulation of [entropy] over the buckets. *)
Definition bucket_entropy (total : nat) (buckets : list nat) : R :=
  foldl (fun entropy count =>
           if 0 <? count then
             let probability := (INR count / INR total)%R in
             (entropy - probability * log2 probability)%R
           else entropy)
    0%R buckets.

Definition calculateEntropy (originalDeck shuffledDeck : list Card)
  : outcome R :=
  let differences := position_differences originalDeck shuffledDeck in
  match Math_max differences with
  | None =>
      (* new Array(-Infinity) *)
      Thrown "RangeError: Invalid array length"
  | Some 0 => Returned 0%R
  | Some maxDifference =>
      let buckets := fill_buckets maxDifference differences in
      let entropy := bucket_entropy (length differences) buckets in
      let maxEntropy := log2 (INR (length buckets)) in
      Returned (if Rlt_dec 0 maxEntropy
                then (entropy / maxEntropy * 100)%R else 0%R)
  end.

(** ** The statistics aggregator *)

Record ShuffleStatistics := mkStatistics {
  algorithmName : string;
  shuffleCount : nat;
  averageSteps : Z;
  randomnessScore : number;
  executionTimes : list Q
}.

Definition updateAlgorithmStatistics (currentStats : ShuffleStatistics)
    (originalDeck shuffledDeck : list Card) (executionTime : Q)
    (stepCount : Z) : ShuffleStatistics :=
  let score := calculateRandomnessMetrics originalDeck shuffledDeck in
  let newShuffleCount := shuffleCount currentStats + 1 in
  let newExecutionTimes := executionTimes currentStats ++ [executionTime] in
  let totalSteps :=
    (averageSteps currentStats * Z.of_nat (shuffleCount currentStats)
     + stepCount)%Z in
  let newAverageSteps :=
    Math_round (inject_Z totalSteps / inject_Z (Z.of_nat newShuffleCount)) in
  {| algorithmName := algorithmName currentStats;
     shuffleCount := newShuffleCount;
     averageSteps := newAverageSteps;
     randomnessScore :=
       match randomnessScore currentStats, score with
       | Int old, Int new =>
           Int (Math_round
                  (inject_Z (old * Z.of_nat (shuffleCount currentStats) + new)
                   / inject_Z (Z.of_nat newShuffleCount)))
       | _, _ => NaN
       end;
     executionTimes := newExecutionTimes |}.

Definition initializeAlgorithmStatistics (algorithmName : string)
  : ShuffleStatistics :=
  {| algorithmName := algorithmName;
     shuffleCount := 0;
     averageSteps := 0;
     randomnessScore := Int 0;
     executionTimes := [] |}.

Definition getAverageExecutionTime (stats : ShuffleStatistics) : Z :=
  match executionTimes stats with
  | [] => 0
  | times =>
      let sum := foldl double_add 0%Q times in
      Math_round (double_div sum (inject_Z (Z.of_nat (length times))))
  end.

Record Comparison (V : Type) := mkComparison {
  algorithm1 : string * V;
  algorithm2 : string * V;
  winner : string
}.
Arguments mkComparison {V}.
Arguments algorithm1 {V}.
Arguments algorithm2 {V}.
Arguments winner {V}.

Record AlgorithmComparison := mkAlgorithmComparison {
  randomnessComparison : Comparison number;
  speedComparison : Comparison Z;
  stepComparison : Comparison Z
}.

Definition compareAlgorithms (stats1 stats2 : ShuffleStatistics)
  : AlgorithmComparison :=
  {| randomnessComparison :=
       {| algorithm1 := (algorithmName stats1, randomnessScore stats1);
          algorithm2 := (algorithmName stats2, randomnessScore stats2);
          winner :=
            if number_gt (randomnessScore stats1) (randomnessScore stats2)
            then algorithmName stats1 else algorithmName stats2 |};
     speedComparison :=
       {| algorithm1 := (algorithmName stats1, getAverageExecutionTime stats1);
          algorithm2 := (algorithmName stats2, getAverageExecutionTime stats2);
          winner :=
            if bool_decide (getAverageExecutionTime stats1
                            < getAverageExecutionTime stats2)%Z
            then algorithmName stats1 else algorithmName stats2 |};
     stepComparison :=
       {| algorithm1 := (algorithmName stats1, averageSteps stats1);
          algorithm2 := (algorithmName stats2, averageSteps stats2);
          winner :=
            if bool_decide (averageSteps stats1 < averageSteps stats2)%Z
            then algorithmName stats1 else algorithmName stats2 |} |}.

(** * Notions used in the statements *)

(** ** Doubles *)

(** The number of low bits that [round53] rounds away. *)
Definition ulp_shift (a b : Z) : Z := Z.max 0 (Z.log2 (a / b) - 52).

(** [k] has at most 53 significant bits. *)
Definition fits53 (k : Z) : Prop := (2 ^ Z.max 0 (Z.log2 k - 52) | k)%Z.

(** The multiplier of the double nearest to [n / d]. *)
Definition sround (n d : Z) : Z :=
  (Z.sgn n * round53 (Z.abs n * Z.pos grid) d)%Z.

(** The finite doubles. *)
Definition double (x : Q) : Prop :=
  exists k : Z, fits53 (Z.abs k) /\ (x == k # grid)%Q.

(** The unit roundoff [2^-53]: the largest relative error of a rounding. *)
Definition eps : Q := 1 # 2 ^ 53.

(** The least multiple of [2^-53] that is at least [j / n]. *)
Definition draw_for (j n : nat) : draw :=
  mkDraw (Z.to_N ((Z.of_nat j * 2 ^ 53 + Z.of_nat n - 1) / Z.of_nat n)) 0.

(** ** Orders and exchanges *)

(** The transposition of the indices [i] and [j]. *)
Definition transpose (i j n : nat) : nat :=
  if decide (n = i) then j else if decide (n = j) then i else n.

(** What identifies a card, whatever its position and highlight. *)
Definition face (c : Card) : string * Suit * Rank := (id c, suit c, rank c).

(** The card of a slot, if it holds one. *)
Definition slot_face (s : slot) : option (string * Suit * Rank) :=
  match s with
  | Full c => Some (face c)
  | _ => None
  end.

(** The card order of an array, index by index. *)
Definition order (deck : list slot) : list (option (string * Suit * Rank)) :=
  slot_face <$> deck.

(** The card order of a well-typed deck, in the same form. *)
Definition card_order (deck : list Card)
  : list (option (string * Suit * Rank)) :=
  (fun c => Some (face c)) <$> deck.

(** The steps on which [applyShuffleStep] takes its first branch: a [swap]
    with exactly two indices. *)
Definition is_exchange (step : ShuffleStep) : bool :=
  match action step, cardIndices step with
  | act_swap, [_; _] => true
  | _, _ => false
  end.

(** ** Sample inputs *)

Definition card_a : Card := mkCard "hearts-A" hearts rA 0 false.
Definition card_b : Card := mkCard "hearts-2" hearts r2 1 false.
Definition card_c : Card := mkCard "hearts-3" hearts r3 2 false.

(** Every call of [Math.random()] returns 0.5. *)
Definition always_half : source := fun _ => mkDraw (2 ^ 52) 0.

(** The k-th call of [Math.random()] returns (k mod 8) / 8. *)
Definition rising : source := fun k => mkDraw (N.of_nat k * 2 ^ 50) 0.

(** ** Permutations of a deck *)

(** [out] has the length of [deck] and the same ids, in some order. *)
Definition permutes (deck out : list Card) : Prop :=
  length out = length deck /\ id <$> out ≡ₚ id <$> deck.

(** The reordering of [applyShuffleStep], on a [Card[]]. *)
Definition reordered (deck : list Card) (step : ShuffleStep) : list Card :=
  match action step, cardIndices step with
  | act_swap, [index1; index2] => swap deck index1 index2
  | _, _ => deck
  end.

(** The first record of a Fisher-Yates run on three cards. *)
Definition swap_0_2 : ShuffleStep :=
  {| description := "Step 1: Swap card at position 2 with card at position 0";
     cardIndices := [2; 0]; action := act_swap;
     fromPositions := [2; 0]; toPositions := [0; 2] |}.

(** ** Calls on invalid input *)

(** The names of the table. *)
Definition known_name (n : string) : Prop := n ∈ (name <$> SHUFFLE_ALGORITHMS).

(** Every index of the step is an index of the deck. *)
Definition inside (deck : list slot) (step : ShuffleStep) : Prop :=
  Forall (fun i => i < length deck) (cardIndices step).

(** A record whose second index is outside a deck of two cards. *)
Definition swap_0_5 : ShuffleStep :=
  {| description := "Step 1: Swap card at position 0 with card at position 5";
     cardIndices := [0; 5]; action := act_swap;
     fromPositions := [0; 5]; toPositions := [5; 0] |}.

(** ** Runs of the statistics *)

(** One recorded shuffle: the two decks, the execution time and the number
    of steps given to [updateAlgorithmStatistics]. *)
Record sample := mkSample {
  sample_original : list Card;
  sample_shuffled : list Card;
  sample_time : Q;
  sample_steps : Z
}.

(** One call of [updateAlgorithmStatistics]. *)
Definition record_sample (stats : ShuffleStatistics) (s : sample)
  : ShuffleStatistics :=
  updateAlgorithmStatistics stats (sample_original s) (sample_shuffled s)
    (sample_time s) (sample_steps s).

(** The statistics after the samples, from [initializeAlgorithmStatistics]. *)
Definition statistics_after (algorithm : string) (samples : list sample)
  : ShuffleStatistics :=
  foldl record_sample (initializeAlgorithmStatistics algorithm) samples.


(** A run of [n] steps that turns the deck [a, b] into [b, a]. *)
Definition steps_sample (n : Z) : sample :=
  mkSample [card_a; card_b] [card_b; card_a] 0 n.

(** ** The displacement score of the specification *)

(** The value that the specification rounds, from the displacements
    [d = |new index - original index|] of the items in their original
    order: [100 * (0.6 * displacedFraction
                   + 0.4 * normalizedMeanDisplacement)], in exact
    arithmetic. *)
Definition displacement_value (ds : list Z) : Q :=
  let N := inject_Z (Z.of_nat (length ds)) in
  let displacedFraction :=
    (inject_Z (Z.of_nat (length (filter (fun d => d ≠ 0%Z) ds))) / N)%Q in
  let meanDisplacement := (inject_Z (foldr Z.add 0%Z ds) / N)%Q in
  let normalizedMeanDisplacement := Qmin (meanDisplacement / (N / 2)) 1 in
  (100 * ((6 # 10) * displacedFraction
          + (4 # 10) * normalizedMeanDisplacement))%Q.

(** The score as the specification words it: [round] of that value. *)
Definition displacement_score (ds : list Z) : Z :=
  Math_round (displacement_value ds).

(** [new_index i] is where the shuffled deck holds the item that the
    original deck holds at [i]: the first place with its id (the only one
    when the ids are distinct). *)
Definition relocates (originalDeck shuffledDeck : list Card)
    (new_index : nat -> nat) : Prop :=
  forall i c, originalDeck !! i = Some c ->
    (exists c', shuffledDeck !! new_index i = Some c' /\ id c' = id c)
    /\ (forall j c', shuffledDeck !! j = Some c' -> id c' = id c ->
          new_index i <= j).

(** The expression that [calculateRandomnessMetrics] gives to [Math.round],
    from its two counters and the length: as the code computes it, and
    without any rounding. *)
Definition binary64_score (p t n : Q) : Q :=
  double_mul
    (double_add
       (double_mul (double_div p n) (fl (6 # 10)))
       (double_mul (Qmin (double_div (double_div t n) (double_div n 2)) 1)
          (fl (4 # 10))))
    100.

Definition exact_score (p t n : Q) : Q :=
  ((p / n * (6 # 10) + Qmin (t / n / (n / 2)) 1 * (4 # 10)) * 100)%Q.

(** [x] approximates [y] from within the factors [lo] and [hi], where [y]
    is 0 or at least [b]. *)
Definition rel (b lo hi x y : Q) : Prop :=
  (0 <= y /\ (y == 0 \/ b <= y) /\ lo * y <= x /\ x <= hi * y)%Q.

(** Eight cards, and the same with the first three rotated: the card of
    index 0 goes to index 2, those of 1 and 2 move down by one. *)
Definition eight_cards : list Card := take 8 createOrderedDeck.

Definition eight_rotated : list Card :=
  match eight_cards with
  | c0 :: c1 :: c2 :: rest => c1 :: c2 :: c0 :: rest
  | cards => cards
  end.

Definition rotate3 (i : nat) : nat :=
  match i with 0 => 2 | 1 => 0 | 2 => 1 | _ => i end.

(** [|new index - original index|] *)
Definition displacement (new_index : nat -> nat) (i : nat) : Z :=
  Z.abs (Z.of_nat (new_index i) - Z.of_nat i).

(** ** Traces of Fisher-Yates *)

(** The indices that the loop of [fisherYatesShuffle] draws, for [i] down to
    1, after [k] draws. *)
Fixpoint fisherYates_draws (rng : source) (k i : nat) : list nat :=
  match i with
  | 0 => []
  | S i' => floor_times (rng k) (i + 1) :: fisherYates_draws rng (S k) i'
  end.

(** The exchanges of the loop, for [i] down to 1, with the drawn indices
    [js]. *)
Fixpoint exchanges {A} (i : nat) (js : list nat) (a : list A) : list A :=
  match i, js with
  | S i', j :: js' => exchanges i' js' (swap a i j)
  | _, _ => a
  end.

(** Every trace of indices: one index of [[0, i]] for each [i] from the
    given one down to 1. *)
Fixpoint index_traces (i : nat) : list (list nat) :=
  match i with
  | 0 => [[]]
  | S i' => j ← seq 0 (i + 1); cons j <$> index_traces i'
  end.

(** * Further functions and notions *)

(** ** The run count *)

#[local] Instance Suit_eq_dec : EqDecision Suit.
Proof. solve_decision. Defined.

(** The [for] loop of [calculateRunCount]: [i] runs from 1 to the last
    index and compares the suits at [i] and [i - 1]. *)
Definition calculateRunCount_loop (deck : list Card) : nat :=
  foldl (fun runs i =>
           match deck !! i, deck !! (i - 1) with
           | Some card, Some previous =>
               if decide (suit card ≠ suit previous) then runs + 1 else runs
           | _, _ => runs
           end)
    1 (seq 1 (length deck - 1)).

Definition calculateRunCount (deck : list Card) : nat :=
  match deck with
  | [] => 0
  | _ => calculateRunCount_loop deck
  end.

(** ** Notions of the further statements *)

(** Every card has its index as [position] and is not highlighted. *)
Definition normalized (deck : list Card) : Prop :=
  forall i c, deck !! i = Some c -> position c = i /\ isHighlighted c = false.

(** The two decks hold the same cards in the same order, whatever their
    positions and highlights. *)
Definition same_cards (deck deck' : list Card) : Prop :=
  face <$> deck = face <$> deck'.

(** The cards that an array holds, in the order of their indices (holes,
    [undefined] and objects without a card hold none). *)
Definition cards_of (deck : list slot) : list (string * Suit * Rank) :=
  omap slot_face deck.

(** A closed comparison of rationals, by computation. *)
Ltac qcompute := vm_compute; let H := fresh in intro H; discriminate H.

(** * Properties *)

(** ** Rounding to a double *)

Section rounding.
Local Open Scope Z_scope.

Lemma nearest_even_cases (a b : Z) :
  0 < b ->
  let q := a / b in let r := a mod b in
  (nearest_even a b = q /\ 2 * r <= b /\ (2 * r = b -> Z.even q = true))
  \/ (nearest_even a b = q + 1 /\ b <= 2 * r /\ (2 * r = b -> Z.even q = false)).
Proof.
  intros Hb q r. unfold nearest_even. fold q r.
  destruct (Z.ltb_spec (2 * r) b); [left; lia|].
  destruct (Z.ltb_spec b (2 * r)); [right; lia|].
  destruct (Z.even q) eqn:E; [left|right]; repeat split; try lia; auto.
Qed.

Lemma nearest_even_half (a b : Z) :
  0 < b -> 2 * Z.abs (nearest_even a b * b - a) <= b.
Proof.
  intros Hb. pose proof (Z.div_mod a b ltac:(lia)) as Hdm.
  pose proof (Z.mod_pos_bound a b Hb) as Hr.
  destruct (nearest_even_cases a b Hb) as [(-> & H & _)|(-> & H & _)]; nia.
Qed.

Lemma nearest_even_exact (k b : Z) : 0 < b -> nearest_even (k * b) b = k.
Proof.
  intros Hb. unfold nearest_even.
  rewrite Z.div_mul, Z.mod_mul by lia.
  destruct (Z.ltb_spec (2 * 0) b); [done|lia].
Qed.

Lemma div_le_cross (a b a' b' : Z) :
  0 < b -> 0 < b' -> a * b' <= a' * b -> a / b <= a' / b'.
Proof.
  intros Hb Hb' H. apply Z.div_le_lower_bound; [lia|].
  pose proof (Z.mul_div_le a b Hb). nia.
Qed.

Lemma nearest_even_mono (a b a' b' : Z) :
  0 < b -> 0 < b' -> a * b' <= a' * b ->
  nearest_even a b <= nearest_even a' b'.
Proof.
  intros Hb Hb' H.
  pose proof (div_le_cross a b a' b' Hb Hb' H) as Hq.
  pose proof (Z.div_mod a b ltac:(lia)) as Hdm.
  pose proof (Z.div_mod a' b' ltac:(lia)) as Hdm'.
  pose proof (Z.mod_pos_bound a b Hb) as Hr.
  pose proof (Z.mod_pos_bound a' b' Hb') as Hr'.
  destruct (nearest_even_cases a b Hb) as [(-> & H1 & E1)|(-> & H1 & E1)];
  destruct (nearest_even_cases a' b' Hb') as [(-> & H2 & E2)|(-> & H2 & E2)];
    try lia.
  (* up for a/b, down for a'/b' *)
  destruct (Z.eq_dec (a / b) (a' / b')) as [Heq|Hne]; [|lia].
  exfalso.
  set (q := a / b) in *. set (r := a mod b) in *.
  set (r' := a' mod b') in *. rewrite <- Heq in *.
  assert (Hrr : r * b' <= r' * b) by nia.
  assert (2 * r = b) by nia.
  assert (2 * r' = b') by nia.
  rewrite E1 in E2 by done. specialize (E2 ltac:(done)). discriminate.
Qed.

Lemma nearest_even_ge (a b k : Z) :
  0 < b -> k * b <= a -> k <= nearest_even a b.
Proof.
  intros Hb H. rewrite <- (nearest_even_exact k b Hb).
  apply nearest_even_mono; nia.
Qed.

Lemma nearest_even_le (a b k : Z) :
  0 < b -> a <= k * b -> nearest_even a b <= k.
Proof.
  intros Hb H. rewrite <- (nearest_even_exact k b Hb).
  apply nearest_even_mono; nia.
Qed.

Lemma nearest_even_scale (a b c : Z) :
  0 < b -> 0 < c -> nearest_even (c * a) (c * b) = nearest_even a b.
Proof.
  intros Hb Hc. unfold nearest_even.
  rewrite Z.div_mul_cancel_l, Z.mul_mod_distr_l by lia.
  destruct (Z.ltb_spec (2 * (a mod b)) b), (Z.ltb_spec (2 * (c * (a mod b))) (c * b));
    try nia; try done.
  destruct (Z.ltb_spec b (2 * (a mod b))), (Z.ltb_spec (c * b) (2 * (c * (a mod b))));
    try nia; done.
Qed.

Lemma round53_unfold a b :
  round53 a b = nearest_even a (b * 2 ^ ulp_shift a b) * 2 ^ ulp_shift a b.
Proof. reflexivity. Qed.

Lemma ulp_shift_nonneg a b : 0 <= ulp_shift a b.
Proof. unfold ulp_shift. lia. Qed.

Lemma ulp_shift_mono (a b a' b' : Z) :
  0 < b -> 0 < b' -> a * b' <= a' * b -> ulp_shift a b <= ulp_shift a' b'.
Proof.
  intros Hb Hb' H. unfold ulp_shift.
  pose proof (div_le_cross a b a' b' Hb Hb' H).
  pose proof (Z.log2_le_mono (a / b) (a' / b') ltac:(done)). lia.
Qed.

Lemma pow2_pos (n : Z) : 0 <= n -> 0 < 2 ^ n.
Proof. intros. apply Z.pow_pos_nonneg; lia. Qed.

Lemma round53_half (a b : Z) :
  0 < b -> 2 * Z.abs (round53 a b * b - a) <= b * 2 ^ ulp_shift a b.
Proof.
  intros Hb. rewrite round53_unfold.
  pose proof (pow2_pos _ (ulp_shift_nonneg a b)) as Hp.
  pose proof (nearest_even_half a (b * 2 ^ ulp_shift a b) ltac:(nia)) as H.
  replace (nearest_even a (b * 2 ^ ulp_shift a b) * 2 ^ ulp_shift a b * b)
    with (nearest_even a (b * 2 ^ ulp_shift a b) * (b * 2 ^ ulp_shift a b)) by ring.
  done.
Qed.

Lemma round53_nonneg (a b : Z) : 0 <= a -> 0 < b -> 0 <= round53 a b.
Proof.
  intros Ha Hb. rewrite round53_unfold.
  pose proof (pow2_pos _ (ulp_shift_nonneg a b)) as Hp.
  pose proof (nearest_even_ge a (b * 2 ^ ulp_shift a b) 0 ltac:(nia) ltac:(lia)).
  nia.
Qed.

Lemma div_lt_pow (a b c : Z) : 0 < b -> a / b < c -> a < c * b.
Proof.
  intros Hb H. pose proof (Z.div_mod a b ltac:(lia)).
  pose proof (Z.mod_pos_bound a b Hb). nia.
Qed.

Lemma round53_mono (a b a' b' : Z) :
  0 <= a -> 0 < b -> 0 < b' -> a * b' <= a' * b ->
  round53 a b <= round53 a' b'.
Proof.
  intros Ha Hb Hb' H.
  pose proof (ulp_shift_mono a b a' b' Hb Hb' H) as Hsh.
  pose proof (ulp_shift_nonneg a b) as Hs0.
  rewrite !round53_unfold.
  set (s := ulp_shift a b) in *. set (s' := ulp_shift a' b') in *.
  pose proof (pow2_pos s Hs0) as Hp. pose proof (pow2_pos s' ltac:(lia)) as Hp'.
  destruct (Z.eq_dec s s') as [<-|Hne].
  - apply Z.mul_le_mono_nonneg_r; [lia|].
    apply nearest_even_mono; nia.
  - assert (Hlt : s < s') by lia.
    assert (Hs' : s' = Z.log2 (a' / b') - 52) by (unfold s', ulp_shift in *; lia).
    set (L := 52 + s').
    assert (HL : Z.log2 (a' / b') = L) by (unfold L; lia).
    assert (Ha' : 0 < a' / b').
    { destruct (Z.le_gt_cases (a' / b') 0) as [Hle|]; [|done].
      rewrite (Z.log2_nonpos _ Hle) in HL. lia. }
    pose proof (Z.log2_spec _ Ha') as [Hlo _]. rewrite HL in Hlo.
    assert (Hw : a / b < 2 ^ L).
    { assert (0 <= a / b) by (apply Z.div_pos; lia).
      destruct (Z.eq_dec (a / b) 0) as [->|]; [apply pow2_pos; lia|].
      apply Z.log2_lt_pow2; [lia|]. unfold s, ulp_shift in Hlt. lia. }
    apply div_lt_pow in Hw; [|done].
    assert (Hd : 2 ^ L * b' <= a').
    { pose proof (Z.mul_div_le a' b' Hb'). nia. }
    assert (E1 : 2 ^ L = 2 ^ (L - s) * 2 ^ s)
      by (rewrite <- Z.pow_add_r by lia; f_equal; lia).
    assert (E2 : 2 ^ L = 2 ^ 52 * 2 ^ s')
      by (rewrite <- Z.pow_add_r by lia; f_equal; lia).
    transitivity (2 ^ L).
    + rewrite E1 at 1. apply Z.mul_le_mono_nonneg_r; [lia|].
      apply nearest_even_le; [nia|]. nia.
    + rewrite E2 at 1. apply Z.mul_le_mono_nonneg_r; [lia|].
      apply nearest_even_ge; [nia|]. nia.
Qed.

Lemma round53_scale (a b c : Z) :
  0 < b -> 0 < c -> round53 (c * a) (c * b) = round53 a b.
Proof.
  intros Hb Hc. unfold round53.
  rewrite Z.div_mul_cancel_l by lia.
  rewrite <- Z.mul_assoc, nearest_even_scale; try done.
  pose proof (pow2_pos (Z.max 0 (Z.log2 (a / b) - 52)) ltac:(lia)). nia.
Qed.

Lemma round53_exact (k b : Z) :
  0 < b -> fits53 k -> round53 (k * b) b = k.
Proof.
  intros Hb [m Hm]. unfold round53. rewrite Z.div_mul by lia.
  set (s := Z.max 0 (Z.log2 k - 52)) in *.
  pose proof (pow2_pos s ltac:(lia)).
  replace (k * b) with (m * (b * 2 ^ s)) by (rewrite Hm at 1; ring).
  rewrite nearest_even_exact by nia. lia.
Qed.

Lemma fits53_small (k : Z) : k < 2 ^ 53 -> fits53 k.
Proof.
  intros Hk. unfold fits53.
  assert (Z.log2 k <= 52).
  { destruct (Z.le_gt_cases k 0) as [Hle|Hpos].
    - rewrite (Z.log2_nonpos _ Hle). lia.
    - assert (Z.log2 k < 53) by (apply Z.log2_lt_pow2; lia). lia. }
  rewrite Z.max_l by lia. exists k. simpl. lia.
Qed.

Lemma fits53_shift (m t : Z) :
  0 <= m < 2 ^ 53 -> 0 <= t -> fits53 (m * 2 ^ t).
Proof.
  intros Hm Ht. unfold fits53.
  destruct (Z.eq_dec m 0) as [->|Hne].
  { rewrite Z.mul_0_l. apply Z.divide_0_r. }
  pose proof (pow2_pos t Ht).
  assert (Hl : Z.log2 (m * 2 ^ t) = Z.log2 m + t).
  { rewrite Z.log2_mul_pow2 by lia. lia. }
  assert (Z.log2 m < 53) by (apply Z.log2_lt_pow2; lia).
  rewrite Hl.
  set (s := Z.max 0 (Z.log2 m + t - 52)).
  assert (s <= t) by lia.
  exists (m * 2 ^ (t - s)). rewrite <- Z.mul_assoc, <- Z.pow_add_r by lia.
  do 2 f_equal. lia.
Qed.

Lemma round53_rel (a b : Z) :
  0 <= a -> 0 < b -> 2 ^ 52 <= a / b ->
  2 ^ 53 * Z.abs (round53 a b * b - a) <= a.
Proof.
  intros Ha Hb Hn.
  pose proof (round53_half a b Hb) as Hh.
  pose proof (Z.mul_div_le a b Hb) as Hd.
  assert (Hw : 0 < a / b) by (pose proof (pow2_pos 52); lia).
  pose proof (Z.log2_spec _ Hw) as [Hlo _].
  assert (Hl : 52 <= Z.log2 (a / b)).
  { apply Z.log2_le_pow2; lia. }
  assert (Hs : ulp_shift a b = Z.log2 (a / b) - 52) by (unfold ulp_shift; lia).
  assert (E : 2 ^ Z.log2 (a / b) = 2 ^ 52 * 2 ^ ulp_shift a b).
  { rewrite <- Z.pow_add_r by lia. f_equal. lia. }
  pose proof (pow2_pos (ulp_shift a b) ltac:(lia)).
  change (2 ^ 53) with (2 * 2 ^ 52). 
  set (e := Z.abs (round53 a b * b - a)) in *.
  assert (2 ^ 52 * (2 * e) <= 2 ^ 52 * (b * 2 ^ ulp_shift a b)).
  { apply Z.mul_le_mono_nonneg_l; [|done]. pose proof (pow2_pos 52). lia. }
  nia.
Qed.

Lemma round53_0 (b : Z) : 0 < b -> round53 0 b = 0.
Proof.
  intros Hb. change 0 with (0 * b) at 1.
  apply round53_exact; [done|]. apply fits53_small. done.
Qed.

Lemma fl_unfold (x : Q) :
  fl x = sround (Qnum (Qred x)) (Z.pos (Qden (Qred x))) # grid.
Proof. reflexivity. Qed.

Lemma sround_nonneg (n d : Z) :
  0 <= n -> 0 < d -> sround n d = round53 (n * Z.pos grid) d.
Proof.
  intros Hn Hd. unfold sround.
  destruct (Z.eq_dec n 0) as [->|Hne].
  - rewrite Z.mul_0_l, round53_0 by done. done.
  - rewrite Z.sgn_pos, Z.abs_eq by lia. lia.
Qed.

Lemma sround_opp (n d : Z) : sround (- n) d = - sround n d.
Proof. unfold sround. rewrite Z.sgn_opp, Z.abs_opp. lia. Qed.

Lemma sround_neg (n d : Z) :
  n <= 0 -> 0 < d -> sround n d = - round53 (- n * Z.pos grid) d.
Proof.
  intros Hn Hd. rewrite <- (sround_nonneg (- n)) by lia.
  rewrite sround_opp. lia.
Qed.

Lemma sround_mono (n d n' d' : Z) :
  0 < d -> 0 < d' -> n * d' <= n' * d -> sround n d <= sround n' d'.
Proof.
  intros Hd Hd' H.
  destruct (Z.le_gt_cases 0 n) as [Hn|Hn], (Z.le_gt_cases 0 n') as [Hn'|Hn'].
  - rewrite !sround_nonneg by done. apply round53_mono; nia.
  - assert (0 <= n * d') by (apply Z.mul_nonneg_nonneg; lia).
    assert (n' * d < 0) by (apply Z.mul_neg_pos; lia). lia.
  - rewrite (sround_neg n), (sround_nonneg n') by lia.
    pose proof (round53_nonneg (- n * Z.pos grid) d ltac:(nia) Hd).
    pose proof (round53_nonneg (n' * Z.pos grid) d' ltac:(nia) Hd'). lia.
  - rewrite (sround_neg n), (sround_neg n') by lia.
    apply Z.opp_le_mono. rewrite !Z.opp_involutive.
    apply round53_mono; nia.
Qed.

Lemma sround_scale (n d c : Z) :
  0 < d -> 0 < c -> sround (c * n) (c * d) = sround n d.
Proof.
  intros Hd Hc. unfold sround.
  rewrite Z.sgn_mul, Z.abs_mul, (Z.sgn_pos c), (Z.abs_eq c) by lia.
  replace (c * Z.abs n * Z.pos grid) with (c * (Z.abs n * Z.pos grid)) by ring.
  rewrite round53_scale by done. lia.
Qed.

Lemma sround_cross (n d n' d' : Z) :
  0 < d -> 0 < d' -> n * d' = n' * d -> sround n d = sround n' d'.
Proof.
  intros Hd Hd' H. apply Z.le_antisymm; apply sround_mono; lia.
Qed.

Lemma fl_make (n : Z) (d : positive) : fl (n # d) = sround n (Z.pos d) # grid.
Proof.
  rewrite fl_unfold. f_equal.
  pose proof (Qred_correct (n # d)) as H. unfold Qeq in H. simpl in H.
  apply sround_cross; lia.
Qed.

Lemma fl_comp (x y : Q) : (x == y)%Q -> fl x = fl y.
Proof. intros H. unfold fl. by rewrite (Qred_complete _ _ H). Qed.

#[local] Instance fl_proper : Proper (Qeq ==> Qeq) fl.
Proof. intros x y H. by rewrite (fl_comp x y H). Qed.

Lemma fl_le (x y : Q) : (x <= y)%Q -> (fl x <= fl y)%Q.
Proof.
  intros H. destruct x as [n d], y as [n' d']. rewrite !fl_make.
  unfold Qle in *. simpl in *.
  apply Z.mul_le_mono_nonneg_r; [lia|].
  apply sround_mono; lia.
Qed.

Lemma fl_opp (x : Q) : fl (- x) = (- fl x)%Q.
Proof.
  destruct x as [n d]. change (- (n # d))%Q with (- n # d).
  rewrite !fl_make, sround_opp. reflexivity.
Qed.

Lemma fl_double (x : Q) : double x -> (fl x == x)%Q.
Proof.
  intros (k & Hk & Hx). rewrite (fl_comp _ _ Hx), fl_make.
  unfold sround. rewrite Z.mul_comm at 1.
  rewrite (Z.mul_comm (Z.abs k)).
  replace (round53 (Z.pos grid * Z.abs k) (Z.pos grid)) with (Z.abs k).
  2:{ rewrite (Z.mul_comm (Z.pos grid)). symmetry. apply round53_exact; [lia|done]. }
  rewrite Hx. replace (Z.abs k * Z.sgn k) with k by lia. reflexivity.
Qed.

Lemma grid_eq : Z.pos grid = 2 ^ 1074.
Proof. unfold grid. by rewrite Pos2Z.inj_pow. Qed.

Lemma fits53_mul_pow2 (k t : Z) :
  0 <= k -> 0 <= t -> fits53 k -> fits53 (k * 2 ^ t).
Proof.
  intros Hk Ht [m Hm]. unfold fits53 in *.
  destruct (Z.eq_dec k 0) as [->|Hne].
  { rewrite Z.mul_0_l. apply Z.divide_0_r. }
  rewrite Z.log2_mul_pow2 by lia.
  set (s := Z.max 0 (Z.log2 k - 52)) in *.
  set (s' := Z.max 0 (t + Z.log2 k - 52)).
  assert (s' <= s + t) by lia.
  exists (m * 2 ^ (s + t - s')). rewrite Hm at 1.
  rewrite <- !Z.mul_assoc, <- !Z.pow_add_r by lia.
  do 2 f_equal. lia.
Qed.

Lemma double_Z (k : Z) : fits53 (Z.abs k) -> double (inject_Z k).
Proof.
  intros Hk. exists (k * Z.pos grid). split.
  - rewrite Z.abs_mul, (Z.abs_eq (Z.pos grid)), grid_eq by lia.
    apply fits53_mul_pow2; [lia|lia|done].
  - unfold Qeq, inject_Z. simpl. lia.
Qed.

Lemma fl_Z (k : Z) : Z.abs k <= 2 ^ 53 -> (fl (inject_Z k) == inject_Z k)%Q.
Proof.
  intros Hk. apply fl_double, double_Z.
  destruct (Z.eq_dec (Z.abs k) (2 ^ 53)) as [->|Hne].
  - apply (fits53_shift 1 53); lia.
  - apply fits53_small. lia.
Qed.

Lemma fl_0 : (fl 0 == 0)%Q.
Proof. apply (fl_Z 0). simpl. lia. Qed.

Lemma fl_nonneg (x : Q) : (0 <= x)%Q -> (0 <= fl x)%Q.
Proof. intros H. rewrite <- fl_0. by apply fl_le. Qed.

Lemma sround_rel (n d : Z) :
  0 <= n -> 0 < d ->
  2 ^ 52 <= n * Z.pos grid / d \/ (d | n * Z.pos grid) ->
  2 ^ 53 * Z.abs (sround n d * d - n * Z.pos grid) <= n * Z.pos grid.
Proof.
  intros Hn Hd Hc. rewrite sround_nonneg by done.
  set (a := n * Z.pos grid) in *.
  assert (Ha : 0 <= a) by (unfold a; nia).
  destruct (Z.le_gt_cases (2 ^ 52) (a / d)) as [Hle|Hgt].
  - by apply round53_rel.
  - destruct Hc as [Hc|[k Hk]]; [lia|].
    rewrite Hk in Hgt |- *. rewrite Z.div_mul in Hgt by lia.
    rewrite round53_exact; [|done|apply fits53_small].
    + replace (k * d - k * d) with 0 by ring. simpl. nia.
    + pose proof (Z.pow_lt_mono_r 2 52 53). lia.
Qed.

Lemma fl_rel_make (n : Z) (d : positive) :
  0 <= n ->
  2 ^ 52 <= n * Z.pos grid / Z.pos d \/ (Z.pos d | n * Z.pos grid) ->
  ((n # d) * (1 - eps) <= fl (n # d) <= (n # d) * (1 + eps))%Q.
Proof.
  intros Hn Hc. rewrite fl_make.
  pose proof (sround_rel n (Z.pos d) Hn ltac:(lia) Hc) as H.
  set (r := sround n (Z.pos d)) in *. clearbody r.
  revert H. generalize grid. intros P H.

  unfold eps, Qle, Qmult, Qplus, Qminus, Qopp. simpl.
  rewrite !Pos2Z.inj_mul, !Pos2Z.inj_pow.
  assert (HE : 0 < 2 ^ 53) by (by apply pow2_pos).
  set (E := 2 ^ 53) in *. clearbody E.
  split; nia.
Qed.

Lemma fl_rel_normal (x : Q) :
  (1 # 2 ^ 1022 <= x)%Q ->
  (x * (1 - eps) <= fl x <= x * (1 + eps))%Q.
Proof.
  intros Hx. destruct x as [n d].
  assert (Hn : 0 <= n).
  { unfold Qle in Hx. simpl in Hx. nia. }
  apply fl_rel_make; [done|]. left.
  apply Z.div_le_lower_bound; [lia|].
  unfold Qle in Hx. simpl in Hx. rewrite Pos2Z.inj_pow in Hx.
  rewrite grid_eq.
  change (2 ^ 1074) with (2 ^ 52 * 2 ^ 1022).
  assert (0 < 2 ^ 52) by (by apply pow2_pos).
  set (A := 2 ^ 52) in *. set (B := 2 ^ 1022) in *. clearbody A B. nia.
Qed.

Lemma fl_rel_grid (x : Q) (k : Z) :
  0 <= k -> (x == k # grid)%Q ->
  (x * (1 - eps) <= fl x <= x * (1 + eps))%Q.
Proof.
  intros Hk Hx. rewrite (fl_comp _ _ Hx), Hx.
  apply fl_rel_make; [done|]. right.
  exists k. ring.
Qed.

Lemma eps_pos : (0 < eps)%Q.
Proof. reflexivity. Qed.

Lemma eps_lt_1 : (eps < 1)%Q.
Proof. reflexivity. Qed.

Lemma fl_lt_Z (x : Q) (k : Z) :
  Z.abs k <= 2 ^ 53 -> (fl x < inject_Z k)%Q -> (x < inject_Z k)%Q.
Proof.
  intros Hk H. apply Qnot_le_lt. intros Hle.
  apply fl_le in Hle. rewrite (fl_Z k Hk) in Hle.
  apply (Qlt_not_le _ _ H Hle).
Qed.

Lemma fl_ge_Z (x : Q) (k : Z) :
  Z.abs k <= 2 ^ 53 -> (inject_Z k <= x)%Q -> (inject_Z k <= fl x)%Q.
Proof. intros Hk H. rewrite <- (fl_Z k Hk). by apply fl_le. Qed.

Lemma fl_le_Z (x : Q) (k : Z) :
  Z.abs k <= 2 ^ 53 -> (x <= inject_Z k)%Q -> (fl x <= inject_Z k)%Q.
Proof. intros Hk H. rewrite <- (fl_Z k Hk). by apply fl_le. Qed.

(** ** The random source *)

Lemma significand_bound (u : draw) : 0 <= significand u < 2 ^ 53.
Proof.
  unfold significand.
  pose proof (N.mod_upper_bound (bits u) (2 ^ 53) ltac:(done)) as H.
  apply N2Z.inj_lt in H. rewrite N2Z.inj_pow in H.
  change (Z.of_N 2) with 2 in H. change (Z.of_N 53) with 53 in H.
  pose proof (N2Z.is_nonneg (bits u mod 2 ^ 53)). lia.
Qed.

Lemma scale_bound (u : draw) : 53 <= scale u <= 1074.
Proof. unfold scale. lia. Qed.

Lemma Qdiv_pow2 (m e : Z) :
  0 <= e -> (inject_Z m / inject_Z (2 ^ e) == m # Z.to_pos (2 ^ e))%Q.
Proof.
  intros He. pose proof (pow2_pos e He) as Hp.
  destruct (2 ^ e) as [|p|p] eqn:E; try lia.
  unfold Qdiv, Qinv, Qmult, Qeq, inject_Z. simpl. lia.
Qed.

(** A product of a draw and a natural number is a multiple of [2^-1074]. *)
Lemma draw_times_grid (u : draw) (n : Z) :
  0 <= n ->
  exists k, 0 <= k
    /\ (draw_value u * inject_Z n == k # grid)%Q
    /\ k * 2 ^ 53 <= n * (2 ^ 53 - 1) * Z.pos grid.
Proof.
  intros Hn. pose proof (significand_bound u) as Hm.
  pose proof (scale_bound u) as Hs.
  exists (significand u * n * 2 ^ (1074 - scale u)).
  pose proof (pow2_pos (1074 - scale u) ltac:(lia)) as Hp.
  pose proof (pow2_pos (scale u) ltac:(lia)) as Hp'.
  assert (E : 2 ^ scale u * 2 ^ (1074 - scale u) = Z.pos grid).
  { rewrite grid_eq, <- Z.pow_add_r by lia. f_equal. lia. }
  split; [nia|]. split.
  - unfold draw_value. rewrite Qdiv_pow2 by lia.
    unfold Qeq, Qmult, inject_Z. simpl.
    rewrite Pos.mul_1_r, Z2Pos.id by done. rewrite <- E. ring.
  - rewrite <- E.
    assert (E53 : 2 ^ scale u = 2 ^ 53 * 2 ^ (scale u - 53)).
    { rewrite <- Z.pow_add_r by lia. f_equal. lia. }
    pose proof (pow2_pos (scale u - 53) ltac:(lia)).
    set (A := 2 ^ (scale u - 53)) in *. set (B := 2 ^ (1074 - scale u)) in *.
    rewrite E53. set (E5 := 2 ^ 53) in *.
    clearbody A B E5. set (m := significand u) in *. clearbody m.
    assert (0 <= n * B * E5) by (repeat apply Z.mul_nonneg_nonneg; lia).
    assert (H1 : m * (n * B * E5) <= (E5 - 1) * (n * B * E5))
      by (apply Z.mul_le_mono_nonneg_r; lia).
    assert (H2 : (E5 - 1) * (n * B * E5) * 1 <= (E5 - 1) * (n * B * E5) * A)
      by (apply Z.mul_le_mono_nonneg_l; [apply Z.mul_nonneg_nonneg|]; lia).
    lia.
Qed.

Lemma Qfloor_lt_Z (y : Q) (n : Z) : (y < inject_Z n)%Q -> Qfloor y < n.
Proof.
  intros H. rewrite Zlt_Qlt.
  eapply Qle_lt_trans; [apply Qfloor_le|done].
Qed.

Lemma Qfloor_ge_Z (y : Q) (n : Z) : (inject_Z n <= y)%Q -> n <= Qfloor y.
Proof.
  intros H. rewrite <- (Qfloor_Z n). by apply Qfloor_resp_le.
Qed.

(** The rounded product of a draw and [n] stays below [n]. *)
Lemma draw_times_lt (u : draw) (n : Z) :
  0 < n -> (double_mul (draw_value u) (inject_Z n) < inject_Z n)%Q.
Proof.
  intros Hn. unfold double_mul.
  destruct (draw_times_grid u n ltac:(lia)) as (k & Hk & Hx & Hb).
  pose proof (fl_rel_grid _ k Hk Hx) as [_ Hup].
  eapply Qle_lt_trans; [exact Hup|]. rewrite Hx.
  unfold eps, Qlt, Qmult, Qplus, inject_Z. simpl.
  rewrite !Pos2Z.inj_mul, !Pos2Z.inj_pow.
  revert Hb. generalize (Z.pos grid) (Pos2Z.is_pos grid). intros P HP Hb.
  assert (HE : 0 < 2 ^ 53) by (by apply pow2_pos).
  change (Z.pos 2 ^ Z.pos 53) with (2 ^ 53).
  set (E := 2 ^ 53) in *. clearbody E.
  assert (H1 : k * E * (E + 1) <= n * (E - 1) * P * (E + 1))
    by (apply Z.mul_le_mono_nonneg_r; lia).
  assert (H2 : n * (E - 1) * P * (E + 1) < n * P * E * E) by nia.
  apply (Z.mul_lt_mono_pos_r E); [done|]. nia.
Qed.

Lemma floor_times_lt (u : draw) (n : nat) :
  (0 < n)%nat -> (floor_times u n < n)%nat.
Proof.
  intros Hn. unfold floor_times.
  pose proof (Qfloor_lt_Z _ _ (draw_times_lt u (Z.of_nat n) ltac:(lia))).
  lia.
Qed.

Lemma draw_value_nonneg (u : draw) : (0 <= draw_value u)%Q.
Proof.
  unfold draw_value. pose proof (significand_bound u).
  pose proof (scale_bound u). rewrite Qdiv_pow2 by lia.
  unfold Qle. simpl. lia.
Qed.

Lemma draw_times_le (u : draw) (n : Z) :
  0 <= n -> (draw_value u * inject_Z n <= inject_Z n * (1 - eps))%Q.
Proof.
  intros Hn.
  destruct (draw_times_grid u n Hn) as (k & Hk & Hx & Hb).
  rewrite Hx. unfold eps, Qle, Qmult, Qminus, Qplus, Qopp, inject_Z. simpl.
  rewrite !Pos2Z.inj_mul, !Pos2Z.inj_pow.
  change (Z.pos 2 ^ Z.pos 53) with (2 ^ 53).
  revert Hb. generalize (Z.pos grid). intros P Hb.
  set (E := 2 ^ 53) in *. clearbody E. nia.
Qed.

Lemma draw_times_nonneg (u : draw) (n : Z) :
  0 <= n -> (0 <= draw_value u * inject_Z n)%Q.
Proof.
  intros Hn. apply Qmult_le_0_compat; [apply draw_value_nonneg|].
  change 0%Q with (inject_Z 0). by rewrite <- Zle_Qle.
Qed.

Lemma one_minus_eps_sq (x : Q) : (0 <= x -> x * (1 + eps) * (1 - eps) <= x)%Q.
Proof.
  intros Hx. pose proof eps_pos.
  assert (x * (1 + eps) * (1 - eps) == x - x * (eps * eps))%Q as -> by ring.
  assert (0 <= x * (eps * eps))%Q; [|Lqa.lra].
  apply Qmult_le_0_compat; [done|]. apply Qmult_le_0_compat; Lqa.lra.
Qed.

(** [floor_times u n] is [j] for the draws of [[j/n, (j+1)/n)], up to the
    rounding of the product: a relative [2^-53] at either end. *)
Lemma floor_times_interval (u : draw) (n j : nat) :
  Z.of_nat n <= 2 ^ 53 ->
  (floor_times u n = j ->
     (inject_Z (Z.of_nat j) * (1 - eps) <= draw_value u * inject_Z (Z.of_nat n)
      /\ draw_value u * inject_Z (Z.of_nat n) < inject_Z (Z.of_nat j + 1))%Q)
  /\ ((inject_Z (Z.of_nat j) <= draw_value u * inject_Z (Z.of_nat n)
       /\ draw_value u * inject_Z (Z.of_nat n)
          < inject_Z (Z.of_nat j + 1) * (1 - eps))%Q ->
      floor_times u n = j).
Proof.
  intros Hn.
  destruct (draw_times_grid u (Z.of_nat n) ltac:(lia)) as (k & Hk & Hx & _).
  pose proof (fl_rel_grid _ k Hk Hx) as [_ Hup].
  pose proof (draw_times_nonneg u (Z.of_nat n) ltac:(lia)) as Hx0.
  pose proof (draw_times_le u (Z.of_nat n) ltac:(lia)) as Hxn.
  unfold floor_times, double_mul.
  set (x := (draw_value u * inject_Z (Z.of_nat n))%Q) in *.
  pose proof (fl_nonneg x Hx0) as Hy0.
  pose proof (Qfloor_ge_Z _ 0 Hy0) as HF0.
  pose proof eps_pos as He. pose proof eps_lt_1 as He1.
  split.
  - intros Hj.
    assert (HF : Qfloor (fl x) = Z.of_nat j) by lia.
    pose proof (Qfloor_le (fl x)) as Hlo. pose proof (Qlt_floor (fl x)) as Hhi.
    rewrite HF in Hlo, Hhi.
    assert (Hjn : Z.of_nat j + 1 <= 2 ^ 53).
    { destruct n as [|n'].
      - assert (x == 0)%Q as Hx00 by (unfold x; simpl; ring).
        rewrite (fl_comp _ _ Hx00), fl_0 in HF. simpl in HF.
        rewrite Z.div_1_r in HF. assert (1 < 2 ^ 53) by done. lia.
      - pose proof (floor_times_lt u (S n') ltac:(lia)) as Hlt.
        unfold floor_times, double_mul in Hlt. fold x in Hlt. lia. }
    split.
    + apply Qle_trans with (fl x * (1 - eps))%Q.
      * apply Qmult_le_compat_r; [done|Lqa.lra].
      * apply Qle_trans with (x * (1 + eps) * (1 - eps))%Q.
        -- apply Qmult_le_compat_r; [done|Lqa.lra].
        -- by apply one_minus_eps_sq.
    + apply fl_lt_Z; [lia|done].
  - intros [Hlo Hhi].
    assert (Hjn : Z.of_nat j <= 2 ^ 53).
    { rewrite Zle_Qle. apply Qle_trans with x; [done|].
      apply Qle_trans with (inject_Z (Z.of_nat n) * (1 - eps))%Q; [done|].
      apply Qle_trans with (inject_Z (Z.of_nat n)).
      - assert (0 <= inject_Z (Z.of_nat n))%Q
          by (change 0%Q with (inject_Z 0); rewrite <- Zle_Qle; lia).
        assert (0 <= inject_Z (Z.of_nat n) * eps)%Q
          by (apply Qmult_le_0_compat; Lqa.lra).
        Lqa.lra.
      - by rewrite <- Zle_Qle. }
    pose proof (fl_ge_Z x (Z.of_nat j) ltac:(lia) Hlo) as H1.
    assert (H2 : (fl x < inject_Z (Z.of_nat j + 1))%Q).
    { eapply Qle_lt_trans; [exact Hup|].
      apply Qlt_le_trans with (inject_Z (Z.of_nat j + 1) * (1 - eps) * (1 + eps))%Q.
      - apply Qmult_lt_r; [Lqa.lra|done].
      - assert (0 <= inject_Z (Z.of_nat j + 1))%Q
          by (change 0%Q with (inject_Z 0); rewrite <- Zle_Qle; lia).
        pose proof (one_minus_eps_sq _ H) as H3.
        assert (inject_Z (Z.of_nat j + 1) * (1 - eps) * (1 + eps)
                == inject_Z (Z.of_nat j + 1) * (1 + eps) * (1 - eps))%Q as ->
          by ring.
        done. }
    pose proof (Qfloor_ge_Z _ _ H1). pose proof (Qfloor_lt_Z _ _ H2). lia.
Qed.

Lemma floor_times_reached (j n : nat) :
  (j < n)%nat -> Z.of_nat n <= 2 ^ 52 -> floor_times (draw_for j n) n = j.
Proof.
  intros Hj Hn.
  assert (H52 : 2 ^ 53 = 2 * 2 ^ 52) by done.
  assert (Hp : 0 < 2 ^ 52) by done.
  apply floor_times_interval; [lia|].
  set (m := (Z.of_nat j * 2 ^ 53 + Z.of_nat n - 1) / Z.of_nat n).
  assert (Hm : Z.of_nat j * 2 ^ 53 <= m * Z.of_nat n
               <= Z.of_nat j * 2 ^ 53 + Z.of_nat n - 1).
  { pose proof (Z.div_mod (Z.of_nat j * 2 ^ 53 + Z.of_nat n - 1) (Z.of_nat n)
                  ltac:(lia)) as Hdm.
    pose proof (Z.mod_pos_bound (Z.of_nat j * 2 ^ 53 + Z.of_nat n - 1)
                  (Z.of_nat n) ltac:(lia)) as Hr.
    fold m in Hdm. lia. }
  assert (Hm0 : 0 <= m < 2 ^ 53) by nia.
  assert (Hv : (draw_value (draw_for j n) == m # 2 ^ 53)%Q).
  { unfold draw_value, significand, scale, draw_for. cbn [bits shift].
    fold m. change (53 + Z.of_N (N.min 0 1021)) with 53.
    rewrite Qdiv_pow2 by lia.
    rewrite N.mod_small.
    2:{ apply N2Z.inj_lt. rewrite Z2N.id, N2Z.inj_pow by lia.
        change (Z.of_N 2 ^ Z.of_N 53) with (2 ^ 53). lia. }
    rewrite Z2N.id by lia. reflexivity. }
  rewrite Hv.
  unfold eps, Qle, Qlt, Qmult, Qminus, Qplus, Qopp, inject_Z. simpl.
  rewrite !Pos2Z.inj_mul, !Pos2Z.inj_pow.
  change (Z.pos 2 ^ Z.pos 53) with (2 ^ 53).
  set (E := 2 ^ 53) in *. clearbody E. nia.
Qed.

(** The result of a rounding is a double. *)
Lemma round53_fits53 (a b : Z) : 0 <= a -> 0 < b -> fits53 (round53 a b).
Proof.
  intros Ha Hb. rewrite round53_unfold.
  pose proof (ulp_shift_nonneg a b) as Hs.
  pose proof (pow2_pos _ Hs) as Hp.
  set (s := ulp_shift a b) in *.
  assert (Hw : a / b < 2 ^ (53 + s)).
  { assert (0 <= a / b) by (apply Z.div_pos; lia).
    destruct (Z.eq_dec (a / b) 0) as [->|Hne]; [apply pow2_pos; lia|].
    apply Z.log2_lt_pow2; [lia|]. unfold s, ulp_shift. lia. }
  apply div_lt_pow in Hw; [|done].
  rewrite Z.pow_add_r in Hw by lia.
  assert (Hle : nearest_even a (b * 2 ^ s) <= 2 ^ 53)
    by (apply nearest_even_le; nia).
  assert (Hge : 0 <= nearest_even a (b * 2 ^ s))
    by (apply nearest_even_ge; nia).
  destruct (Z.eq_dec (nearest_even a (b * 2 ^ s)) (2 ^ 53)) as [->|Hne].
  - rewrite <- Z.pow_add_r by lia.
    replace (2 ^ (53 + s)) with (1 * 2 ^ (53 + s)) by lia.
    apply fits53_shift; lia.
  - apply fits53_shift; lia.
Qed.

Lemma double_fl (x : Q) : double (fl x).
Proof.
  destruct x as [n d]. rewrite fl_make. eexists. split; [|reflexivity].
  unfold sround. rewrite Z.abs_mul.
  pose proof (round53_nonneg (Z.abs n * Z.pos grid) (Z.pos d)
                ltac:(nia) ltac:(lia)) as H0.
  rewrite (Z.abs_eq (round53 _ _)) by done.
  destruct (Z.eq_dec n 0) as [->|Hne].
  - simpl. apply fits53_small. done.
  - replace (Z.abs (Z.sgn n)) with 1 by lia. rewrite Z.mul_1_l.
    apply round53_fits53; [nia|lia].
Qed.

(** A draw is a double of [[0,1)], and every double of [[0,1)] is the
    value of a draw. *)
Lemma draw_value_double (u : draw) :
  double (draw_value u) /\ (0 <= draw_value u < 1)%Q.
Proof.
  pose proof (significand_bound u) as Hm. pose proof (scale_bound u) as Hs.
  pose proof (pow2_pos (1074 - scale u) ltac:(lia)) as Hp.
  pose proof (pow2_pos (scale u) ltac:(lia)) as Hp'.
  assert (E : 2 ^ scale u * 2 ^ (1074 - scale u) = Z.pos grid).
  { rewrite grid_eq, <- Z.pow_add_r by lia. f_equal. lia. }
  split; [|split; [apply draw_value_nonneg|]].
  - exists (significand u * 2 ^ (1074 - scale u)). split.
    + rewrite Z.abs_eq by nia. apply fits53_shift; lia.
    + unfold draw_value. rewrite Qdiv_pow2 by lia.
      unfold Qeq. simpl. rewrite Z2Pos.id by done. rewrite <- E. ring.
  - unfold draw_value. rewrite Qdiv_pow2 by lia.
    unfold Qlt. simpl. rewrite Z2Pos.id by done.
    assert (2 ^ 53 <= 2 ^ scale u) by (apply Z.pow_le_mono_r; lia). lia.
Qed.

Lemma every_double_is_drawn (x : Q) :
  double x -> (0 <= x < 1)%Q -> exists u : draw, (draw_value u == x)%Q.
Proof.
  intros (k & Hk & Hx) [H0 H1]. rewrite Hx in H0, H1.
  unfold Qle, Qlt in H0, H1. simpl in H0, H1.
  rewrite Z.mul_1_r in H0, H1. rewrite grid_eq in H1.
  rewrite Z.abs_eq in Hk by done.
  assert (P53 : 0 < 2 ^ 53) by done.
  destruct (Z.lt_ge_cases k (2 ^ 53)) as [Hsmall|Hbig].
  - exists (mkDraw (Z.to_N k) 1021). rewrite Hx.
    unfold draw_value, significand, scale. cbn [bits shift].
    change (53 + Z.of_N (N.min 1021 1021)) with 1074.
    rewrite Qdiv_pow2 by lia. rewrite N.mod_small.
    2:{ apply N2Z.inj_lt. rewrite Z2N.id, N2Z.inj_pow by lia.
        change (Z.of_N 2 ^ Z.of_N 53) with (2 ^ 53). lia. }
    rewrite Z2N.id by lia. unfold Qeq. simpl. by rewrite grid_eq.
  - assert (Hk0 : 0 < k) by lia.
    set (L := Z.log2 k).
    assert (HL : 53 <= L < 1074).
    { split; [apply Z.log2_le_pow2; lia|apply Z.log2_lt_pow2; lia]. }
    destruct (Z.log2_spec k Hk0) as [Hlo Hhi]. fold L in Hlo, Hhi.
    unfold fits53 in Hk. fold L in Hk. rewrite Z.max_r in Hk by lia.
    destruct Hk as [m Hm].
    pose proof (pow2_pos (L - 52) ltac:(lia)) as Hp.
    assert (E1 : 2 ^ L = 2 ^ 52 * 2 ^ (L - 52))
      by (rewrite <- Z.pow_add_r by lia; f_equal; lia).
    assert (E2 : 2 ^ Z.succ L = 2 ^ 53 * 2 ^ (L - 52))
      by (rewrite <- Z.pow_add_r by lia; f_equal; lia).
    assert (Hmb : 0 <= m < 2 ^ 53) by nia.
    exists (mkDraw (Z.to_N m) (Z.to_N (1073 - L))). rewrite Hx.
    unfold draw_value, significand, scale. cbn [bits shift].
    rewrite N.min_l by lia. rewrite Z2N.id by lia.
    rewrite Qdiv_pow2 by lia. rewrite N.mod_small.
    2:{ apply N2Z.inj_lt. rewrite Z2N.id, N2Z.inj_pow by lia.
        change (Z.of_N 2 ^ Z.of_N 53) with (2 ^ 53). lia. }
    rewrite Z2N.id by lia. unfold Qeq. simpl.
    rewrite Z2Pos.id by (apply pow2_pos; lia). rewrite grid_eq, Hm.
    replace 1074 with (L - 52 + (53 + (1073 - L))) by lia.
    rewrite Z.pow_add_r by lia. ring.
Qed.

End rounding.

#[local] Existing Instance fl_proper.

(** Known values: the doubles of 0.1 and 0.6, the product
    [0.6666666666666666 * 3 = 2] whose exact value is below 2, the sum
    [0.3 + 0.7 = 1], the ties [2^53 + 1] and [2^53 + 3] going to the even
    significand, and a value below the least positive double [2^-1074]. *)
Lemma fl_known_values :
  (fl (1 # 10) == 3602879701896397 # 2 ^ 55
   /\ fl (6 # 10) == 5404319552844595 # 2 ^ 53
   /\ double_mul (fl (6666666666666666 # 10 ^ 16)) 3 == 2
   /\ double_add (fl (3 # 10)) (fl (7 # 10)) == 1
   /\ fl (inject_Z (2 ^ 53 + 1)) == inject_Z (2 ^ 53)
   /\ fl (inject_Z (2 ^ 53 + 3)) == inject_Z (2 ^ 53 + 4)
   /\ fl (2 # 3 * 2 ^ 1074) == 1 # 2 ^ 1074
   /\ fl (1 # 3 * 2 ^ 1074) == 0)%Q.
Proof. repeat split; vm_compute; reflexivity. Qed.

(** ** Exchanging two elements *)

Lemma transpose_involutive i j n : transpose i j (transpose i j n) = n.
Proof. unfold transpose. repeat case_decide; congruence. Qed.

#[local] Instance transpose_inj i j : Inj eq eq (transpose i j).
Proof.
  intros a b Hab. rewrite <- (transpose_involutive i j a), Hab.
  apply transpose_involutive.
Qed.

Section swap_facts.
Context {A : Type}.
Implicit Types a : list A.

Lemma length_swap a i j : length (swap a i j) = length a.
Proof.
  unfold swap. destruct (a !! i), (a !! j); trivial.
  by rewrite !length_insert.
Qed.

Lemma swap_lookup a i j n :
  i < length a -> j < length a -> swap a i j !! n = a !! transpose i j n.
Proof.
  intros Hi Hj. unfold swap, transpose.
  destruct (lookup_lt_is_Some_2 a i Hi) as [x Hx].
  destruct (lookup_lt_is_Some_2 a j Hj) as [y Hy].
  rewrite Hx, Hy.
  rewrite list_lookup_insert, length_insert.
  destruct (decide (j = n ∧ j < length a)) as [[-> _]|Hn].
  - case_decide; [congruence|]. by rewrite decide_True.
  - rewrite list_lookup_insert.
    destruct (decide (i = n ∧ i < length a)) as [[-> _]|Hn'].
    + by rewrite decide_True.
    + rewrite !decide_False; [done | intros ->; tauto | intros ->; tauto].
Qed.

Lemma swap_Permutation a i j : swap a i j ≡ₚ a.
Proof.
  destruct (decide (i < length a ∧ j < length a)) as [[Hi Hj]|Hn].
  - apply Permutation_inj. split; [apply length_swap|].
    exists (transpose i j). split; [apply _|].
    intros n. by apply swap_lookup.
  - unfold swap.
    destruct (a !! i) eqn:Ei; [|done].
    destruct (a !! j) eqn:Ej; [|done].
    apply lookup_lt_Some in Ei, Ej. tauto.
Qed.

Lemma swap_fmap {B} (f : A -> B) a i j :
  f <$> swap a i j = swap (f <$> a) i j.
Proof.
  unfold swap. rewrite !list_lookup_fmap.
  destruct (a !! i), (a !! j); simpl; trivial.
  by rewrite !list_fmap_insert.
Qed.
End swap_facts.

(** ** Card order *)

Lemma order_Full (deck : list Card) : order (Full <$> deck) = card_order deck.
Proof. unfold order, card_order. by rewrite <- list_fmap_compose. Qed.

Lemma face_restamp index h c : face (restamp index h c) = face c.
Proof. done. Qed.

Lemma card_order_restamp (h : nat -> bool) (deck : list Card) :
  card_order (imap (fun index card => restamp index (h index) card) deck)
  = card_order deck.
Proof.
  unfold card_order. rewrite fmap_imap. rewrite <- imap_const.
  by apply imap_ext.
Qed.

Lemma id_restamp (deck : list Card) :
  id <$> imap (fun index card => restamp index false card) deck = id <$> deck.
Proof. rewrite fmap_imap. rewrite <- imap_const. by apply imap_ext. Qed.

Lemma slot_face_stamp index h s : slot_face (stamp_slot index h s) = slot_face s.
Proof. by destruct s. Qed.

Lemma order_spread (deck : list slot) : order (js_spread deck) = order deck.
Proof.
  unfold order, js_spread. rewrite <- list_fmap_compose.
  apply list_fmap_ext. by intros _ [] _.
Qed.

Lemma order_stamp (h : nat -> bool) (deck : list slot) :
  order (imap (fun index s => stamp_slot index (h index) s) deck) = order deck.
Proof.
  unfold order. rewrite fmap_imap. rewrite <- imap_const.
  apply imap_ext. intros. apply slot_face_stamp.
Qed.

Lemma slot_face_read (deck : list slot) (i : nat) x :
  order deck !! i = Some x -> slot_face (js_read deck i) = x.
Proof.
  unfold order, js_read. rewrite list_lookup_fmap.
  destruct (deck !! i) as [[]|]; simpl; congruence.
Qed.

Lemma js_write_inside (deck : list slot) (i : nat) v :
  i < length deck -> js_write deck i v = <[i := v]> deck.
Proof.
  intros Hi. unfold js_write.
  destruct (i <? length deck) eqn:E; [done|].
  apply Nat.ltb_ge in E. lia.
Qed.

Lemma applyShuffleStep_keeps_order (deck : list slot) (step : ShuffleStep) :
  is_exchange step = false -> order (applyShuffleStep deck step) = order deck.
Proof.
  unfold is_exchange, applyShuffleStep. intros Hx.
  rewrite (order_stamp (fun index => bool_decide (index ∈ cardIndices step))).
  destruct (action step); try apply order_spread.
  destruct (cardIndices step) as [|? [|? [|? ?]]];
    try apply order_spread; discriminate.
Qed.

(** A two-index swap inside the array exchanges the two elements. *)
Lemma applyShuffleStep_swaps (deck : list slot) (step : ShuffleStep) i j :
  action step = act_swap -> cardIndices step = [i; j] ->
  i < length deck -> j < length deck ->
  order (applyShuffleStep deck step) = swap (order deck) i j.
Proof.
  intros Ha Hc Hi Hj. unfold applyShuffleStep. rewrite Ha, Hc.
  rewrite (order_stamp (fun index => bool_decide (index ∈ [i; j]))).
  assert (Hlen : length (js_spread deck) = length deck)
    by (unfold js_spread; apply length_fmap).
  rewrite (js_write_inside (js_spread deck) i) by lia.
  rewrite js_write_inside by (rewrite length_insert; lia).
  unfold order at 1. rewrite !list_fmap_insert.
  fold (order (js_spread deck)).
  assert (Hio : is_Some (order deck !! i))
    by (apply lookup_lt_is_Some_2; unfold order; rewrite length_fmap; lia).
  assert (Hjo : is_Some (order deck !! j))
    by (apply lookup_lt_is_Some_2; unfold order; rewrite length_fmap; lia).
  destruct Hio as [x Hx], Hjo as [y Hy].
  rewrite (slot_face_read _ i x), (slot_face_read _ j y)
    by (by rewrite order_spread).
  rewrite order_spread. unfold swap. by rewrite Hx, Hy.
Qed.

Lemma replay_keeps_order (steps : list ShuffleStep) (deck : list slot) :
  Forall (fun step => is_exchange step = false) steps ->
  order (replay steps deck) = order deck.
Proof.
  unfold replay. revert deck.
  induction steps as [|step steps IH]; intros deck Hall; [done|].
  inversion Hall; subst. simpl. rewrite IH by done.
  by apply applyShuffleStep_keeps_order.
Qed.

Lemma replay_snoc (steps : list ShuffleStep) step (deck : list slot) :
  replay (steps ++ [step]) deck = applyShuffleStep (replay steps deck) step.
Proof. unfold replay. apply foldl_snoc. Qed.

(** ** Fisher-Yates: the recorder against the bulk loop *)

Lemma fisherYates_loop_length rng k i (deck : list Card) :
  length (fisherYates_loop rng k i deck) = length deck.
Proof.
  revert k deck. induction i as [|i IH]; intros k deck; [done|].
  simpl. by rewrite IH, length_swap.
Qed.

Lemma fisherYates_replay_loop rng i : forall k (w : list Card) acc (d0 : list slot),
  i < length w ->
  order (replay acc d0) = card_order w ->
  order (replay (fisherYatesSteps_loop rng k i w acc) d0)
  = card_order (fisherYates_loop rng k i w).
Proof.
  induction i as [|i IH]; intros k w acc d0 Hi Hrel; [done|].
  cbn [fisherYatesSteps_loop fisherYates_loop].
  apply IH; [rewrite length_swap; lia|].
  rewrite replay_snoc.
  assert (Hlen : length (replay acc d0) = length w).
  { apply (f_equal length) in Hrel. unfold order, card_order in Hrel.
    by rewrite !length_fmap in Hrel. }
  assert (Hj : floor_times (rng k) (S i + 1) < length w).
  { pose proof (floor_times_lt (rng k) (S i + 1)). lia. }
  erewrite applyShuffleStep_swaps; [|done|done|lia|lia].
  rewrite Hrel. unfold card_order. by rewrite swap_fmap.
Qed.

Lemma fisherYates_replay rng (deck : list Card) :
  order (replay (fisherYatesShuffleSteps rng deck) (Full <$> deck))
  = card_order (fisherYatesShuffle rng deck).
Proof.
  unfold fisherYatesShuffleSteps, fisherYatesShuffle.
  rewrite (card_order_restamp (fun _ => false)).
  destruct deck as [|c deck]; [done|].
  apply fisherYates_replay_loop; [simpl; lia|].
  apply order_Full.
Qed.

(** ** The three [while] loops *)

Lemma takeFromLeft_left rng k L R li ri k' :
  takeFromLeft rng k L R li ri = (true, k') -> li < length L.
Proof.
  unfold takeFromLeft. destruct (li <? length L) eqn:E; [|discriminate].
  intros _. by apply Nat.ltb_lt.
Qed.

Lemma takeFromLeft_right rng k L R li ri k' :
  takeFromLeft rng k L R li ri = (false, k') ->
  (li <? length L) || (ri <? length R) = true -> ri < length R.
Proof.
  unfold takeFromLeft. destruct (li <? length L) eqn:E; simpl.
  - destruct (length R <=? ri) eqn:E'; [discriminate|].
    intros _ _. apply Nat.leb_gt in E'. lia.
  - intros _. apply Nat.ltb_lt.
Qed.

Lemma riffle_loop_interleaves rng (L R : list Card) :
  forall fuel k li ri result,
  (length L - li) + (length R - ri) <= fuel ->
  exists out, riffle_loop fuel rng k L R li ri result = Some out
    /\ out ≡ₚ result ++ drop li L ++ drop ri R.
Proof.
  induction fuel as [|fuel IH]; intros k li ri result Hfuel.
  - exists result. simpl.
    destruct (li <? length L) eqn:E1; [apply Nat.ltb_lt in E1; lia|].
    destruct (ri <? length R) eqn:E2; [apply Nat.ltb_lt in E2; lia|].
    apply Nat.ltb_ge in E1, E2. simpl.
    rewrite !drop_ge by lia. by rewrite !app_nil_r.
  - cbn [riffle_loop].
    destruct ((li <? length L) || (ri <? length R)) eqn:Hcond.
    + destruct (takeFromLeft rng k L R li ri) as [[|] k'] eqn:Htake.
      * pose proof (takeFromLeft_left _ _ _ _ _ _ _ Htake) as Hli.
        destruct (lookup_lt_is_Some_2 L li Hli) as [c Hc]. rewrite Hc. simpl.
        destruct (IH k' (li + 1) ri (result ++ [c])) as (out & -> & Hout);
          [lia|].
        exists out. split; [done|]. rewrite Hout.
        rewrite (drop_S L c li Hc), Nat.add_1_r. by rewrite <- app_assoc.
      * pose proof (takeFromLeft_right _ _ _ _ _ _ _ Htake Hcond) as Hri.
        destruct (lookup_lt_is_Some_2 R ri Hri) as [c Hc]. rewrite Hc. simpl.
        destruct (IH k' li (ri + 1) (result ++ [c])) as (out & -> & Hout);
          [lia|].
        exists out. split; [done|]. rewrite Hout.
        rewrite (drop_S R c ri Hc), Nat.add_1_r.
        rewrite <- app_assoc. apply Permutation_app_head. simpl.
        by rewrite <- Permutation_middle.
    + exists result. split; [done|].
      apply orb_false_iff in Hcond as [E1 E2].
      apply Nat.ltb_ge in E1, E2.
      rewrite !drop_ge by lia. by rewrite !app_nil_r.
Qed.

Lemma riffleSteps_loop_moves rng sp (L R : list Card) :
  forall fuel k li ri result cnt acc,
  (length L - li) + (length R - ri) <= fuel ->
  Forall (fun step => is_exchange step = false) acc ->
  exists st, riffleSteps_loop fuel rng k sp L R li ri result cnt acc = Some st
    /\ Forall (fun step => is_exchange step = false) st.
Proof.
  induction fuel as [|fuel IH]; intros k li ri result cnt acc Hfuel Hacc.
  - exists acc. simpl.
    destruct (li <? length L) eqn:E1; [apply Nat.ltb_lt in E1; lia|].
    destruct (ri <? length R) eqn:E2; [apply Nat.ltb_lt in E2; lia|].
    done.
  - cbn [riffleSteps_loop].
    destruct ((li <? length L) || (ri <? length R)) eqn:Hcond;
      [|by exists acc].
    destruct (takeFromLeft rng k L R li ri) as [[|] k'] eqn:Htake.
    + pose proof (takeFromLeft_left _ _ _ _ _ _ _ Htake) as Hli.
      destruct (lookup_lt_is_Some_2 L li Hli) as [c Hc]. rewrite Hc. simpl.
      apply IH; [lia|]. apply Forall_app. split; [done|].
      by apply Forall_singleton.
    + pose proof (takeFromLeft_right _ _ _ _ _ _ _ Htake Hcond) as Hri.
      destruct (lookup_lt_is_Some_2 R ri Hri) as [c Hc]. rewrite Hc. simpl.
      apply IH; [lia|]. apply Forall_app. split; [done|].
      by apply Forall_singleton.
Qed.

Lemma overhand_loop_regroups rng :
  forall fuel k (w result : list Card),
  length w <= fuel ->
  exists out, overhand_loop fuel rng k w result = Some out
    /\ out ≡ₚ w ++ result.
Proof.
  induction fuel as [|fuel IH]; intros k w result Hfuel.
  - destruct w; [by exists result | simpl in Hfuel; lia].
  - cbn [overhand_loop]. destruct w as [|c w]; [by exists result|].
    set (g := Nat.min _ _).
    change (0 <? length (c :: w)) with true. cbv iota.
    destruct (IH (S k) (drop g (c :: w)) (take g (c :: w) ++ result))
      as (out & -> & Hout).
    { rewrite length_drop. subst g. cbn [length] in *. lia. }
    exists out. split; [done|]. rewrite Hout.
    rewrite app_assoc. apply Permutation_app_tail.
    rewrite Permutation_app_comm. by rewrite take_drop.
Qed.

Lemma overhandSteps_loop_moves rng :
  forall fuel k (w result : list Card) cnt acc,
  length w <= fuel ->
  Forall (fun step => is_exchange step = false) acc ->
  exists st, overhandSteps_loop fuel rng k w result cnt acc = Some st
    /\ Forall (fun step => is_exchange step = false) st.
Proof.
  induction fuel as [|fuel IH]; intros k w result cnt acc Hfuel Hacc.
  - destruct w; [by exists acc | simpl in Hfuel; lia].
  - cbn [overhandSteps_loop]. destruct w as [|c w]; [by exists acc|].
    set (g := Nat.min _ _).
    change (0 <? length (c :: w)) with true. cbv iota.
    apply IH.
    + rewrite length_drop. subst g. cbn [length] in *. lia.
    + apply Forall_app. split; [done|]. by apply Forall_singleton.
Qed.

Lemma hindu_loop_regroups rng :
  forall fuel k (w result : list Card),
  length w <= fuel ->
  exists out, hindu_loop fuel rng k w result = Some out
    /\ out ≡ₚ w ++ result.
Proof.
  induction fuel as [|fuel IH]; intros k w result Hfuel.
  - destruct w; [by exists result | simpl in Hfuel; lia].
  - cbn [hindu_loop]. destruct w as [|c w]; [by exists result|].
    set (p := Nat.min _ _).
    change (0 <? length (c :: w)) with true. cbv iota.
    set (n := length (c :: w) - p).
    destruct (IH (S k) (take n (c :: w)) (result ++ drop n (c :: w)))
      as (out & -> & Hout).
    { rewrite length_take. subst n p. cbn [length] in *. lia. }
    exists out. split; [done|]. rewrite Hout.
    rewrite <- (take_drop n (c :: w)) at 3.
    rewrite <- app_assoc. apply Permutation_app_head.
    apply Permutation_app_comm.
Qed.

Lemma hinduSteps_loop_moves rng :
  forall fuel k (w result : list Card) cnt acc,
  length w <= fuel ->
  Forall (fun step => is_exchange step = false) acc ->
  exists st, hinduSteps_loop fuel rng k w result cnt acc = Some st
    /\ Forall (fun step => is_exchange step = false) st.
Proof.
  induction fuel as [|fuel IH]; intros k w result cnt acc Hfuel Hacc.
  - destruct w; [by exists acc | simpl in Hfuel; lia].
  - cbn [hinduSteps_loop]. destruct w as [|c w]; [by exists acc|].
    set (p := Nat.min _ _).
    change (0 <? length (c :: w)) with true. cbv iota.
    apply IH.
    + rewrite length_take. subst p. cbn [length] in *. lia.
    + apply Forall_app. split; [done|]. by apply Forall_singleton.
Qed.

Lemma riffle_halves_length sp (deck : list Card) :
  length (take sp deck) - 0 + (length (drop sp deck) - 0) = length deck.
Proof. rewrite length_take, length_drop. lia. Qed.

(** ** The bulk shuffles permute their input *)

Lemma permutes_restamp (deck result : list Card) :
  result ≡ₚ deck ->
  permutes deck (imap (fun index card => restamp index false card) result).
Proof.
  intros Hp. split.
  - rewrite length_imap. by apply Permutation_length.
  - rewrite id_restamp. by apply fmap_Permutation.
Qed.

Lemma fisherYates_loop_Permutation rng i : forall k (deck : list Card),
  fisherYates_loop rng k i deck ≡ₚ deck.
Proof.
  induction i as [|i IH]; intros k deck; [done|].
  cbn [fisherYates_loop]. rewrite IH. apply swap_Permutation.
Qed.

(** C2.  Each of the four bulk shuffles returns, for every trace of draws, a
    sequence of the length of its input whose card ids are a permutation of
    the ids of the input; the three shuffles written with a [while] loop
    finish within [length deck] iterations.  (The statement holds for the
    empty deck as well.) *)
Theorem bulk_shuffles_permute (rng : source) (deck : list Card) (fuel : nat) :
  length deck <= fuel ->
  permutes deck (fisherYatesShuffle rng deck)
  /\ (exists out, riffleShuffle fuel rng deck = Some out /\ permutes deck out)
  /\ (exists out, overhandShuffle fuel rng deck = Some out /\ permutes deck out)
  /\ (exists out, hinduShuffle fuel rng deck = Some out /\ permutes deck out).
Proof.
  intros Hfuel. repeat split.
  - apply (permutes_restamp deck). apply fisherYates_loop_Permutation.
  - apply (permutes_restamp deck). apply fisherYates_loop_Permutation.
  - unfold riffleShuffle.
    set (sp := riffle_splitPoint rng (length deck)).
    destruct (riffle_loop_interleaves rng (take sp deck) (drop sp deck)
                fuel 1 0 0 []) as (out & -> & Hout).
    { rewrite riffle_halves_length. lia. }
    eexists. split; [reflexivity|]. apply permutes_restamp.
    rewrite Hout. rewrite app_nil_l, !drop_0. by rewrite take_drop.
  - unfold overhandShuffle.
    destruct (overhand_loop_regroups rng fuel 0 deck [] Hfuel)
      as (out & -> & Hout).
    eexists. split; [reflexivity|]. apply permutes_restamp.
    by rewrite Hout, app_nil_r.
  - unfold hinduShuffle.
    destruct (hindu_loop_regroups rng fuel 0 deck [] Hfuel)
      as (out & -> & Hout).
    eexists. split; [reflexivity|]. apply permutes_restamp.
    by rewrite Hout, app_nil_r.
Qed.

Lemma bulk_shuffles_permute_witness :
  length [card_a; card_b; card_c] <= 3
  /\ permutes [card_a; card_b; card_c]
       (fisherYatesShuffle rising [card_a; card_b; card_c])
  /\ (exists out, riffleShuffle 3 rising [card_a; card_b; card_c] = Some out
        /\ permutes [card_a; card_b; card_c] out)
  /\ (exists out, overhandShuffle 3 rising [card_a; card_b; card_c] = Some out
        /\ permutes [card_a; card_b; card_c] out)
  /\ (exists out, hinduShuffle 3 rising [card_a; card_b; card_c] = Some out
        /\ permutes [card_a; card_b; card_c] out).
Proof.
  split; [simpl; lia|].
  apply (bulk_shuffles_permute rising [card_a; card_b; card_c] 3).
  simpl; lia.
Defined.

(** ** Replaying the recorded steps *)

(** On the deck [a, b] with every draw 0.5 the riffle puts [b] first, and
    the replay of its records leaves [a] first.  The same holds of the
    overhand and of the Hindu shuffle when the first draw is 0. *)
Lemma riffle_replay_differs :
  (exists st out,
      riffleShuffleSteps 2 always_half [card_a; card_b] = Some st
      /\ riffleShuffle 2 always_half [card_a; card_b] = Some out
      /\ order (replay st (Full <$> [card_a; card_b])) <> card_order out)
  /\ (exists st out,
        overhandShuffleSteps 2 rising [card_a; card_b] = Some st
        /\ overhandShuffle 2 rising [card_a; card_b] = Some out
        /\ order (replay st (Full <$> [card_a; card_b])) <> card_order out)
  /\ (exists st out,
        hinduShuffleSteps 2 rising [card_a; card_b] = Some st
        /\ hinduShuffle 2 rising [card_a; card_b] = Some out
        /\ order (replay st (Full <$> [card_a; card_b])) <> card_order out).
Proof.
  split; [|split]; eexists; eexists;
    (split; [vm_compute; reflexivity|]);
    (split; [vm_compute; reflexivity|]);
    vm_compute; discriminate.
Qed.

(** C1, amended.  Replaying the records of [fisherYatesShuffleSteps] from
    the original deck gives the card order of [fisherYatesShuffle] under the
    same draws.  The records of the riffle, overhand and Hindu recorders are
    [split] and [move] records, which [applyShuffleStep] only highlights:
    their replay leaves the card order of the original deck as it was. *)
Theorem replay_of_recorded_steps (rng : source) (deck : list Card) (fuel : nat) :
  length deck <= fuel ->
  order (replay (fisherYatesShuffleSteps rng deck) (Full <$> deck))
    = card_order (fisherYatesShuffle rng deck)
  /\ (exists st, riffleShuffleSteps fuel rng deck = Some st
        /\ order (replay st (Full <$> deck)) = card_order deck)
  /\ (exists st, overhandShuffleSteps fuel rng deck = Some st
        /\ order (replay st (Full <$> deck)) = card_order deck)
  /\ (exists st, hinduShuffleSteps fuel rng deck = Some st
        /\ order (replay st (Full <$> deck)) = card_order deck).
Proof.
  intros Hfuel. split; [apply fisherYates_replay|].
  split; [|split].
  - unfold riffleShuffleSteps.
    set (sp := riffle_splitPoint rng (length deck)).
    match goal with
    | |- context [riffleSteps_loop _ _ _ _ _ _ _ _ _ _ [?s]] =>
        destruct (riffleSteps_loop_moves rng sp (take sp deck) (drop sp deck)
                    fuel 1 0 0 [] 2 [s]) as (st & -> & Hst)
    end.
    { rewrite riffle_halves_length. lia. }
    { by apply Forall_singleton. }
    exists st. split; [done|].
    rewrite replay_keeps_order by done. apply order_Full.
  - unfold overhandShuffleSteps.
    destruct (overhandSteps_loop_moves rng fuel 0 deck [] 1 [] Hfuel)
      as (st & -> & Hst); [done|].
    exists st. split; [done|].
    rewrite replay_keeps_order by done. apply order_Full.
  - unfold hinduShuffleSteps.
    destruct (hinduSteps_loop_moves rng fuel 0 deck [] 1 [] Hfuel)
      as (st & -> & Hst); [done|].
    exists st. split; [done|].
    rewrite replay_keeps_order by done. apply order_Full.
Qed.

Lemma replay_of_recorded_steps_witness :
  length [card_a; card_b] <= 2
  /\ order (replay (fisherYatesShuffleSteps always_half [card_a; card_b])
              (Full <$> [card_a; card_b]))
     = card_order (fisherYatesShuffle always_half [card_a; card_b])
  /\ (exists st, riffleShuffleSteps 2 always_half [card_a; card_b] = Some st
        /\ order (replay st (Full <$> [card_a; card_b]))
           = card_order [card_a; card_b])
  /\ (exists st, overhandShuffleSteps 2 always_half [card_a; card_b] = Some st
        /\ order (replay st (Full <$> [card_a; card_b]))
           = card_order [card_a; card_b])
  /\ (exists st, hinduShuffleSteps 2 always_half [card_a; card_b] = Some st
        /\ order (replay st (Full <$> [card_a; card_b]))
           = card_order [card_a; card_b]).
Proof.
  split; [simpl; lia|].
  apply (replay_of_recorded_steps always_half [card_a; card_b] 2).
  simpl; lia.
Defined.

(** ** One step applied to a well-typed deck *)

Lemma js_spread_Full (deck : list Card) : js_spread (Full <$> deck) = Full <$> deck.
Proof. unfold js_spread. by rewrite <- list_fmap_compose. Qed.

Lemma js_read_Full (deck : list Card) i c :
  deck !! i = Some c -> js_read (Full <$> deck) i = Full c.
Proof. intros H. unfold js_read. by rewrite list_lookup_fmap, H. Qed.

Lemma stamp_Full (h : nat -> bool) (deck : list Card) :
  imap (fun index s => stamp_slot index (h index) s) (Full <$> deck)
  = Full <$> imap (fun index card => restamp index (h index) card) deck.
Proof. rewrite imap_fmap, fmap_imap. by apply imap_ext. Qed.

Lemma applyShuffleStep_Full (deck : list Card) (step : ShuffleStep) :
  Forall (fun i => i < length deck) (cardIndices step) ->
  applyShuffleStep (Full <$> deck) step
  = Full <$> imap (fun index card =>
                     restamp index (bool_decide (index ∈ cardIndices step)) card)
               (reordered deck step).
Proof.
  intros Hin. unfold applyShuffleStep, reordered. rewrite js_spread_Full.
  set (h := fun index => bool_decide (index ∈ cardIndices step)).
  destruct (action step); try apply (stamp_Full h).
  destruct (cardIndices step) as [|i [|j [|? ?]]] eqn:Hc;
    try apply (stamp_Full h).
  apply Forall_cons in Hin as [Hi Hin]. apply Forall_cons in Hin as [Hj _].
  destruct (lookup_lt_is_Some_2 deck i Hi) as [x Hx].
  destruct (lookup_lt_is_Some_2 deck j Hj) as [y Hy].
  rewrite (js_read_Full deck i x Hx), (js_read_Full deck j y Hy).
  rewrite (js_write_inside _ i) by (rewrite length_fmap; lia).
  rewrite js_write_inside by (rewrite length_insert, length_fmap; lia).
  rewrite <- !list_fmap_insert.
  unfold swap. rewrite Hx, Hy. apply (stamp_Full h).
Qed.

(** C9.  For a deck and a step whose indices are inside the deck,
    [applyShuffleStep] returns a deck of cards of the same length in which
    the card at index [i] is highlighted exactly when [i] is one of the
    step's [cardIndices] and has [position = i]; a [swap] step with exactly
    two indices exchanges the cards at these two indices (every other card
    stays), and any other step keeps the cards in their order. *)
Theorem applyShuffleStep_in_range (deck : list Card) (step : ShuffleStep) :
  Forall (fun i => i < length deck) (cardIndices step) ->
  exists out : list Card,
    applyShuffleStep (Full <$> deck) step = Full <$> out
    /\ length out = length deck
    /\ (forall i c, out !! i = Some c ->
          (isHighlighted c = true <-> i ∈ cardIndices step) /\ position c = i)
    /\ (forall i1 i2,
          action step = act_swap -> cardIndices step = [i1; i2] ->
          forall n, face <$> out !! n = face <$> deck !! transpose i1 i2 n)
    /\ (is_exchange step = false -> face <$> out = face <$> deck).
Proof.
  intros Hin. eexists. split; [by apply applyShuffleStep_Full|].
  assert (Hfaces : forall l : list Card,
    face <$> imap (fun index card =>
      restamp index (bool_decide (index ∈ cardIndices step)) card) l
    = face <$> l).
  { intros l. rewrite fmap_imap, <- imap_const. by apply imap_ext. }
  split; [|split; [|split]].
  - rewrite length_imap. unfold reordered.
    destruct (action step); trivial.
    destruct (cardIndices step) as [|? [|? [|? ?]]]; trivial.
    apply length_swap.
  - intros i c Hic. rewrite list_lookup_imap in Hic.
    destruct (reordered deck step !! i) as [c0|]; [|discriminate].
    injection Hic as <-. simpl. split; [|done].
    apply bool_decide_eq_true.
  - intros i1 i2 Ha Hc n.
    rewrite <- !list_lookup_fmap, Hfaces. unfold reordered. rewrite Ha, Hc.
    rewrite Hc in Hin.
    apply Forall_cons in Hin as [Hi Hin]. apply Forall_cons in Hin as [Hj _].
    rewrite swap_fmap. apply swap_lookup; by rewrite length_fmap.
  - intros Hx. rewrite Hfaces. unfold reordered, is_exchange in *.
    destruct (action step); trivial.
    by destruct (cardIndices step) as [|? [|? [|? ?]]].
Qed.

Lemma applyShuffleStep_in_range_witness :
  exists out : list Card,
    applyShuffleStep (Full <$> [card_a; card_b; card_c]) swap_0_2 = Full <$> out
    /\ length out = 3
    /\ (forall i c, out !! i = Some c ->
          (isHighlighted c = true <-> i ∈ [2; 0]) /\ position c = i)
    /\ (forall i1 i2,
          action swap_0_2 = act_swap -> cardIndices swap_0_2 = [i1; i2] ->
          forall n, face <$> out !! n
                    = face <$> [card_a; card_b; card_c] !! transpose i1 i2 n)
    /\ (is_exchange swap_0_2 = false ->
        face <$> out = face <$> [card_a; card_b; card_c]).
Proof.
  apply (applyShuffleStep_in_range [card_a; card_b; card_c] swap_0_2).
  simpl. repeat constructor.
Defined.

(** ** Invalid input *)

(** None of the functions of [deckUtils.ts] has a [throw], and none of their
    accesses raises: a read past the end of an array gives [undefined],
    spreading [undefined] into an object gives an object, and a store past
    the end extends the array.  So an invalid input gets a value, and the
    statements below say which. *)

(** An empty deck, a name that is not in the table and a record with an
    index outside the deck: each call returns, and the last one returns an
    array with an object without a card, three holes and the first card
    at index 5. *)
Lemma invalid_input_is_accepted :
  ~ known_name "Bogo Sort"
  /\ ~ inside (Full <$> [card_a; card_b]) swap_0_5
  /\ fisherYatesShuffle always_half [] = []
  /\ riffleShuffleSteps 1 always_half []
     = Some [ {| description :=
                   "Step 1: Split deck at position 1 (0 cards left, 0 cards right)";
                 cardIndices := []; action := act_split;
                 fromPositions := []; toPositions := [] |} ]
  /\ getAlgorithmByName "Bogo Sort" = None
  /\ applyShuffleStep (Full <$> [card_a; card_b]) swap_0_5
     = [Blank 0 true; Full (restamp 1 false card_b); Hole; Hole; Hole;
        Full (restamp 5 true card_a)].
Proof.
  split; [|split; [|repeat split; reflexivity]].
  - unfold known_name. simpl. intros H.
    repeat (apply elem_of_cons in H as [H|H]; [discriminate|]).
    by apply elem_of_nil in H.
  - unfold inside. simpl. intros H.
    apply Forall_cons in H as [_ H]. apply Forall_cons in H as [H _]. lia.
Qed.

Lemma js_write_outside (deck : list slot) (i : nat) v :
  length deck <= i ->
  js_write deck i v
  = deck ++ (if is_array_index i
             then replicate (i - length deck) Hole ++ [v] else []).
Proof.
  intros Hi. unfold js_write.
  destruct (i <? length deck) eqn:E.
  - apply Nat.ltb_lt in E. lia.
  - destruct (is_array_index i); [done|by rewrite app_nil_r].
Qed.

Lemma getAlgorithmByName_unknown (n : string) :
  ~ known_name n -> getAlgorithmByName n = None.
Proof.
  unfold known_name, getAlgorithmByName. intros Hn.
  destruct (List.find _ _) as [algo|] eqn:Hf; [|done].
  apply List.find_some in Hf as [Hin Heq].
  apply String.eqb_eq in Heq. subst n.
  exfalso. apply Hn. apply list_elem_of_In, List.in_map, Hin.
Qed.

(** C8, amended.  Invalid input is not rejected.  On the empty deck the four
    shuffles return the empty deck and the four recorders return their
    records (none, or the one [split] record of the riffle); a name that is
    not in the table makes [getAlgorithmByName] return [undefined]; a swap
    record whose first index is inside the deck and whose second index is
    past its end makes [applyShuffleStep] return the deck with an object
    without a card at the first index, followed, when the second index is
    an array index, by holes up to that index and by the card of the first
    index there; when it is no array index the array is no longer and the
    card is lost. *)
Theorem invalid_input_is_not_rejected (rng : source) (fuel : nat) (n : string)
    (deck : list Card) (step : ShuffleStep) (i1 i2 : nat) :
  ~ known_name n ->
  action step = act_swap -> cardIndices step = [i1; i2] ->
  i1 < length deck <= i2 ->
  (fisherYatesShuffle rng [] = []
   /\ riffleShuffle fuel rng [] = Some []
   /\ overhandShuffle fuel rng [] = Some []
   /\ hinduShuffle fuel rng [] = Some [])
  /\ (fisherYatesShuffleSteps rng [] = []
      /\ (exists split, riffleShuffleSteps fuel rng [] = Some [split]
            /\ action split = act_split /\ cardIndices split = [])
      /\ overhandShuffleSteps fuel rng [] = Some []
      /\ hinduShuffleSteps fuel rng [] = Some [])
  /\ getAlgorithmByName n = None
  /\ (exists c, deck !! i1 = Some c
        /\ applyShuffleStep (Full <$> deck) step
           = <[i1 := Blank i1 true]> (Full <$> resetDeck deck)
             ++ (if is_array_index i2
                 then replicate (i2 - length deck) Hole
                      ++ [Full (restamp i2 true c)]
                 else [])).
Proof.
  intros Hn Ha Hc [Hi1 Hi2].
  split; [|split; [|split]].
  - split; [done|]. split; [|split; by destruct fuel].
    unfold riffleShuffle. rewrite take_nil, drop_nil. by destruct fuel.
  - split; [done|]. split; [|split; by destruct fuel].
    unfold riffleShuffleSteps. rewrite take_nil, drop_nil.
    eexists. split; [by destruct fuel|]. done.
  - by apply getAlgorithmByName_unknown.
  - destruct (lookup_lt_is_Some_2 deck i1 Hi1) as [c Hx]. exists c.
    split; [done|].
    unfold applyShuffleStep. rewrite Ha, Hc, js_spread_Full.
    rewrite (js_read_Full deck i1 c Hx).
    assert (Hr : js_read (Full <$> deck) i2 = Undefined).
    { unfold js_read. rewrite list_lookup_fmap.
      by rewrite (lookup_ge_None_2 deck i2). }
    rewrite Hr. rewrite (js_write_inside _ i1) by (rewrite length_fmap; lia).
    assert (Hlen : length (<[i1:=Undefined]> (Full <$> deck)) = length deck)
      by (by rewrite length_insert, length_fmap).
    rewrite js_write_outside by (rewrite Hlen; lia).
    rewrite Hlen, imap_app, Hlen. f_equal.
    + apply list_eq. intros k. unfold resetDeck.
      rewrite list_lookup_imap.
      destruct (decide (k = i1)) as [->|Hne].
      * rewrite !list_lookup_insert_eq
          by (rewrite ?length_fmap, ?length_imap; lia).
        simpl. rewrite bool_decide_eq_true_2; [done|]. set_solver.
      * rewrite !list_lookup_insert_ne by done.
        rewrite !list_lookup_fmap, list_lookup_imap.
        destruct (deck !! k) as [ck|] eqn:Hk; [|done]. simpl.
        rewrite bool_decide_eq_false_2; [done|].
        apply lookup_lt_Some in Hk.
        intros Hin. apply elem_of_cons in Hin as [|Hin]; [done|].
        apply list_elem_of_singleton in Hin. lia.
    + destruct (is_array_index i2); [|done].
      rewrite imap_app, length_replicate. f_equal.
      * apply list_eq. intros k. rewrite list_lookup_imap.
        destruct (decide (k < i2 - length deck)) as [Hk|Hk].
        -- by rewrite lookup_replicate_2.
        -- by rewrite lookup_ge_None_2 by (rewrite length_replicate; lia).
      * simpl. replace (length deck + (i2 - length deck + 0)) with i2 by lia.
        rewrite bool_decide_eq_true_2; [done|]. set_solver.
Qed.

Lemma invalid_input_is_not_rejected_witness :
  applyShuffleStep (Full <$> [card_a; card_b]) swap_0_5
    = [Blank 0 true; Full (restamp 1 false card_b); Hole; Hole; Hole;
       Full (restamp 5 true card_a)]
  /\ getAlgorithmByName "Bogo Sort" = None
  /\ riffleShuffle 0 always_half [] = Some [].
Proof.
  assert (Hn : ~ known_name "Bogo Sort").
  { unfold known_name. simpl. intros H.
    repeat (apply elem_of_cons in H as [H|H]; [discriminate|]).
    by apply elem_of_nil in H. }
  pose proof (invalid_input_is_not_rejected always_half 0 "Bogo Sort"
                [card_a; card_b] swap_0_5 0 5 Hn eq_refl eq_refl
                ltac:(simpl; lia)) as (Hs & _ & Hname & c & Hc & Hstep).
  split; [|split; [exact Hname|apply Hs]].
  injection Hc as <-. exact Hstep.
Defined.

(** ** Rounding *)

Lemma Math_round_quotient (a : Z) (b : positive) :
  Math_round (inject_Z a / inject_Z (Z.pos b)) = ((2 * a + Z.pos b) / (2 * Z.pos b))%Z.
Proof.
  unfold Math_round.
  assert (H : (inject_Z a / inject_Z (Z.pos b) + (1 # 2)
               == (2 * a + Z.pos b) # (2 * b))%Q).
  { unfold Qeq, Qdiv, Qinv, Qmult, Qplus, inject_Z; simpl. lia. }
  rewrite (Qfloor_comp _ _ H). unfold Qfloor. reflexivity.
Qed.

Lemma Math_round_quotient_nat (a : Z) (n : nat) :
  0 < n ->
  Math_round (inject_Z a / inject_Z (Z.of_nat n))
  = ((2 * a + Z.of_nat n) / (2 * Z.of_nat n))%Z.
Proof.
  intros Hn. destruct n as [|n]; [lia|].
  replace (Z.of_nat (S n)) with (Z.pos (Pos.of_succ_nat n)) by lia.
  apply Math_round_quotient.
Qed.


(** ** The scores on invalid decks *)

(** C10.  [calculateEntropy] raises on an empty original deck, whatever the
    shuffled deck: the maximum of no difference is [-Infinity], which is no
    array length.  So it is not total, and the empty pair is an input on
    which it returns no value of [[0, 100]]. *)
Theorem calculateEntropy_empty_raises (shuffledDeck : list Card) :
  calculateEntropy [] shuffledDeck = Thrown "RangeError: Invalid array length".
Proof. reflexivity. Qed.

(** On any other original deck it returns. *)
Lemma calculateEntropy_returns (originalDeck shuffledDeck : list Card) :
  originalDeck <> [] ->
  exists score, calculateEntropy originalDeck shuffledDeck = Returned score.
Proof.
  intros Hne. unfold calculateEntropy.
  destruct (position_differences originalDeck shuffledDeck) as [|d ds] eqn:Hd.
  - apply (f_equal length) in Hd. unfold position_differences in Hd.
    rewrite length_imap in Hd. by destruct originalDeck.
  - unfold Math_max. destruct (max_list (d :: ds)); eauto.
Qed.

Lemma ln_2_neq_0 : ln 2 <> 0%R.
Proof.
  pose proof ln_lt_2. lra.
Qed.

Lemma log2_2 : log2 2 = 1%R.
Proof. unfold log2. field. apply ln_2_neq_0. Qed.

Lemma log2_half : log2 (1 / 2) = (-1)%R.
Proof.
  unfold log2. replace (1 / 2)%R with (/ 2)%R by lra.
  rewrite ln_Rinv by lra. field. apply ln_2_neq_0.
Qed.

Lemma position_differences_two_one (a b : Card) :
  position_differences [a; b] [b] = [0; 1].
Proof.
  unfold position_differences, positions_of. simpl.
  rewrite lookup_insert_eq. simpl.
  destruct (decide (id a = id b)) as [->|Hne].
  - by rewrite lookup_insert_eq.
  - by rewrite lookup_insert_ne, lookup_empty.
Qed.

Lemma calculateEntropy_two_one (a b : Card) :
  calculateEntropy [a; b] [b] = Returned 100%R.
Proof.
  unfold calculateEntropy. rewrite position_differences_two_one.
  change (Math_max [0; 1]) with (Some 1). cbv beta iota zeta.
  change (fill_buckets 1 [0; 1]) with [1; 1].
  cbv [length bucket_entropy foldl Nat.ltb Nat.leb].
  replace (INR 1 / INR 2)%R with (1 / 2)%R by (simpl; lra).
  rewrite log2_half. replace (INR 2) with 2%R by (simpl; lra).
  rewrite log2_2.
  destruct (Rlt_dec 0 1) as [_|Hn]; [|lra].
  f_equal. lra.
Qed.

(** C5.  [calculateRandomnessMetrics] compares the lengths of the two decks
    first and returns 0 when they differ.  [calculateEntropy] has no such
    guard: on an original deck of two cards [a, b] and the shuffled deck
    [b], whatever the cards, it returns 100 (the card that is missing
    counts as found at index 0); and on an empty original deck and a
    shuffled deck of one card it raises. *)
Theorem calculateEntropy_lacks_length_guard :
  (forall originalDeck shuffledDeck : list Card,
      length originalDeck <> length shuffledDeck ->
      calculateRandomnessMetrics originalDeck shuffledDeck = Int 0)
  /\ (forall a b : Card,
        length [a; b] <> length [b]
        /\ calculateEntropy [a; b] [b] = Returned 100%R
        /\ calculateEntropy [a; b] [b] <> Returned 0%R)
  /\ (forall b : Card,
        length ([] : list Card) <> length [b]
        /\ calculateEntropy [] [b]
           = Thrown "RangeError: Invalid array length").
Proof.
  split; [|split].
  - intros originalDeck shuffledDeck Hlen. unfold calculateRandomnessMetrics.
    by rewrite bool_decide_eq_true_2.
  - intros a b. split; [discriminate|].
    rewrite calculateEntropy_two_one. split; [done|].
    intros H. injection H. lra.
  - intros b. split; [discriminate|reflexivity].
Qed.

Lemma calculateEntropy_lacks_length_guard_witness :
  calculateRandomnessMetrics [card_a; card_b] [card_b] = Int 0
  /\ calculateEntropy [card_a; card_b] [card_b] = Returned 100%R.
Proof.
  destruct calculateEntropy_lacks_length_guard as (Hguard & Hentropy & _).
  split.
  - apply Hguard. simpl. lia.
  - apply (Hentropy card_a card_b).
Defined.

(** ** The running average of the step count *)


Lemma statistics_after_snoc algorithm samples s :
  statistics_after algorithm (samples ++ [s])
  = record_sample (statistics_after algorithm samples) s.
Proof. unfold statistics_after. apply foldl_snoc. Qed.

Lemma shuffleCount_after algorithm samples :
  shuffleCount (statistics_after algorithm samples) = length samples.
Proof.
  induction samples as [|s samples IH] using rev_ind; [done|].
  rewrite statistics_after_snoc, length_app. simpl. by rewrite IH.
Qed.






(** ** Comparing two algorithms *)

(** With equal scores, times and step counts the second algorithm is named
    the winner of each comparison. *)
Lemma compareAlgorithms_tie_names_second :
  let stats1 := mkStatistics "A" 1 5 (Int 80) [2%Q] in
  let stats2 := mkStatistics "B" 1 5 (Int 80) [2%Q] in
  winner (randomnessComparison (compareAlgorithms stats1 stats2)) = "B"
  /\ winner (speedComparison (compareAlgorithms stats1 stats2)) = "B"
  /\ winner (stepComparison (compareAlgorithms stats1 stats2)) = "B"
  /\ "B" <> algorithmName stats1.
Proof. repeat split. discriminate. Qed.

(** C7, amended.  [compareAlgorithms] names [stats1] the winner of a
    comparison exactly when it is strictly better (a higher
    [randomnessScore], a lower average time, a lower [averageSteps]);
    otherwise, and so on a tie, it names [stats2].  With scores 90 and 70
    the randomness winner is [stats1]. *)
Theorem compareAlgorithms_winners (stats1 stats2 : ShuffleStatistics) :
  let result := compareAlgorithms stats1 stats2 in
  (winner (randomnessComparison result) =
     if number_gt (randomnessScore stats1) (randomnessScore stats2)
     then algorithmName stats1 else algorithmName stats2)
  /\ (randomnessScore stats1 = randomnessScore stats2 ->
      winner (randomnessComparison result) = algorithmName stats2)
  /\ ((getAverageExecutionTime stats1 < getAverageExecutionTime stats2)%Z ->
      winner (speedComparison result) = algorithmName stats1)
  /\ ((getAverageExecutionTime stats2 <= getAverageExecutionTime stats1)%Z ->
      winner (speedComparison result) = algorithmName stats2)
  /\ ((averageSteps stats1 < averageSteps stats2)%Z ->
      winner (stepComparison result) = algorithmName stats1)
  /\ ((averageSteps stats2 <= averageSteps stats1)%Z ->
      winner (stepComparison result) = algorithmName stats2)
  /\ (randomnessScore stats1 = Int 90 -> randomnessScore stats2 = Int 70 ->
      winner (randomnessComparison result) = algorithmName stats1).
Proof.
  simpl. split; [done|]. split; [|split; [|split; [|split; [|split]]]].
  - intros ->. destruct (randomnessScore stats2) as [|z]; simpl; [done|].
    rewrite bool_decide_eq_false_2; [done | lia].
  - intros H. by rewrite bool_decide_eq_true_2.
  - intros H. rewrite bool_decide_eq_false_2; [done | lia].
  - intros H. by rewrite bool_decide_eq_true_2.
  - intros H. rewrite bool_decide_eq_false_2; [done | lia].
  - by intros -> ->.
Qed.

Lemma compareAlgorithms_winners_witness :
  let stats1 := mkStatistics "A" 2 51 (Int 90) [1%Q; 2%Q] in
  let stats2 := mkStatistics "B" 1 51 (Int 70) [4%Q] in
  winner (randomnessComparison (compareAlgorithms stats1 stats2)) = "A"
  /\ winner (speedComparison (compareAlgorithms stats1 stats2)) = "A"
  /\ winner (stepComparison (compareAlgorithms stats1 stats2)) = "B".
Proof.
  intros stats1 stats2.
  pose proof (compareAlgorithms_winners stats1 stats2)
    as (_ & _ & Hs & _ & _ & Hst & Hr).
  split; [exact (Hr eq_refl eq_refl)|].
  split; [apply Hs; vm_compute; reflexivity
         |apply Hst; vm_compute; discriminate].
Defined.

(** ** The displacement score *)

Lemma Math_round_comp (x y : Q) : (x == y)%Q -> Math_round x = Math_round y.
Proof.
  intros H. unfold Math_round. apply Qfloor_comp. by rewrite H.
Qed.

Lemma Math_round_le (x y : Q) : (x <= y)%Q -> (Math_round x <= Math_round y)%Z.
Proof.
  intros H. unfold Math_round. apply Qfloor_resp_le. Lqa.lra.
Qed.

Lemma Math_round_succ (x : Q) : Math_round (x + 1) = (Math_round x + 1)%Z.
Proof.
  unfold Math_round.
  pose proof (Qfloor_le (x + (1 # 2))) as Hlo.
  pose proof (Qlt_floor (x + (1 # 2))) as Hhi.
  rewrite inject_Z_plus in Hhi. change (inject_Z 1) with 1%Q in Hhi.
  apply Z.le_antisymm.
  - assert (H : (Qfloor (x + 1 + (1 # 2)) < Qfloor (x + (1 # 2)) + 1 + 1)%Z);
      [|lia].
    apply Qfloor_lt_Z. rewrite !inject_Z_plus.
    change (inject_Z 1) with 1%Q. Lqa.lra.
  - apply Qfloor_ge_Z. rewrite inject_Z_plus.
    change (inject_Z 1) with 1%Q. Lqa.lra.
Qed.

(** [findIndex] returns the first index that holds the id. *)
Lemma findIndex_id_first (shuffledDeck : list Card) (j : nat) (c' : Card) :
  shuffledDeck !! j = Some c' ->
  (forall j' c'', shuffledDeck !! j' = Some c'' -> id c'' = id c' -> j <= j') ->
  findIndex_id shuffledDeck (id c') = Z.of_nat j.
Proof.
  intros Hj Hfirst. unfold findIndex_id.
  assert (H : list_find (fun card => id card = id c') shuffledDeck
              = Some (j, c')).
  { apply list_find_Some. split; [done|]. split; [done|].
    intros j' y Hy Hlt Hid. specialize (Hfirst j' y Hy Hid). lia. }
  by rewrite H.
Qed.

Lemma findIndex_id_unique (shuffledDeck : list Card) (j : nat) (c' : Card) :
  NoDup (id <$> shuffledDeck) ->
  shuffledDeck !! j = Some c' ->
  findIndex_id shuffledDeck (id c') = Z.of_nat j.
Proof.
  intros Hnd Hj. apply findIndex_id_first; [done|].
  intros j' y Hy Hid.
  assert (j' = j); [|lia].
  apply (NoDup_lookup _ j' j (id c') Hnd);
    rewrite list_lookup_fmap; [rewrite Hy | rewrite Hj]; simpl; congruence.
Qed.

(** With distinct ids a place that holds the id is the first one. *)
Lemma relocates_distinct (originalDeck shuffledDeck : list Card)
    (new_index : nat -> nat) :
  NoDup (id <$> shuffledDeck) ->
  (forall i c, originalDeck !! i = Some c ->
     exists c', shuffledDeck !! new_index i = Some c' /\ id c' = id c) ->
  relocates originalDeck shuffledDeck new_index.
Proof.
  intros Hnd H i c Hc. split; [by apply H|].
  intros j c' Hj Hid. destruct (H i c Hc) as (c0 & Hc0 & Hid0).
  assert (j = new_index i); [|lia].
  apply (NoDup_lookup _ j (new_index i) (id c) Hnd);
    rewrite list_lookup_fmap; [rewrite Hj | rewrite Hc0]; simpl; congruence.
Qed.

(** Two decks with the same ids: every item has a new index. *)
Lemma relocates_exists (originalDeck shuffledDeck : list Card) :
  id <$> shuffledDeck ≡ₚ id <$> originalDeck ->
  exists new_index, relocates originalDeck shuffledDeck new_index.
Proof.
  intros Hperm.
  exists (fun i => match originalDeck !! i with
                   | Some c => Z.to_nat (findIndex_id shuffledDeck (id c))
                   | None => 0
                   end).
  intros i c Hc. rewrite Hc.
  assert (Hin : id c ∈ id <$> shuffledDeck).
  { rewrite Hperm. apply list_elem_of_fmap. exists c. split; [done|].
    by apply list_elem_of_lookup_2 in Hc. }
  apply list_elem_of_fmap in Hin as (c0 & Hid0 & Hin).
  destruct (list_find_elem_of (fun card => id card = id c) shuffledDeck c0)
    as [[j c'] Hfind]; [done|done|].
  unfold findIndex_id. rewrite Hfind.
  apply list_find_Some in Hfind as (Hj & Hid & Hfirst).
  rewrite Nat2Z.id. split; [by exists c'|].
  intros j' c'' Hj' Hid'.
  destruct (decide (j' < j)) as [Hlt|]; [|lia].
  exfalso. by apply (Hfirst j' c'' Hj' Hlt).
Qed.

Lemma displacement_loop_counts (shuffledDeck : list Card)
    (new_index : nat -> nat) :
  forall rest i displacedCards totalDisplacement,
  (forall k c, rest !! k = Some c ->
     findIndex_id shuffledDeck (id c) = Z.of_nat (new_index (i + k))) ->
  displacement_loop shuffledDeck i rest displacedCards totalDisplacement
  = ((displacedCards
      + Z.of_nat (length (filter (fun d => d ≠ 0%Z)
                            (displacement new_index <$> seq i (length rest)))))%Z,
     (totalDisplacement
      + foldr Z.add 0%Z (displacement new_index <$> seq i (length rest)))%Z).
Proof.
  induction rest as [|c rest IH]; intros i dc td Hfind.
  - simpl. f_equal; lia.
  - cbn [displacement_loop length seq fmap list_fmap].
    rewrite (Hfind 0 c eq_refl), Nat.add_0_r.
    assert (Hrest : forall k c0, rest !! k = Some c0 ->
              findIndex_id shuffledDeck (id c0)
              = Z.of_nat (new_index (i + 1 + k))).
    { intros k c0 Hk. rewrite (Hfind (S k) c0 Hk). f_equal. f_equal. lia. }
    rewrite filter_cons. cbn [foldr].
    change (Z.abs (Z.of_nat (new_index i) - Z.of_nat i))
      with (displacement new_index i).
    assert (Hd : displacement new_index i ≠ 0%Z
                 <-> Z.of_nat (new_index i) ≠ Z.of_nat i)
      by (unfold displacement; lia).
    replace (S i) with (i + 1) by lia.
    case_bool_decide as Hne.
    + rewrite (IH _ _ _ Hrest). rewrite decide_True by tauto.
      cbn [length]. f_equal; lia.
    + rewrite (IH _ _ _ Hrest). rewrite decide_False by tauto.
      assert (displacement new_index i = 0%Z)
        by (destruct (decide (displacement new_index i = 0%Z)); tauto).
      f_equal. lia.
Qed.

Lemma displacement_counts_bounds (ds : list Z) :
  Forall (fun d => 0 <= d)%Z ds ->
  (0 <= Z.of_nat (length (filter (fun d => d ≠ 0%Z) ds))
   <= Z.of_nat (length ds))%Z
  /\ (0 <= foldr Z.add 0%Z ds)%Z.
Proof.
  intros H. split.
  - pose proof (length_filter (fun d => d ≠ 0%Z) ds). lia.
  - induction H as [|d ds Hd _ IH]; simpl; lia.
Qed.

Lemma displacement_nonneg (new_index : nat -> nat) (l : list nat) :
  Forall (fun d => 0 <= d)%Z (displacement new_index <$> l).
Proof.
  apply Forall_fmap, Forall_forall. intros i _. unfold displacement. simpl. lia.
Qed.

Lemma calculateRandomnessMetrics_binary64
    (originalDeck shuffledDeck : list Card) (new_index : nat -> nat) :
  1 <= length originalDeck ->
  length originalDeck = length shuffledDeck ->
  relocates originalDeck shuffledDeck new_index ->
  let ds := displacement new_index <$> seq 0 (length originalDeck) in
  calculateRandomnessMetrics originalDeck shuffledDeck
  = Int (Math_round
           (binary64_score
              (inject_Z (Z.of_nat (length (filter (fun d => d ≠ 0%Z) ds))))
              (inject_Z (foldr Z.add 0%Z ds))
              (inject_Z (Z.of_nat (length originalDeck))))).
Proof.
  intros HN Hlen Hrel ds. unfold calculateRandomnessMetrics.
  rewrite bool_decide_eq_false_2 by (intros H; by apply H).
  rewrite (displacement_loop_counts shuffledDeck new_index).
  2:{ intros k c Hk. destruct (Hrel k c Hk) as [(c' & Hc' & <-) Hfirst].
      by apply findIndex_id_first. }
  fold ds. rewrite !Z.add_0_l.
  destruct (length originalDeck) as [|n] eqn:HeqN; [lia|]. reflexivity.
Qed.

Section error_analysis.
Local Open Scope Z_scope.

Lemma fits53_le (k : Z) : 0 <= k <= 2 ^ 53 -> fits53 k.
Proof.
  intros Hk. destruct (Z.eq_dec k (2 ^ 53)) as [->|Hne].
  - apply (fits53_shift 1 53); lia.
  - apply fits53_small. lia.
Qed.

(** Half an integer of at most 53 bits is a double. *)
Lemma fl_half_Z (n : Z) :
  0 <= n <= 2 ^ 53 -> (fl (inject_Z n / 2) == inject_Z n / 2)%Q.
Proof.
  intros Hn. apply fl_double. exists (n * 2 ^ 1073). split.
  - rewrite Z.abs_eq by (pose proof (pow2_pos 1073 ltac:(lia)); nia).
    apply fits53_mul_pow2; [lia|lia|by apply fits53_le].
  - unfold Qeq, Qdiv, Qmult, Qinv, inject_Z. simpl.
    rewrite grid_eq. change (2 ^ 1074) with (2 ^ 1073 * 2).
    change (Z.pos (1 * 2)) with 2. generalize (2 ^ 1073). intros A. ring.
Qed.

Lemma rel_exact (b y : Q) :
  (0 <= y)%Q -> (y == 0 \/ b <= y)%Q -> rel b 1 1 y y.
Proof. intros H0 Hb. repeat split; trivial; Lqa.lra. Qed.

Lemma Qmult_le_compat_l' (x y z : Q) : (x <= y -> 0 <= z -> z * x <= z * y)%Q.
Proof. intros. rewrite !(Qmult_comm z). by apply Qmult_le_compat_r. Qed.

Lemma rel_fl (b lo hi x y : Q) :
  rel b lo hi x y -> (0 <= lo)%Q -> (0 <= hi)%Q ->
  (1 # 2 ^ 1022 <= lo * b)%Q ->
  rel b (lo * (1 - eps)) (hi * (1 + eps)) (fl x) y.
Proof.
  intros (Hy & Hb & Hlo & Hhi) Hl Hh Hn.
  pose proof eps_pos as He. pose proof eps_lt_1 as He1.
  split; [done|]. split; [done|].
  destruct Hb as [Hz|Hb].
  - assert (Hx : (x == 0)%Q).
    { rewrite Hz in Hlo, Hhi. Lqa.lra. }
    rewrite (fl_comp _ _ Hx), fl_0, Hz. split; Lqa.lra.
  - assert (Hx : (1 # 2 ^ 1022 <= x)%Q).
    { apply Qle_trans with (lo * b)%Q; [done|].
      apply Qle_trans with (lo * y)%Q; [|done].
      by apply Qmult_le_compat_l'. }
    destruct (fl_rel_normal x Hx) as [H1 H2]. split.
    + assert (lo * (1 - eps) * y == lo * y * (1 - eps))%Q as -> by ring.
      apply Qle_trans with (x * (1 - eps))%Q; [|done].
      apply Qmult_le_compat_r; [done|Lqa.lra].
    + assert (hi * (1 + eps) * y == hi * y * (1 + eps))%Q as -> by ring.
      apply Qle_trans with (x * (1 + eps))%Q; [done|].
      apply Qmult_le_compat_r; [done|Lqa.lra].
Qed.

Lemma rel_nonneg (b lo hi x y : Q) : rel b lo hi x y -> (0 <= lo)%Q -> (0 <= x)%Q.
Proof.
  intros (Hy & _ & Hlo & _) Hl.
  apply Qle_trans with (lo * y)%Q; [|done]. by apply Qmult_le_0_compat.
Qed.

Lemma rel_mul (b1 l1 h1 x1 y1 b2 l2 h2 x2 y2 : Q) :
  rel b1 l1 h1 x1 y1 -> rel b2 l2 h2 x2 y2 ->
  (0 <= l1)%Q -> (0 <= l2)%Q -> (0 <= b1)%Q -> (0 <= b2)%Q ->
  rel (b1 * b2) (l1 * l2) (h1 * h2) (x1 * x2) (y1 * y2).
Proof.
  intros H1 H2 Hl1 Hl2 Hb1 Hb2.
  pose proof (rel_nonneg _ _ _ _ _ H1 Hl1) as Hx1.
  pose proof (rel_nonneg _ _ _ _ _ H2 Hl2) as Hx2.
  destruct H1 as (Hy1 & Hs1 & Hlo1 & Hhi1), H2 as (Hy2 & Hs2 & Hlo2 & Hhi2).
  split; [by apply Qmult_le_0_compat|]. split; [|split].
  - destruct Hs1 as [E|Hs1]; [left; rewrite E; ring|].
    destruct Hs2 as [E|Hs2]; [left; rewrite E; ring|].
    right. by apply Qmult_le_compat_nonneg.
  - assert (l1 * l2 * (y1 * y2) == (l1 * y1) * (l2 * y2))%Q as -> by ring.
    apply Qmult_le_compat_nonneg; split; trivial;
      by apply Qmult_le_0_compat.
  - assert (h1 * h2 * (y1 * y2) == (h1 * y1) * (h2 * y2))%Q as -> by ring.
    by apply Qmult_le_compat_nonneg.
Qed.

Lemma rel_add (b l h x1 y1 x2 y2 : Q) :
  rel b l h x1 y1 -> rel b l h x2 y2 -> rel b l h (x1 + x2) (y1 + y2).
Proof.
  intros (Hy1 & Hs1 & Hlo1 & Hhi1) (Hy2 & Hs2 & Hlo2 & Hhi2).
  split; [Lqa.lra|]. split; [|split].
  - destruct Hs1 as [E1|Hs1], Hs2 as [E2|Hs2].
    + left. Lqa.lra.
    + right. Lqa.lra.
    + right. Lqa.lra.
    + right. Lqa.lra.
  - rewrite Qmult_plus_distr_r. Lqa.lra.
  - rewrite Qmult_plus_distr_r. Lqa.lra.
Qed.

Lemma rel_weaken (b l h b' l' h' x y : Q) :
  rel b l h x y -> (b' <= b)%Q -> (l' <= l)%Q -> (h <= h')%Q ->
  rel b' l' h' x y.
Proof.
  intros (Hy & Hs & Hlo & Hhi) Hb Hl Hh.
  split; [done|]. split; [|split].
  - destruct Hs as [E|Hs]; [by left|right; Lqa.lra].
  - apply Qle_trans with (l * y)%Q; [|done]. by apply Qmult_le_compat_r.
  - apply Qle_trans with (h * y)%Q; [done|]. by apply Qmult_le_compat_r.
Qed.

Lemma rel_min1 (b l h x y : Q) :
  rel b l h x y -> (0 <= l <= 1)%Q -> (1 <= h)%Q -> (b <= 1)%Q ->
  rel b l h (Qmin x 1) (Qmin y 1).
Proof.
  intros (Hy & Hs & Hlo & Hhi) Hl Hh Hb.
  destruct (Q.min_spec_le y 1) as [[Hc Ey]|[Hc Ey]];
    destruct (Q.min_spec_le x 1) as [[Hd Ex]|[Hd Ex]];
    unfold rel; rewrite Ey, Ex.
  - repeat split; trivial.
  - split; [done|]. split; [done|]. split; [|Lqa.lra].
    apply Qle_trans with (1 * 1)%Q; [|Lqa.lra].
    apply Qmult_le_compat_nonneg; split; Lqa.lra.
  - split; [Lqa.lra|]. split; [right; done|]. split; [|Lqa.lra].
    apply Qle_trans with (l * y)%Q; [|done].
    apply Qmult_le_compat_l'; Lqa.lra.
  - split; [Lqa.lra|]. split; [right; done|]. split; Lqa.lra.
Qed.

Lemma rel_error (b l h x y d M : Q) :
  rel b l h x y -> (y <= M)%Q -> (1 - d <= l)%Q -> (h <= 1 + d)%Q ->
  (0 <= d)%Q ->
  (- (d * M) <= x - y <= d * M)%Q.
Proof.
  intros (Hy & _ & Hlo & Hhi) HM Hl Hh Hd.
  assert (Hdy : (d * y <= d * M)%Q) by (by apply Qmult_le_compat_l').
  assert (H1 : ((1 - d) * y <= l * y)%Q) by (by apply Qmult_le_compat_r).
  assert (H2 : (h * y <= (1 + d) * y)%Q) by (by apply Qmult_le_compat_r).
  split.
  - assert ((1 - d) * y == y - d * y)%Q as E by ring. rewrite E in H1. Lqa.lra.
  - assert ((1 + d) * y == y + d * y)%Q as E by ring. rewrite E in H2. Lqa.lra.
Qed.

Lemma inject_Z_nonneg (k : Z) : 0 <= k -> (0 <= inject_Z k)%Q.
Proof. intros. change 0%Q with (inject_Z 0). by rewrite <- Zle_Qle. Qed.

Lemma inject_Z_pos (k : Z) : 0 < k -> (0 < inject_Z k)%Q.
Proof. intros. change 0%Q with (inject_Z 0). by rewrite <- Zlt_Qlt. Qed.

Lemma frac_sizable (p n : Z) :
  0 <= p -> 1 <= n <= 2 ^ 26 ->
  (0 <= inject_Z p / inject_Z n
   /\ (inject_Z p / inject_Z n == 0 \/ 1 # 2 ^ 26 <= inject_Z p / inject_Z n))%Q.
Proof.
  intros Hp Hn. pose proof (inject_Z_pos n ltac:(lia)) as Hn0.
  split.
  - apply Qle_shift_div_l; [done|]. rewrite Qmult_0_l. by apply inject_Z_nonneg.
  - destruct (Z.eq_dec p 0) as [->|Hne].
    + left. unfold Qdiv. ring.
    + right. apply Qle_shift_div_l; [done|].
      unfold Qle, Qmult, inject_Z. simpl.
      change (Z.pos (2 ^ 26)) with (2 ^ 26). lia.
Qed.

Lemma inv_half_sizable (n : Z) :
  1 <= n <= 2 ^ 26 ->
  (0 <= / (inject_Z n / 2)
   /\ (/ (inject_Z n / 2) == 0 \/ 1 # 2 ^ 25 <= / (inject_Z n / 2)))%Q.
Proof.
  intros Hn. pose proof (inject_Z_pos n ltac:(lia)) as Hn0.
  assert (H2 : (0 < inject_Z n / 2)%Q).
  { apply Qlt_shift_div_l; [done|]. by rewrite Qmult_0_l. }
  split; [apply Qlt_le_weak; by apply Qinv_lt_0_compat|].
  right. apply Qle_shift_inv_l; [done|].
  unfold Qle, Qmult, Qdiv, Qinv, inject_Z. simpl.
  change (Z.pos (2 ^ 25 * 2)) with (2 ^ 26). lia.
Qed.

Lemma exact_score_le (p t n : Z) :
  0 <= p <= n -> 0 <= t -> 1 <= n ->
  (exact_score (inject_Z p) (inject_Z t) (inject_Z n) <= 100)%Q.
Proof.
  intros Hp Ht Hn. unfold exact_score.
  pose proof (inject_Z_pos n ltac:(lia)) as Hn0.
  assert (H1 : (inject_Z p / inject_Z n <= 1)%Q).
  { apply Qle_shift_div_r; [done|]. rewrite Qmult_1_l, <- Zle_Qle. lia. }
  pose proof (Q.le_min_r (inject_Z t / inject_Z n / (inject_Z n / 2)) 1) as H2.
  Lqa.lra.
Qed.

Lemma score_error (p t n : Z) :
  0 <= p <= n -> 0 <= t -> 1 <= n <= 2 ^ 26 ->
  (- (1 # 2 ^ 43)
   <= binary64_score (inject_Z p) (inject_Z t) (inject_Z n)
      - exact_score (inject_Z p) (inject_Z t) (inject_Z n)
   <= 1 # 2 ^ 43)%Q.
Proof.
  intros Hp Ht Hn.
  assert (P26 : (2 ^ 26 < 2 ^ 53)%Z) by done.
  destruct (frac_sizable p n ltac:(lia) Hn) as [Hf0 Hfs].
  destruct (frac_sizable t n ltac:(lia) Hn) as [Hg0 Hgs].
  destruct (inv_half_sizable n Hn) as [Hh0 Hhs].
  set (f := (inject_Z p / inject_Z n)%Q) in *.
  set (g := (inject_Z t / inject_Z n)%Q) in *.
  (* the two constants *)
  pose proof (rel_fl _ _ _ _ _
                (rel_exact (1 # 2) (6 # 10) ltac:(qcompute) ltac:(right; qcompute))
                ltac:(qcompute) ltac:(qcompute) ltac:(qcompute)) as C6.
  pose proof (rel_fl _ _ _ _ _
                (rel_exact (1 # 4) (4 # 10) ltac:(qcompute) ltac:(right; qcompute))
                ltac:(qcompute) ltac:(qcompute) ltac:(qcompute)) as C4.
  (* displacementRatio * 0.6 *)
  pose proof (rel_fl _ _ _ _ _ (rel_exact _ f Hf0 Hfs)
                ltac:(qcompute) ltac:(qcompute) ltac:(qcompute)) as R1.
  pose proof (rel_fl _ _ _ _ _
                (rel_mul _ _ _ _ _ _ _ _ _ _ R1 C6
                   ltac:(qcompute) ltac:(qcompute) ltac:(qcompute)
                   ltac:(qcompute))
                ltac:(qcompute) ltac:(qcompute) ltac:(qcompute)) as R2.
  (* normalizedDisplacement * 0.4 *)
  pose proof (rel_fl _ _ _ _ _ (rel_exact _ g Hg0 Hgs)
                ltac:(qcompute) ltac:(qcompute) ltac:(qcompute)) as T1.
  pose proof (rel_fl _ _ _ _ _
                (rel_mul _ _ _ _ _ _ _ _ _ _ T1 (rel_exact _ _ Hh0 Hhs)
                   ltac:(qcompute) ltac:(qcompute) ltac:(qcompute)
                   ltac:(qcompute))
                ltac:(qcompute) ltac:(qcompute) ltac:(qcompute)) as T2.
  pose proof (rel_min1 _ _ _ _ _ T2 ltac:(split; qcompute) ltac:(qcompute)
                ltac:(qcompute)) as T3.
  pose proof (rel_fl _ _ _ _ _
                (rel_mul _ _ _ _ _ _ _ _ _ _ T3 C4
                   ltac:(qcompute) ltac:(qcompute) ltac:(qcompute)
                   ltac:(qcompute))
                ltac:(qcompute) ltac:(qcompute) ltac:(qcompute)) as T4.
  (* the sum, times 100 *)
  pose proof (rel_weaken _ _ _ (1 # 2 ^ 60) ((1 - eps) * (1 - eps) * (1 - eps) * (1 - eps))
                ((1 + eps) * (1 + eps) * (1 + eps) * (1 + eps)) _ _ R2
                ltac:(qcompute) ltac:(qcompute) ltac:(qcompute)) as R2'.
  pose proof (rel_weaken _ _ _ (1 # 2 ^ 60) ((1 - eps) * (1 - eps) * (1 - eps) * (1 - eps))
                ((1 + eps) * (1 + eps) * (1 + eps) * (1 + eps)) _ _ T4
                ltac:(qcompute) ltac:(qcompute) ltac:(qcompute)) as T4'.
  pose proof (rel_fl _ _ _ _ _ (rel_add _ _ _ _ _ _ _ R2' T4')
                ltac:(qcompute) ltac:(qcompute) ltac:(qcompute)) as S1.
  pose proof (rel_fl _ _ _ _ _
                (rel_mul _ _ _ _ _ _ _ _ _ _ S1
                   (rel_exact 1 100 ltac:(qcompute) ltac:(right; qcompute))
                   ltac:(qcompute) ltac:(qcompute) ltac:(qcompute)
                   ltac:(qcompute))
                ltac:(qcompute) ltac:(qcompute) ltac:(qcompute)) as F.
  pose proof (exact_score_le p t n Hp Ht ltac:(lia)) as HM.
  unfold exact_score in *. fold f g in HM |- *.
  unfold binary64_score, double_mul, double_add, double_div.
  fold f g.
  assert (Hhalf : (fl (inject_Z n / 2) == inject_Z n / 2)%Q)
    by (apply fl_half_Z; lia).
  assert (Hx : fl (fl g / fl (inject_Z n / 2))
               = fl (fl g * / (inject_Z n / 2))).
  { apply fl_comp. unfold Qdiv at 1. by rewrite Hhalf. }
  rewrite Hx.
  assert (Hy : (g / (inject_Z n / 2) == g * / (inject_Z n / 2))%Q)
    by reflexivity.
  rewrite Hy in HM |- *.
  pose proof (rel_error _ _ _ _ _ (1 # 2 ^ 43 * 100) 100 F HM
                ltac:(qcompute) ltac:(qcompute) ltac:(qcompute)) as [E1 E2].
  assert (Hd : ((1 # 2 ^ 43 * 100) * 100 == 1 # 2 ^ 43)%Q) by reflexivity.
  rewrite Hd in E1, E2. split; assumption.
Qed.

End error_analysis.

(** ** The quotients of the statistics aggregator *)

Section rounded_quotient.
Local Open Scope Z_scope.

Lemma Qfloor_unique (x : Q) (k : Z) :
  (inject_Z k <= x < inject_Z (k + 1))%Q -> Qfloor x = k.
Proof.
  intros [Hlo Hhi].
  pose proof (Qfloor_ge_Z x k Hlo). pose proof (Qfloor_lt_Z x (k + 1) Hhi). lia.
Qed.

Lemma fl_half_Z_signed (n : Z) :
  Z.abs n <= 2 ^ 53 -> (fl (inject_Z n / 2) == inject_Z n / 2)%Q.
Proof.
  intros Hn. destruct (Z.le_gt_cases 0 n) as [H0|H0].
  - apply fl_half_Z. lia.
  - assert (E : (inject_Z n / 2 == - (inject_Z (- n) / 2))%Q).
    { rewrite inject_Z_opp. unfold Qdiv. ring. }
    rewrite (fl_comp _ _ E), fl_opp, E.
    apply Qopp_comp. apply fl_half_Z. lia.
Qed.

(** The rounding error of a quotient of integers. *)
Lemma fl_quotient_error (a : Z) (p : positive) :
  Z.pos p <= 2 ^ 1022 ->
  (- ((Z.abs a # p) * eps) <= fl (a # p) - (a # p) <= (Z.abs a # p) * eps)%Q.
Proof.
  intros Hp.
  assert (Hn : forall c : Z, 0 < c -> (1 # 2 ^ 1022 <= c # p)%Q).
  { intros c Hc. unfold Qle. simpl. rewrite Pos2Z.inj_pow.
    change (Z.pos 2 ^ Z.pos 1022) with (2 ^ 1022). nia. }
  destruct (Z.lt_trichotomy a 0) as [Hneg|[->|Hpos]].
  - assert (E : (a # p == - (- a # p))%Q)
      by (unfold Qeq, Qopp; simpl; lia).
    rewrite (fl_comp _ _ E), fl_opp.
    destruct (fl_rel_normal (- a # p) (Hn (- a) ltac:(lia))) as [H1 H2].
    replace (Z.abs a) with (- a) by lia. rewrite E.
    set (y := (- a # p)%Q) in *. set (z := fl y) in *.
    assert ((y * (1 - eps) == y - y * eps)%Q) as E1 by ring.
    assert ((y * (1 + eps) == y + y * eps)%Q) as E2 by ring.
    rewrite E1 in H1. rewrite E2 in H2. split; Lqa.lra.
  - assert (E : (0 # p == 0)%Q) by reflexivity.
    rewrite (fl_comp _ _ E), fl_0, E. change (Z.abs 0) with 0.
    assert ((0 # p) * eps == 0)%Q as -> by reflexivity. split; Lqa.lra.
  - destruct (fl_rel_normal (a # p) (Hn a Hpos)) as [H1 H2].
    replace (Z.abs a) with a by lia.
    set (y := (a # p)%Q) in *. set (z := fl y) in *.
    assert ((y * (1 - eps) == y - y * eps)%Q) as E1 by ring.
    assert ((y * (1 + eps) == y + y * eps)%Q) as E2 by ring.
    rewrite E1 in H1. rewrite E2 in H2. split; Lqa.lra.
Qed.

(** [Math.round] of a quotient of integers is not changed by the rounding
    of the quotient to a double, for a numerator of at most [2^51]. *)
Lemma Math_round_rounded_quotient (a : Z) (p : positive) :
  Z.abs a <= 2 ^ 51 -> Z.pos p <= 2 ^ 1022 ->
  Math_round (fl (a # p)) = Math_round (a # p).
Proof.
  intros Ha Hp.
  assert (P51 : 2 ^ 53 = 4 * 2 ^ 51) by done.
  assert (P51' : 4 <= 2 ^ 51) by done.
  set (k := Math_round (a # p)).
  pose proof (Qfloor_le ((a # p) + (1 # 2))) as Hlo.
  pose proof (Qlt_floor ((a # p) + (1 # 2))) as Hhi.
  fold (Math_round (a # p)) in Hlo, Hhi. fold k in Hlo, Hhi.
  assert (Hk : Z.abs (2 * k - 1) <= 2 ^ 53 /\ Z.abs k <= 2 ^ 51 + 1).
  { unfold Qle, Qlt, Qplus, inject_Z in Hlo, Hhi. simpl in Hlo, Hhi.
    rewrite ?Pos2Z.inj_mul in Hlo, Hhi. nia. }
  unfold Math_round at 1. apply Qfloor_unique. split.
  - assert (H : (inject_Z (2 * k - 1) / 2 <= a # p)%Q).
    { unfold Qle, Qlt, Qplus, Qdiv, Qmult, Qinv, inject_Z in Hlo |- *.
      simpl in Hlo |- *. rewrite ?Pos2Z.inj_mul in Hlo |- *. nia. }
    apply fl_le in H. rewrite fl_half_Z_signed in H by lia.
    assert ((inject_Z (2 * k - 1) / 2 == inject_Z k - (1 # 2))%Q) as E.
    { unfold Qeq, Qdiv, Qmult, Qinv, Qminus, Qplus, Qopp, inject_Z. simpl. lia. }
    rewrite E in H. Lqa.lra.
  - destruct (fl_quotient_error a p Hp) as [_ Herr].
    assert (Hgap : ((a # p) + (1 # 2 * p) <= inject_Z k + (1 # 2))%Q).
    { unfold Qle, Qlt, Qplus, inject_Z in Hhi |- *. simpl in Hhi |- *.
      rewrite ?Pos2Z.inj_mul in Hhi |- *. nia. }
    assert (Hsmall : ((Z.abs a # p) * eps < 1 # 2 * p)%Q).
    { unfold Qlt, Qmult, eps. simpl.
      rewrite ?Pos2Z.inj_mul, ?Pos2Z.inj_pow.
      change (Z.pos 2 ^ Z.pos 53) with (2 ^ 53). nia. }
    rewrite inject_Z_plus. change (inject_Z 1) with 1%Q. Lqa.lra.
Qed.

(** So the two quotients of [updateAlgorithmStatistics] can be taken
    exactly. *)
Lemma Math_round_double_div (a : Z) (n : nat) :
  Z.abs a <= 2 ^ 51 -> (0 < n)%nat -> Z.of_nat n <= 2 ^ 53 ->
  Math_round (double_div (inject_Z a) (inject_Z (Z.of_nat n)))
  = Math_round (inject_Z a / inject_Z (Z.of_nat n)).
Proof.
  intros Ha Hn Hb. destruct n as [|n]; [lia|].
  replace (Z.of_nat (S n)) with (Z.pos (Pos.of_succ_nat n)) in * by lia.
  unfold double_div.
  assert (E : (inject_Z a / inject_Z (Z.pos (Pos.of_succ_nat n))
               == a # Pos.of_succ_nat n)%Q) by (by rewrite <- Qmake_Qdiv).
  rewrite (fl_comp _ _ E), (Math_round_comp _ _ E).
  apply Math_round_rounded_quotient; [done|].
  assert (2 ^ 53 < 2 ^ 1022) by done. lia.
Qed.

End rounded_quotient.

Lemma displacement_value_exact_score (ds : list Z) :
  (displacement_value ds
   == exact_score
        (inject_Z (Z.of_nat (length (filter (fun d => d ≠ 0%Z) ds))))
        (inject_Z (foldr Z.add 0%Z ds))
        (inject_Z (Z.of_nat (length ds))))%Q.
Proof. unfold displacement_value, exact_score. ring. Qed.

(** C4, amended.  For two decks of the same length N >= 1 (and at most
    [2^26]) with the same multiset of ids, every item has a new index, and
    [calculateRandomnessMetrics] returns [Math.round] of a double [r] that
    is within [2^-43] of the value that the specification rounds: the
    operations of the code are rounded to binary64.  So the result is the
    score of the specification or next to it, and it is that score
    whenever the exact value is not within [2^-43] of a value at which
    [round] changes. *)
Theorem calculateRandomnessMetrics_near_displacement_score
    (originalDeck shuffledDeck : list Card) :
  1 <= length originalDeck ->
  (Z.of_nat (length originalDeck) <= 2 ^ 26)%Z ->
  length originalDeck = length shuffledDeck ->
  id <$> shuffledDeck ≡ₚ id <$> originalDeck ->
  exists (new_index : nat -> nat) (r : Q),
    relocates originalDeck shuffledDeck new_index
    /\ calculateRandomnessMetrics originalDeck shuffledDeck
       = Int (Math_round r)
    /\ let ds := displacement new_index <$> seq 0 (length originalDeck) in
       (- (1 # 2 ^ 43) <= r - displacement_value ds <= 1 # 2 ^ 43)%Q
       /\ (displacement_score ds - 1 <= Math_round r
           <= displacement_score ds + 1)%Z
       /\ (Math_round (displacement_value ds - (1 # 2 ^ 43))
           = Math_round (displacement_value ds + (1 # 2 ^ 43)) ->
           Math_round r = displacement_score ds).
Proof.
  intros HN Hbound Hlen Hperm.
  destruct (relocates_exists originalDeck shuffledDeck Hperm)
    as [new_index Hrel].
  exists new_index. eexists. split; [done|].
  split; [by apply calculateRandomnessMetrics_binary64|].
  intros ds.
  destruct (displacement_counts_bounds ds (displacement_nonneg _ _))
    as [Hp Ht].
  assert (Hlds : length ds = length originalDeck)
    by (unfold ds; by rewrite length_fmap, length_seq).
  rewrite Hlds in Hp.
  pose proof (score_error _ _ (Z.of_nat (length originalDeck)) Hp Ht
                ltac:(lia)) as Herr.
  assert (HE : (displacement_value ds
                == exact_score
                     (inject_Z (Z.of_nat (length (filter (fun d => d ≠ 0%Z) ds))))
                     (inject_Z (foldr Z.add 0%Z ds))
                     (inject_Z (Z.of_nat (length originalDeck))))%Q)
    by (rewrite displacement_value_exact_score, Hlds; reflexivity).
  rewrite <- HE in Herr. clear HE.
  set (r := binary64_score _ _ _) in *.
  set (E := displacement_value ds) in *.
  assert (Hsmall : (1 # 2 ^ 43 <= 1)%Q) by (vm_compute; discriminate).
  split; [exact Herr|]. unfold displacement_score. fold E.
  split; [split|].
  - assert (H : (Math_round E <= Math_round (r + 1))%Z)
      by (apply Math_round_le; Lqa.lra).
    rewrite Math_round_succ in H. lia.
  - assert (H : (Math_round r <= Math_round (E + 1))%Z)
      by (apply Math_round_le; Lqa.lra).
    rewrite Math_round_succ in H. lia.
  - intros Hsame.
    assert (H1 : (Math_round (E - (1 # 2 ^ 43)) <= Math_round r)%Z)
      by (apply Math_round_le; Lqa.lra).
    assert (H2 : (Math_round r <= Math_round (E + (1 # 2 ^ 43)))%Z)
      by (apply Math_round_le; Lqa.lra).
    assert (H3 : (Math_round (E - (1 # 2 ^ 43)) <= Math_round E)%Z)
      by (apply Math_round_le;
          assert (0 <= 1 # 2 ^ 43)%Q by (vm_compute; discriminate); Lqa.lra).
    assert (H4 : (Math_round E <= Math_round (E + (1 # 2 ^ 43)))%Z)
      by (apply Math_round_le;
          assert (0 <= 1 # 2 ^ 43)%Q by (vm_compute; discriminate); Lqa.lra).
    lia.
Qed.

Lemma calculateRandomnessMetrics_near_displacement_score_witness :
  exists (new_index : nat -> nat) (r : Q),
    relocates [card_a; card_b; card_c] [card_b; card_c; card_a] new_index
    /\ calculateRandomnessMetrics [card_a; card_b; card_c]
         [card_b; card_c; card_a] = Int (Math_round r)
    /\ (displacement_score (displacement new_index <$> seq 0 3) - 1
        <= Math_round r
        <= displacement_score (displacement new_index <$> seq 0 3) + 1)%Z.
Proof.
  destruct (calculateRandomnessMetrics_near_displacement_score
              [card_a; card_b; card_c] [card_b; card_c; card_a])
    as (new_index & r & Hrel & Hr & _ & Hnear & _).
  - simpl; lia.
  - vm_compute; discriminate.
  - reflexivity.
  - simpl. solve_Permutation.
  - exists new_index, r. split; [exact Hrel|]. split; [exact Hr|exact Hnear].
Defined.

(** On eight cards of which the first three are rotated, the displacements
    are 2, 1, 1 and five times 0: the specification's value is exactly
    27.5 and its score 28, while the code computes 27.499999999999996 and
    returns 27. *)
Lemma calculateRandomnessMetrics_is_not_exact :
  length eight_cards = length eight_rotated
  /\ id <$> eight_rotated ≡ₚ id <$> eight_cards
  /\ relocates eight_cards eight_rotated rotate3
  /\ displacement rotate3 <$> seq 0 (length eight_cards)
     = [2; 1; 1; 0; 0; 0; 0; 0]%Z
  /\ displacement_score [2; 1; 1; 0; 0; 0; 0; 0]%Z = 28%Z
  /\ calculateRandomnessMetrics eight_cards eight_rotated = Int 27.
Proof.
  split; [reflexivity|]. split; [|split; [|repeat split; reflexivity]].
  - vm_compute. solve_Permutation.
  - apply relocates_distinct; [by apply (bool_decide_unpack _)|].
    intros [|[|[|[|[|[|[|[|i]]]]]]]] c Hc; vm_compute in Hc;
      simplify_eq; eexists; (split; [reflexivity|reflexivity]).
Qed.

(** ** Fisher-Yates is a bijection from index traces to orderings *)

Lemma fisherYates_loop_exchanges rng i : forall k (deck : list Card),
  fisherYates_loop rng k i deck = exchanges i (fisherYates_draws rng k i) deck.
Proof.
  induction i as [|i IH]; intros k deck; [done|].
  cbn [fisherYates_loop fisherYates_draws exchanges]. apply IH.
Qed.

Lemma elem_of_index_traces_0 js : js ∈ index_traces 0 <-> js = [].
Proof. simpl. apply list_elem_of_singleton. Qed.

Lemma elem_of_index_traces_S i js :
  js ∈ index_traces (S i) <->
  exists j js', js = j :: js' /\ j <= S i /\ js' ∈ index_traces i.
Proof.
  cbn [index_traces]. rewrite list_elem_of_bind. split.
  - intros (j & Hjs & Hj). apply list_elem_of_fmap in Hjs as (js' & -> & Hjs').
    apply elem_of_seq in Hj. exists j, js'. repeat split; [lia|done].
  - intros (j & js' & -> & Hj & Hjs'). exists j. split.
    + by apply list_elem_of_fmap_2.
    + apply elem_of_seq. lia.
Qed.

Lemma fisherYates_draws_in_traces rng i : forall k,
  fisherYates_draws rng k i ∈ index_traces i.
Proof.
  induction i as [|i IH]; intros k.
  - by apply elem_of_index_traces_0.
  - apply elem_of_index_traces_S. eexists _, _. split; [reflexivity|].
    split; [|apply IH].
    pose proof (floor_times_lt (rng k) (S i + 1)). lia.
Qed.

Lemma fisherYates_draws_ext rng rng' i : forall k,
  (forall m, k <= m -> rng m = rng' m) ->
  fisherYates_draws rng k i = fisherYates_draws rng' k i.
Proof.
  induction i as [|i IH]; intros k Hext; [done|].
  cbn [fisherYates_draws]. rewrite (Hext k) by lia. f_equal.
  apply IH. intros m Hm. apply Hext. lia.
Qed.

Lemma index_traces_drawn i : forall k js,
  (Z.of_nat i + 1 <= 2 ^ 52)%Z ->
  js ∈ index_traces i -> exists rng, fisherYates_draws rng k i = js.
Proof.
  induction i as [|i IH]; intros k js Hb Hjs.
  - apply elem_of_index_traces_0 in Hjs as ->. by exists always_half.
  - apply elem_of_index_traces_S in Hjs as (j & js' & -> & Hj & Hjs').
    destruct (IH (S k) js' ltac:(lia) Hjs') as [rng Hrng].
    exists (fun m => if decide (m = k) then draw_for j (S i + 1)
                     else rng m).
    cbn [fisherYates_draws]. rewrite decide_True by done.
    rewrite floor_times_reached by lia. f_equal.
    rewrite <- Hrng. apply fisherYates_draws_ext.
    intros m Hm. rewrite decide_False; [done | lia].
Qed.

Lemma length_index_traces i : length (index_traces i) = fact (S i).
Proof.
  induction i as [|i IH]; [done|].
  cbn [index_traces].
  assert (H : forall l : list nat,
    length (l ≫= (fun j => cons j <$> index_traces i))
    = length l * length (index_traces i)).
  { induction l as [|x l IHl]; [done|].
    rewrite bind_cons, length_app, length_fmap, IHl. simpl. lia. }
  rewrite H, length_seq, IH.
  change (fact (S (S i))) with (S (S i) * fact (S i)). lia.
Qed.

Lemma NoDup_index_traces i : NoDup (index_traces i).
Proof.
  induction i as [|i IH]; [apply NoDup_singleton|].
  cbn [index_traces]. apply NoDup_bind.
  - intros j1 j2 js _ _ H1 H2.
    apply list_elem_of_fmap in H1 as (? & -> & _).
    apply list_elem_of_fmap in H2 as (? & ? & _). congruence.
  - intros j _. apply NoDup_fmap_2; [|done]. by intros ?? [=].
  - apply NoDup_seq.
Qed.

Section exchanges_facts.
Context {A : Type}.
Implicit Types a p : list A.

Lemma exchanges_Permutation i : forall js a, exchanges i js a ≡ₚ a.
Proof.
  induction i as [|i IH]; intros js a; [done|].
  destruct js as [|j js]; [done|].
  cbn [exchanges]. rewrite IH. apply swap_Permutation.
Qed.

Lemma exchanges_fmap {B} (f : A -> B) i : forall js a,
  f <$> exchanges i js a = exchanges i js (f <$> a).
Proof.
  induction i as [|i IH]; intros js a; [done|].
  destruct js as [|j js]; [done|].
  cbn [exchanges]. by rewrite IH, swap_fmap.
Qed.

(** The loop at [i] leaves every index above [i] as it is. *)
Lemma exchanges_lookup_above i : forall js a n,
  js ∈ index_traces i -> i < length a -> i < n ->
  exchanges i js a !! n = a !! n.
Proof.
  induction i as [|i IH]; intros js a n Hjs Hi Hn; [done|].
  apply elem_of_index_traces_S in Hjs as (j & js' & -> & Hj & Hjs').
  cbn [exchanges]. rewrite IH; [|done|rewrite length_swap; lia|lia].
  rewrite swap_lookup by lia. unfold transpose.
  rewrite !decide_False; [done|lia|lia].
Qed.

(** The element left at [i] is the one that was at the drawn index. *)
Lemma exchanges_lookup_top i j js a :
  j :: js ∈ index_traces (S i) -> S i < length a ->
  exchanges (S i) (j :: js) a !! S i = a !! j.
Proof.
  intros Hjs Hi.
  apply elem_of_index_traces_S in Hjs as (j' & js' & [= <- <-] & Hj & Hjs').
  cbn [exchanges]. rewrite exchanges_lookup_above;
    [|done|rewrite length_swap; lia|lia].
  rewrite swap_lookup by lia. unfold transpose. by rewrite decide_True.
Qed.

Lemma exchanges_inj i : forall a js js',
  NoDup a -> i < length a ->
  js ∈ index_traces i -> js' ∈ index_traces i ->
  exchanges i js a = exchanges i js' a -> js = js'.
Proof.
  induction i as [|i IH]; intros a js js' Hnd Hi Hjs Hjs' Heq.
  - apply elem_of_index_traces_0 in Hjs, Hjs'. congruence.
  - pose proof Hjs as Hm. pose proof Hjs' as Hm'.
    apply elem_of_index_traces_S in Hm as (j & js1 & -> & Hj & Hjs1).
    apply elem_of_index_traces_S in Hm' as (j' & js1' & -> & Hj' & Hjs1').
    assert (Htop : a !! j = a !! j').
    { rewrite <- (exchanges_lookup_top i j js1 a) by done.
      rewrite <- (exchanges_lookup_top i j' js1' a) by done.
      by rewrite Heq. }
    assert (j = j') as <-.
    { destruct (lookup_lt_is_Some_2 a j) as [x Hx]; [lia|].
      apply (NoDup_lookup a j j' x Hnd Hx). by rewrite <- Htop. }
    f_equal. cbn [exchanges] in Heq.
    apply (IH (swap a (S i) j)); trivial.
    + by rewrite swap_Permutation.
    + rewrite length_swap. lia.
Qed.

Lemma agree_above_0 a p :
  NoDup a -> p ≡ₚ a -> (forall n, 0 < n -> p !! n = a !! n) -> p = a.
Proof.
  intros Hnd Hp Hagree.
  destruct a as [|y a], p as [|x p];
    try (apply Permutation_length in Hp; discriminate); [done|].
  assert (Htail : p = a).
  { apply list_eq. intros n. apply (Hagree (S n)). lia. }
  subst p. f_equal.
  assert (Hx : x ∈ y :: a) by (rewrite <- Hp; left).
  apply elem_of_cons in Hx as [Hx|Hx]; [done|].
  rewrite <- Hp in Hnd. apply NoDup_cons in Hnd as [Hnot _]. done.
Qed.

Lemma exchanges_surj i : forall a p,
  NoDup a -> i < length a -> p ≡ₚ a ->
  (forall n, i < n -> p !! n = a !! n) ->
  exists js, js ∈ index_traces i /\ exchanges i js a = p.
Proof.
  induction i as [|i IH]; intros a p Hnd Hi Hp Hagree.
  - exists []. split; [by apply elem_of_index_traces_0|].
    simpl. symmetry. by apply agree_above_0.
  - assert (Hlen : length p = length a) by (by apply Permutation_length).
    destruct (lookup_lt_is_Some_2 p (S i)) as [x Hx]; [lia|].
    assert (Hxa : x ∈ a).
    { rewrite <- Hp. by apply list_elem_of_lookup_2 in Hx. }
    apply list_elem_of_lookup_1 in Hxa as [j Hj].
    assert (Hndp : NoDup p) by (by rewrite Hp).
    assert (Hjle : j <= S i).
    { destruct (decide (j <= S i)) as [|Hgt]; [done|].
      assert (Hpj : p !! j = Some x) by (rewrite Hagree; [done|lia]).
      pose proof (NoDup_lookup p j (S i) x Hndp Hpj Hx). lia. }
    destruct (IH (swap a (S i) j) p) as (js & Hjs & Hex).
    + by rewrite swap_Permutation.
    + rewrite length_swap. lia.
    + by rewrite swap_Permutation.
    + intros n Hn. rewrite swap_lookup by lia. unfold transpose.
      destruct (decide (n = S i)) as [->|Hne]; [congruence|].
      rewrite decide_False by lia. apply Hagree. lia.
    + exists (j :: js). split; [|done].
      apply elem_of_index_traces_S. by exists j, js.
Qed.
End exchanges_facts.

(** C3.  For a deck of N >= 1 cards with distinct ids (N below [2^32], as
    for every array), [fisherYatesShuffle] performs the exchanges of the
    indices [i] and [j_i] for [i] from the last index down to 1, where
    [j_i = floor(u * (i + 1))] is an index of [[0, i]]; it is [j] for the
    draws [u] with [j <= u * (i + 1) < j + 1], up to the rounding of the
    product to a double, a relative [2^-53] at either end; every trace of
    such indices is drawn by some source; there are N! traces, all
    different; and every ordering of the ids of the deck is the result of
    exactly one trace.  (With draws that make every index of [[0, i]]
    equally likely, independently, every trace has the probability 1 / N!,
    and so has every ordering.) *)
Theorem fisherYates_uniform (deck : list Card) :
  1 <= length deck -> (Z.of_nat (length deck) < 2 ^ 32)%Z ->
  NoDup (id <$> deck) ->
  let top := length deck - 1 in
  (forall rng,
      fisherYates_draws rng 0 top ∈ index_traces top
      /\ fisherYatesShuffle rng deck
         = resetDeck (exchanges top (fisherYates_draws rng 0 top) deck))
  /\ (forall (u : draw) (i j : nat), i <= top ->
        let x := (draw_value u * inject_Z (Z.of_nat (i + 1)))%Q in
        (floor_times u (i + 1) = j ->
           (inject_Z (Z.of_nat j) * (1 - eps) <= x
            /\ x < inject_Z (Z.of_nat j + 1))%Q)
        /\ ((inject_Z (Z.of_nat j) <= x
             /\ x < inject_Z (Z.of_nat j + 1) * (1 - eps))%Q ->
            floor_times u (i + 1) = j))
  /\ (forall js, js ∈ index_traces top ->
        exists rng, fisherYates_draws rng 0 top = js)
  /\ length (index_traces top) = fact (length deck)
  /\ NoDup (index_traces top)
  /\ (forall q, q ≡ₚ id <$> deck ->
        exists js, js ∈ index_traces top
          /\ forall js', js' ∈ index_traces top ->
               (id <$> resetDeck (exchanges top js' deck) = q <-> js' = js)).
Proof.
  intros HN Hbound Hnd top.
  assert (H32 : (2 ^ 32 < 2 ^ 52)%Z) by done.
  assert (H52 : (2 ^ 52 < 2 ^ 53)%Z) by done.
  split; [|split; [|split; [|split; [|split]]]].
  - intros rng. split; [apply fisherYates_draws_in_traces|].
    unfold fisherYatesShuffle, resetDeck.
    by rewrite fisherYates_loop_exchanges.
  - intros u i j Hi. apply floor_times_interval. subst top. lia.
  - intros js Hjs. apply index_traces_drawn; [subst top; lia|done].
  - rewrite length_index_traces. subst top. f_equal. lia.
  - apply NoDup_index_traces.
  - intros q Hq.
    assert (Htop : top < length (id <$> deck))
      by (rewrite length_fmap; subst top; lia).
    destruct (exchanges_surj top (id <$> deck) q Hnd Htop Hq)
      as (js & Hjs & Hex).
    { intros n Hn. rewrite !lookup_ge_None_2; [done| |].
      - rewrite length_fmap. subst top. lia.
      - rewrite (Permutation_length Hq), length_fmap. subst top. lia. }
    exists js. split; [done|]. intros js' Hjs'.
    unfold resetDeck. rewrite id_restamp, exchanges_fmap. split.
    + intros Hq'. apply (exchanges_inj top (id <$> deck)); trivial.
      congruence.
    + by intros ->.
Qed.

Lemma fisherYates_uniform_witness :
  length (index_traces 2) = fact 3
  /\ NoDup (index_traces 2)
  /\ (forall js, js ∈ index_traces 2 ->
        exists rng, fisherYates_draws rng 0 2 = js)
  /\ (forall q, q ≡ₚ id <$> [card_a; card_b; card_c] ->
        exists js, js ∈ index_traces 2
          /\ forall js', js' ∈ index_traces 2 ->
               (id <$> resetDeck (exchanges 2 js' [card_a; card_b; card_c]) = q
                <-> js' = js)).
Proof.
  assert (H1 : 1 <= length [card_a; card_b; card_c]) by (simpl; lia).
  assert (H2 : (Z.of_nat (length [card_a; card_b; card_c]) < 2 ^ 32)%Z)
    by (vm_compute; reflexivity).
  assert (H3 : NoDup (id <$> [card_a; card_b; card_c]))
    by (by apply (bool_decide_unpack _)).
  pose proof (fisherYates_uniform [card_a; card_b; card_c] H1 H2 H3)
    as (_ & _ & Hdrawn & Hlen & Hdistinct & Hbij).
  split; [exact Hlen|]. split; [exact Hdistinct|]. split; [exact Hdrawn|exact Hbij].
Defined.

(** * Further properties *)

(** ** The ordered deck, [resetDeck] and [clearHighlights] *)

(** X1.  [createOrderedDeck] returns 52 cards with 52 different ids, suit by
    suit in the order of [SUITS] and, inside a suit, rank by rank in the
    order of [RANKS]: the card of the s-th suit and r-th rank is at index
    [13 * s + r], carries the id [suit-rank], has its index as [position]
    and is not highlighted. *)
Theorem createOrderedDeck_canonical :
  length createOrderedDeck = 52
  /\ NoDup (id <$> createOrderedDeck)
  /\ (forall s r card_suit card_rank,
        SUITS !! s = Some card_suit -> RANKS !! r = Some card_rank ->
        createOrderedDeck !! (13 * s + r)
        = Some {| id := suit_name card_suit +:+ "-" +:+ rank_name card_rank;
                  suit := card_suit; rank := card_rank;
                  position := 13 * s + r; isHighlighted := false |}).
Proof.
  split; [reflexivity|]. split; [by apply (bool_decide_unpack _)|].
  intros s r card_suit card_rank Hs Hr.
  destruct s as [|[|[|[|s]]]]; [..|discriminate]; injection Hs as <-;
    (do 13 (destruct r as [|r]; [injection Hr as <-; reflexivity|]));
    discriminate.
Qed.

Lemma createOrderedDeck_canonical_witness :
  createOrderedDeck !! 37
  = Some {| id := "clubs-Q"; suit := clubs; rank := rQ;
            position := 37; isHighlighted := false |}.
Proof.
  destruct createOrderedDeck_canonical as (_ & _ & H).
  apply (H 2 11 clubs rQ); reflexivity.
Defined.

Lemma restamp_lookup (h : nat -> bool) (deck : list Card) i :
  imap (fun index card => restamp index (h index) card) deck !! i
  = restamp i (h i) <$> deck !! i.
Proof. by rewrite list_lookup_imap. Qed.

Lemma normalized_resetDeck (deck : list Card) :
  normalized deck <-> resetDeck deck = deck.
Proof.
  unfold normalized, resetDeck. split.
  - intros Hn. apply list_eq. intros i.
    rewrite (restamp_lookup (fun _ => false)).
    destruct (deck !! i) as [c|] eqn:Hc; [|done]. simpl.
    destruct (Hn i c Hc) as [Hp Hh]. destruct c; simpl in *. by subst.
  - intros Heq i c Hc. rewrite <- Heq in Hc.
    rewrite (restamp_lookup (fun _ => false)) in Hc.
    destruct (deck !! i); simplify_eq/=. done.
Qed.

Lemma normalized_restamp (deck : list Card) :
  normalized (imap (fun index card => restamp index false card) deck).
Proof.
  intros i c Hc. rewrite (restamp_lookup (fun _ => false)) in Hc.
  destruct (deck !! i); simplify_eq/=. done.
Qed.

Lemma same_cards_restamp (h : nat -> bool) (deck : list Card) :
  same_cards (imap (fun index card => restamp index (h index) card) deck) deck.
Proof.
  unfold same_cards. rewrite fmap_imap, <- imap_const. by apply imap_ext.
Qed.

(** X2.  [resetDeck] keeps the cards and their order, gives every card its
    index as [position] and clears every highlight; a deck is left as it is
    exactly when it is already in that state. *)
Theorem resetDeck_normalizes (deck : list Card) :
  length (resetDeck deck) = length deck
  /\ same_cards (resetDeck deck) deck
  /\ normalized (resetDeck deck)
  /\ (resetDeck deck = deck <-> normalized deck).
Proof.
  split; [apply length_imap|]. split; [apply (same_cards_restamp (fun _ => false))|].
  split; [apply normalized_restamp|]. symmetry. apply normalized_resetDeck.
Qed.

Lemma clearHighlights_clears (deck : list Card) :
  length (clearHighlights deck) = length deck
  /\ same_cards (clearHighlights deck) deck
  /\ position <$> clearHighlights deck = position <$> deck
  /\ Forall (fun c => isHighlighted c = false) (clearHighlights deck)
  /\ id <$> clearHighlights deck = id <$> deck.
Proof.
  unfold clearHighlights, same_cards.
  split; [apply length_fmap|].
  split; [by rewrite <- list_fmap_compose|].
  split; [by rewrite <- list_fmap_compose|].
  split; [|by rewrite <- list_fmap_compose].
  apply Forall_fmap. by apply Forall_true.
Qed.

(** X3.  [resetDeck] and [clearHighlights] are idempotent, and [resetDeck]
    absorbs [clearHighlights] on either side: resetting a deck whose
    highlights were cleared, or clearing the highlights of a reset deck, is
    resetting the deck. *)
Theorem resetDeck_clearHighlights_compose (deck : list Card) :
  resetDeck (resetDeck deck) = resetDeck deck
  /\ clearHighlights (clearHighlights deck) = clearHighlights deck
  /\ resetDeck (clearHighlights deck) = resetDeck deck
  /\ clearHighlights (resetDeck deck) = resetDeck deck.
Proof.
  split; [|split; [|split]].
  - apply normalized_resetDeck, normalized_restamp.
  - unfold clearHighlights. rewrite <- list_fmap_compose.
    by apply list_fmap_ext.
  - unfold resetDeck, clearHighlights. rewrite imap_fmap. by apply imap_ext.
  - unfold resetDeck, clearHighlights. rewrite fmap_imap. by apply imap_ext.
Qed.

(** ** The riffle: its halves and its records *)

Lemma riffle_splitPoint_bounds rng (n : nat) :
  1 <= riffle_splitPoint rng n
  /\ (2 <= n ->
      riffle_splitPoint rng n <= n - 1
      /\ n / 2 - 1 <= riffle_splitPoint rng n <= n / 2 + 1).
Proof.
  unfold riffle_splitPoint.
  pose proof (floor_times_lt (rng 0) 3 ltac:(lia)) as Hv.
  pose proof (Nat.Div0.mul_div_le n 2) as Hd.
  pose proof (Nat.mul_succ_div_gt n 2 ltac:(lia)) as Hd'.
  set (v := floor_times (rng 0) 3) in *. set (m := n / 2) in *.
  split; [lia|]. intros Hn. lia.
Qed.

(** The two loops of the riffle, run side by side from the same state. *)
Lemma riffle_loops_agree rng (deck : list Card) (sp : nat) :
  forall fuel k li ri result cnt acc,
  (length (take sp deck) - li) + (length (drop sp deck) - ri) <= fuel ->
  exists out moves,
    riffle_loop fuel rng k (take sp deck) (drop sp deck) li ri result
      = Some (result ++ out)
    /\ riffleSteps_loop fuel rng k sp (take sp deck) (drop sp deck)
         li ri result cnt acc = Some (acc ++ moves)
    /\ Forall (fun m => action m = act_move
                        /\ cardIndices m = fromPositions m) moves
    /\ Forall2 (fun i c => deck !! i = Some c)
         (concat (fromPositions <$> moves)) out
    /\ concat (toPositions <$> moves) = seq (length result) (length out)
    /\ length moves = length out
    /\ length out
       = (length (take sp deck) - li) + (length (drop sp deck) - ri)
    /\ drop li (take sp deck) `sublist_of` out
    /\ drop ri (drop sp deck) `sublist_of` out.
Proof.
  set (L := take sp deck). set (R := drop sp deck).
  induction fuel as [|fuel IH]; intros k li ri result cnt acc Hfuel.
  - exists [], []. simpl.
    destruct (li <? length L) eqn:E1; [apply Nat.ltb_lt in E1; lia|].
    destruct (ri <? length R) eqn:E2; [apply Nat.ltb_lt in E2; lia|].
    apply Nat.ltb_ge in E1, E2. simpl.
    rewrite !app_nil_r, !drop_ge by lia.
    repeat split; trivial; try constructor. fold L R. lia.
  - cbn [riffle_loop riffleSteps_loop].
    destruct ((li <? length L) || (ri <? length R)) eqn:Hcond.
    2:{ exists [], []. apply orb_false_iff in Hcond as [E1 E2].
        apply Nat.ltb_ge in E1, E2.
        rewrite !app_nil_r, !drop_ge by lia.
        repeat split; trivial; try constructor. fold L R. simpl. lia. }
    destruct (takeFromLeft rng k L R li ri) as [[|] k'] eqn:Htake.
    + pose proof (takeFromLeft_left _ _ _ _ _ _ _ Htake) as Hli.
      destruct (lookup_lt_is_Some_2 L li Hli) as [c Hc]. rewrite Hc. simpl.
      match goal with
      | |- context [riffleSteps_loop _ _ _ _ _ _ _ _ _ _ (acc ++ [?s])] =>
          destruct (IH k' (li + 1) ri (result ++ [c]) (cnt + 1) (acc ++ [s]))
            as (out & moves & -> & -> & Hmv & Hpick & Hto & Hlen & Hout & HsubL & HsubR);
            [lia|]; exists (c :: out), (s :: moves)
      end.
      rewrite <- !app_assoc. split; [done|]. split; [done|].
      split; [by constructor|].
      split.
      { csimpl. constructor; [|done]. subst L.
        rewrite lookup_take_Some in Hc. tauto. }
      split.
      { csimpl. rewrite Hto, length_app. simpl.
        f_equal; [lia|]. f_equal. lia. }
      split; [simpl; lia|].
      split; [fold L R in Hout |- *; simpl; lia|].
      split.
      * rewrite (drop_S L c li Hc). apply sublist_skip.
        by rewrite Nat.add_1_r in HsubL.
      * by apply sublist_cons.
    + pose proof (takeFromLeft_right _ _ _ _ _ _ _ Htake Hcond) as Hri.
      destruct (lookup_lt_is_Some_2 R ri Hri) as [c Hc]. rewrite Hc. simpl.
      match goal with
      | |- context [riffleSteps_loop _ _ _ _ _ _ _ _ _ _ (acc ++ [?s])] =>
          destruct (IH k' li (ri + 1) (result ++ [c]) (cnt + 1) (acc ++ [s]))
            as (out & moves & -> & -> & Hmv & Hpick & Hto & Hlen & Hout & HsubL & HsubR);
            [lia|]; exists (c :: out), (s :: moves)
      end.
      rewrite <- !app_assoc. split; [done|]. split; [done|].
      split; [by constructor|].
      split.
      { csimpl. constructor; [|done]. subst R.
        by rewrite lookup_drop in Hc. }
      split.
      { csimpl. rewrite Hto, length_app. simpl.
        f_equal; [lia|]. f_equal. lia. }
      split; [simpl; lia|].
      split; [fold L R in Hout |- *; simpl; lia|].
      split.
      * by apply sublist_cons.
      * rewrite (drop_S R c ri Hc). apply sublist_skip.
        by rewrite Nat.add_1_r in HsubR.
Qed.

(** X4.  The riffle cuts the deck at a split point that is at least 1 and,
    for two cards or more, at most N - 1 and within one of the midpoint, so
    that both halves have a card; the shuffled deck has the cards of each
    half in the order they had in the deck. *)
Theorem riffleShuffle_interleaves (rng : source) (deck : list Card) (fuel : nat) :
  length deck <= fuel ->
  let splitPoint := riffle_splitPoint rng (length deck) in
  1 <= splitPoint
  /\ (2 <= length deck ->
      splitPoint <= length deck - 1
      /\ length deck / 2 - 1 <= splitPoint <= length deck / 2 + 1)
  /\ exists out,
       riffleShuffle fuel rng deck = Some out
       /\ (face <$> take splitPoint deck) `sublist_of` (face <$> out)
       /\ (face <$> drop splitPoint deck) `sublist_of` (face <$> out).
Proof.
  intros Hfuel sp.
  destruct (riffle_splitPoint_bounds rng (length deck)) as [H1 H2].
  split; [done|]. split; [done|].
  unfold riffleShuffle. fold sp.
  destruct (riffle_loops_agree rng deck sp fuel 1 0 0 [] 2 [])
    as (out & moves & -> & _ & _ & _ & _ & _ & _ & HsubL & HsubR).
  { rewrite riffle_halves_length. lia. }
  eexists. split; [reflexivity|]. simpl.
  rewrite (same_cards_restamp (fun _ => false) out).
  rewrite drop_0 in HsubL, HsubR. split; by apply fmap_sublist.
Qed.

Lemma riffleShuffle_interleaves_witness :
  exists out,
    riffleShuffle 3 rising [card_a; card_b; card_c] = Some out
    /\ (face <$> take (riffle_splitPoint rising 3) [card_a; card_b; card_c])
         `sublist_of` (face <$> out)
    /\ (face <$> drop (riffle_splitPoint rising 3) [card_a; card_b; card_c])
         `sublist_of` (face <$> out).
Proof.
  apply (riffleShuffle_interleaves rising [card_a; card_b; card_c] 3).
  simpl; lia.
Defined.

(** X5.  The riffle recorder returns N + 1 records: one [split] record over
    all indices, then one [move] record per card.  Read in order, the move
    records describe the bulk riffle under the same draws: the card that
    the deck holds at the record's [fromPositions] index is the card that
    [riffleShuffle] puts at the record's [toPositions] index, and the
    [toPositions] count up from 0. *)
Theorem riffle_records_describe_bulk (rng : source) (deck : list Card)
    (fuel : nat) :
  length deck <= fuel ->
  exists split moves out,
    riffleShuffleSteps fuel rng deck = Some (split :: moves)
    /\ riffleShuffle fuel rng deck = Some (resetDeck out)
    /\ action split = act_split
    /\ cardIndices split = seq 0 (length deck)
    /\ length moves = length deck
    /\ Forall (fun m => action m = act_move
                        /\ cardIndices m = fromPositions m) moves
    /\ concat (toPositions <$> moves) = seq 0 (length deck)
    /\ Forall2 (fun i c => deck !! i = Some c)
         (concat (fromPositions <$> moves)) out.
Proof.
  intros Hfuel. unfold riffleShuffleSteps, riffleShuffle.
  set (sp := riffle_splitPoint rng (length deck)).
  match goal with
  | |- context [riffleSteps_loop _ _ _ _ _ _ _ _ _ _ [?s]] =>
      destruct (riffle_loops_agree rng deck sp fuel 1 0 0 [] 2 [s])
        as (out & moves & -> & -> & Hmv & Hpick & Hto & Hlen & Hout & HsubL & HsubR);
        [rewrite riffle_halves_length; lia|];
        exists s, moves, out
  end.
  rewrite riffle_halves_length in Hout.
  simpl. repeat split; trivial; try congruence.
  by rewrite Hto, Hout.
Qed.

Lemma riffle_records_describe_bulk_witness :
  exists split moves out,
    riffleShuffleSteps 2 always_half [card_a; card_b] = Some (split :: moves)
    /\ riffleShuffle 2 always_half [card_a; card_b] = Some (resetDeck out)
    /\ concat (fromPositions <$> moves) = [1; 0]
    /\ Forall2 (fun i c => [card_a; card_b] !! i = Some c)
         (concat (fromPositions <$> moves)) out.
Proof.
  destruct (riffle_records_describe_bulk always_half [card_a; card_b] 2)
    as (split & moves & out & H1 & H2 & _ & _ & _ & _ & _ & H8);
    [simpl; lia|].
  exists split, moves, out. repeat split; trivial.
  assert (Hs : riffleShuffleSteps 2 always_half [card_a; card_b]
               = Some (split :: moves)) by exact H1.
  vm_compute in Hs. by injection Hs as <- <-.
Defined.

(** ** Overhand and Hindu: their records *)

Lemma block_lookup (deck l : list Card) (a p : nat) :
  length l = p ->
  (forall i, i < p -> l !! i = deck !! (a + i)) ->
  Forall2 (fun i c => deck !! i = Some c) (seq a p) l.
Proof.
  intros Hlen Hl. apply Forall2_same_length_lookup_2.
  - by rewrite length_seq.
  - intros i x c Hx Hc. apply lookup_seq in Hx as [-> Hi].
    by rewrite <- Hl.
Qed.

Lemma offset_seq (a p : nat) : (fun i => a + i) <$> seq 0 p = seq a p.
Proof. pose proof (fmap_add_seq a 0 p) as H. by rewrite Nat.add_0_r in H. Qed.

Lemma concat_length_bounds {A} (m : nat) (ls : list (list A)) :
  Forall (fun l => 1 <= length l <= m) ls ->
  length ls <= length (concat ls) <= m * length ls.
Proof.
  induction 1 as [|l ls Hl _ IH]; simpl; [lia|].
  rewrite length_app. lia.
Qed.

Lemma overhand_loops_agree rng (deck : list Card) :
  forall fuel k n result cnt acc,
  length result = n -> length deck - n <= fuel ->
  exists out steps',
    overhand_loop fuel rng k (drop n deck) result = Some (out ++ result)
    /\ overhandSteps_loop fuel rng k (drop n deck) result cnt acc
       = Some (acc ++ steps')
    /\ Forall (fun s => action s = act_move
                        /\ cardIndices s = fromPositions s
                        /\ fromPositions s = seq 0 (length (toPositions s))
                        /\ 1 <= length (toPositions s) <= 7) steps'
    /\ concat (toPositions <$> steps') = seq n (length deck - n)
    /\ Forall2 (fun i c => deck !! i = Some c)
         (concat (reverse (toPositions <$> steps'))) out.
Proof.
  induction fuel as [|fuel IH]; intros k n result cnt acc Hres Hfuel.
  - exists [], []. simpl. rewrite length_drop.
    replace (length deck - n) with 0 by lia. simpl.
    rewrite app_nil_r. repeat split; constructor.
  - cbn [overhand_loop overhandSteps_loop]. rewrite length_drop.
    destruct (0 <? length deck - n) eqn:Hpos.
    2:{ apply Nat.ltb_ge in Hpos. exists [], [].
        replace (length deck - n) with 0 by lia. simpl.
        rewrite app_nil_r. repeat split; constructor. }
    apply Nat.ltb_lt in Hpos.
    set (g := Nat.min (length deck - n) (floor_times (rng k) 7 + 1)).
    assert (Hg : 1 <= g <= 7 /\ g <= length deck - n).
    { pose proof (floor_times_lt (rng k) 7 ltac:(lia)). subst g. lia. }
    assert (Hgroup : length (take g (drop n deck)) = g).
    { rewrite length_take, length_drop. lia. }
    match goal with
    | |- context [overhandSteps_loop _ _ _ _ _ _ (acc ++ [?s])] =>
        destruct (IH (S k) (n + g) (take g (drop n deck) ++ result)
                    (cnt + 1) (acc ++ [s]))
          as (out & steps' & Hrun & Hsteps & Hall & Hto & Hpick);
          [rewrite length_app; lia | lia |];
          exists (out ++ take g (drop n deck)), (s :: steps')
    end.
    rewrite drop_drop, Hrun, Hsteps, <- !app_assoc.
    split; [done|]. split; [done|].
    assert (Hseq : (fun i => length result + i) <$> seq 0 g = seq n g).
    { rewrite <- Hres. apply offset_seq. }
    split.
    { constructor; [|done]. simpl. rewrite length_fmap, length_seq.
      repeat split; lia. }
    split.
    { csimpl. rewrite Hto, Hseq.
      rewrite <- seq_app. f_equal. lia. }
    csimpl. rewrite reverse_cons, concat_app. simpl. rewrite app_nil_r.
    apply Forall2_app; [done|]. rewrite Hseq.
    apply block_lookup; [done|]. intros i Hi.
    by rewrite lookup_take_lt, lookup_drop.
Qed.

(** X6.  The overhand recorder returns one [move] record per group taken,
    between N / 7 and N records for N cards.  Each record lists the group
    by its indices in the working deck ([cardIndices = fromPositions
    = 0 .. g - 1], with 1 <= g <= 7) and holds in [toPositions] the indices
    that the group had in the original deck; these count up from 0 to
    N - 1 over the records.  The bulk overhand shuffle under the same draws
    is the deck with the order of the groups reversed: its cards are the
    cards at the [toPositions] of the last record, then of the record
    before it, and so on. *)
Theorem overhand_records_describe_bulk (rng : source) (deck : list Card)
    (fuel : nat) :
  length deck <= fuel ->
  exists steps out,
    overhandShuffleSteps fuel rng deck = Some steps
    /\ overhandShuffle fuel rng deck = Some (resetDeck out)
    /\ Forall (fun s => action s = act_move
                        /\ cardIndices s = fromPositions s
                        /\ fromPositions s = seq 0 (length (toPositions s))
                        /\ 1 <= length (toPositions s) <= 7) steps
    /\ concat (toPositions <$> steps) = seq 0 (length deck)
    /\ Forall2 (fun i c => deck !! i = Some c)
         (concat (reverse (toPositions <$> steps))) out
    /\ length steps <= length deck <= 7 * length steps.
Proof.
  intros Hfuel. unfold overhandShuffleSteps, overhandShuffle.
  destruct (overhand_loops_agree rng deck fuel 0 0 [] 1 [])
    as (out & steps & Hrun & Hsteps & Hall & Hto & Hpick); [done|lia|].
  rewrite drop_0 in Hrun, Hsteps. rewrite Hrun, Hsteps, app_nil_r.
  exists steps, out. simpl.
  rewrite Nat.sub_0_r in Hto.
  repeat split; trivial.
  - assert (H := concat_length_bounds 7 (toPositions <$> steps)).
    rewrite Hto, length_seq, length_fmap in H. apply H.
    apply Forall_fmap. eapply Forall_impl; [exact Hall|]. simpl. tauto.
  - assert (H := concat_length_bounds 7 (toPositions <$> steps)).
    rewrite Hto, length_seq, length_fmap in H. apply H.
    apply Forall_fmap. eapply Forall_impl; [exact Hall|]. simpl. tauto.
Qed.

Lemma overhand_records_describe_bulk_witness :
  exists steps out,
    overhandShuffleSteps 3 rising [card_a; card_b; card_c] = Some steps
    /\ overhandShuffle 3 rising [card_a; card_b; card_c] = Some (resetDeck out)
    /\ concat (toPositions <$> steps) = [0; 1; 2]
    /\ Forall2 (fun i c => [card_a; card_b; card_c] !! i = Some c)
         (concat (reverse (toPositions <$> steps))) out.
Proof.
  destruct (overhand_records_describe_bulk rising [card_a; card_b; card_c] 3)
    as (steps & out & H1 & H2 & _ & H4 & H5 & _); [simpl; lia|].
  exists steps, out. repeat split; trivial.
Defined.

Lemma hindu_loops_agree rng (deck : list Card) :
  forall fuel k n result cnt acc,
  n <= length deck -> n <= fuel ->
  exists out steps',
    hindu_loop fuel rng k (take n deck) result = Some (result ++ out)
    /\ hinduSteps_loop fuel rng k (take n deck) result cnt acc
       = Some (acc ++ steps')
    /\ Forall (fun s => action s = act_move
                        /\ cardIndices s = fromPositions s
                        /\ 1 <= length (fromPositions s) <= 6) steps'
    /\ concat (toPositions <$> steps') = seq (length result) n
    /\ concat (reverse (fromPositions <$> steps')) = seq 0 n
    /\ Forall2 (fun i c => deck !! i = Some c)
         (concat (fromPositions <$> steps')) out.
Proof.
  induction fuel as [|fuel IH]; intros k n result cnt acc Hn Hfuel.
  - exists [], []. replace n with 0 by lia. simpl.
    rewrite !app_nil_r. repeat split; constructor.
  - cbn [hindu_loop hinduSteps_loop]. rewrite length_take.
    replace (Nat.min n (length deck)) with n by lia.
    destruct (0 <? n) eqn:Hpos.
    2:{ apply Nat.ltb_ge in Hpos. exists [], [].
        replace n with 0 by lia. simpl.
        rewrite !app_nil_r. repeat split; constructor. }
    apply Nat.ltb_lt in Hpos.
    set (p := Nat.min n (floor_times (rng k) 6 + 1)).
    assert (Hp : 1 <= p <= 6 /\ p <= n).
    { pose proof (floor_times_lt (rng k) 6 ltac:(lia)). subst p. lia. }
    assert (Hpacket : length (drop (n - p) (take n deck)) = p).
    { rewrite length_drop, length_take. lia. }
    assert (Hrest : take (n - p) (take n deck) = take (n - p) deck).
    { rewrite take_take. f_equal. lia. }
    match goal with
    | |- context [hinduSteps_loop _ _ _ _ _ _ (acc ++ [?s])] =>
        destruct (IH (S k) (n - p) (result ++ drop (n - p) (take n deck))
                    (cnt + 1) (acc ++ [s]))
          as (out & steps' & Hrun & Hsteps & Hall & Hto & Hfrom & Hpick);
          [lia | lia |];
          exists (drop (n - p) (take n deck) ++ out), (s :: steps')
    end.
    rewrite Hrest, Hrun, Hsteps, <- !app_assoc.
    split; [done|]. split; [done|].
    assert (Hseq : (fun i => n - p + i) <$> seq 0 p = seq (n - p) p).
    { apply offset_seq. }
    assert (Hseq' : (fun i => length result + i) <$> seq 0 p
                    = seq (length result) p).
    { apply offset_seq. }
    split.
    { constructor; [|done]. simpl. rewrite length_fmap, length_seq.
      repeat split; lia. }
    split.
    { csimpl. rewrite Hto, Hseq', length_app, Hpacket.
      rewrite <- seq_app. f_equal. lia. }
    split.
    { csimpl. rewrite reverse_cons, concat_app. simpl.
      rewrite app_nil_r, Hfrom, Hseq. simpl.
      rewrite <- seq_app. f_equal. lia. }
    csimpl. apply Forall2_app; [|done]. rewrite Hseq.
    apply block_lookup; [done|]. intros i Hi.
    rewrite lookup_drop, lookup_take_lt by lia. done.
Qed.

(** X7.  The Hindu recorder returns one [move] record per packet, between
    N / 6 and N records for N cards, each over 1 to 6 indices of the
    original deck ([cardIndices = fromPositions]).  The packets are cut from
    the end of the deck towards its start: the [fromPositions] of the
    records, taken from the last record to the first, count up from 0 to
    N - 1.  Read in order, the records describe the bulk Hindu shuffle under
    the same draws: the card that the deck holds at a [fromPositions] index
    is the card that [hinduShuffle] puts at the matching [toPositions]
    index, and the [toPositions] count up from 0. *)
Theorem hindu_records_describe_bulk (rng : source) (deck : list Card)
    (fuel : nat) :
  length deck <= fuel ->
  exists steps out,
    hinduShuffleSteps fuel rng deck = Some steps
    /\ hinduShuffle fuel rng deck = Some (resetDeck out)
    /\ Forall (fun s => action s = act_move
                        /\ cardIndices s = fromPositions s
                        /\ 1 <= length (fromPositions s) <= 6) steps
    /\ concat (toPositions <$> steps) = seq 0 (length deck)
    /\ concat (reverse (fromPositions <$> steps)) = seq 0 (length deck)
    /\ Forall2 (fun i c => deck !! i = Some c)
         (concat (fromPositions <$> steps)) out
    /\ length steps <= length deck <= 6 * length steps.
Proof.
  intros Hfuel. unfold hinduShuffleSteps, hinduShuffle.
  destruct (hindu_loops_agree rng deck fuel 0 (length deck) [] 1 [])
    as (out & steps & Hrun & Hsteps & Hall & Hto & Hfrom & Hpick); [done|lia|].
  rewrite firstn_all in Hrun, Hsteps. rewrite Hrun, Hsteps.
  exists steps, out. simpl. simpl in Hto.
  assert (H := concat_length_bounds 6 (reverse (fromPositions <$> steps))).
  rewrite Hfrom, length_seq, length_reverse, length_fmap in H.
  repeat split; trivial; apply H; apply Forall_reverse, Forall_fmap;
    (eapply Forall_impl; [exact Hall|]); simpl; tauto.
Qed.

Lemma hindu_records_describe_bulk_witness :
  exists steps out,
    hinduShuffleSteps 3 rising [card_a; card_b; card_c] = Some steps
    /\ hinduShuffle 3 rising [card_a; card_b; card_c] = Some (resetDeck out)
    /\ concat (reverse (fromPositions <$> steps)) = [0; 1; 2]
    /\ Forall2 (fun i c => [card_a; card_b; card_c] !! i = Some c)
         (concat (fromPositions <$> steps)) out.
Proof.
  destruct (hindu_records_describe_bulk rising [card_a; card_b; card_c] 3)
    as (steps & out & H1 & H2 & _ & _ & H5 & H6 & _); [simpl; lia|].
  exists steps, out. repeat split; trivial.
Defined.

(** ** What the shuffles and the recorders read of a deck *)

Lemma same_cards_lookup (l l' : list Card) i :
  same_cards l l' -> face <$> l !! i = face <$> l' !! i.
Proof. intros H. by rewrite <- !list_lookup_fmap, H. Qed.

Lemma same_cards_length (l l' : list Card) :
  same_cards l l' -> length l = length l'.
Proof.
  intros H. apply (f_equal length) in H. by rewrite !length_fmap in H.
Qed.

Lemma restamp_same_cards (l l' : list Card) :
  same_cards l l' ->
  imap (fun index card => restamp index false card) l
  = imap (fun index card => restamp index false card) l'.
Proof.
  intros H. apply list_eq. intros i.
  rewrite !(restamp_lookup (fun _ => false)).
  pose proof (same_cards_lookup l l' i H) as Hi.
  destruct (l !! i) as [c|], (l' !! i) as [c'|]; simpl in *; try done.
  unfold face in Hi. injection Hi as Hid Hsuit Hrank.
  unfold restamp. by rewrite Hid, Hsuit, Hrank.
Qed.

Lemma same_cards_snoc (l l' : list Card) c c' :
  same_cards l l' -> face c = face c' -> same_cards (l ++ [c]) (l' ++ [c']).
Proof. unfold same_cards. intros H Hc. by rewrite !fmap_app, H; simpl; rewrite Hc. Qed.

Lemma fisherYates_loop_same_cards rng i k (deck deck' : list Card) :
  same_cards deck deck' ->
  same_cards (fisherYates_loop rng k i deck) (fisherYates_loop rng k i deck').
Proof.
  unfold same_cards. intros H.
  by rewrite !fisherYates_loop_exchanges, !exchanges_fmap, H.
Qed.

Lemma riffle_loop_same_cards rng :
  forall fuel k li ri (L L' R R' res res' : list Card),
  same_cards L L' -> same_cards R R' -> same_cards res res' ->
  option_Forall2 same_cards
    (riffle_loop fuel rng k L R li ri res)
    (riffle_loop fuel rng k L' R' li ri res').
Proof.
  induction fuel as [|fuel IH]; intros k li ri L L' R R' res res' HL HR Hres;
    cbn [riffle_loop]; unfold takeFromLeft;
    rewrite <- (same_cards_length L L' HL), <- (same_cards_length R R' HR);
    (destruct ((li <? length L) || (ri <? length R)); [|by constructor]);
    [constructor|].
  destruct (if li <? length L
            then if length R <=? ri then (true, k)
                 else (below_half (rng k), S k)
            else (false, k)) as [[|] k'].
  - pose proof (same_cards_lookup L L' li HL) as Hl.
    destruct (L !! li) as [c|], (L' !! li) as [c'|]; simpl in *;
      try discriminate.
    + apply IH; trivial. apply same_cards_snoc; [done|congruence].
    + constructor.
  - pose proof (same_cards_lookup R R' ri HR) as Hl.
    destruct (R !! ri) as [c|], (R' !! ri) as [c'|]; simpl in *;
      try discriminate.
    + apply IH; trivial. apply same_cards_snoc; [done|congruence].
    + constructor.
Qed.

Lemma overhand_loop_same_cards rng :
  forall fuel k (w w' res res' : list Card),
  same_cards w w' -> same_cards res res' ->
  option_Forall2 same_cards
    (overhand_loop fuel rng k w res) (overhand_loop fuel rng k w' res').
Proof.
  induction fuel as [|fuel IH]; intros k w w' res res' Hw Hres;
    cbn [overhand_loop]; rewrite <- (same_cards_length w w' Hw);
    (destruct (0 <? length w); [|by constructor]); [constructor|].
  apply IH; unfold same_cards in *.
  - by rewrite !fmap_drop, Hw.
  - by rewrite !fmap_app, !fmap_take, Hw, Hres.
Qed.

Lemma hindu_loop_same_cards rng :
  forall fuel k (w w' res res' : list Card),
  same_cards w w' -> same_cards res res' ->
  option_Forall2 same_cards
    (hindu_loop fuel rng k w res) (hindu_loop fuel rng k w' res').
Proof.
  induction fuel as [|fuel IH]; intros k w w' res res' Hw Hres;
    cbn [hindu_loop]; rewrite <- (same_cards_length w w' Hw);
    (destruct (0 <? length w); [|by constructor]); [constructor|].
  apply IH; unfold same_cards in *.
  - by rewrite !fmap_take, Hw.
  - by rewrite !fmap_app, !fmap_drop, Hw, Hres.
Qed.

Lemma restamped_same_cards (o o' : option (list Card)) :
  option_Forall2 same_cards o o' ->
  (result ← o; Some (imap (fun index card => restamp index false card) result))
  = (result ← o'; Some (imap (fun index card => restamp index false card) result)).
Proof.
  destruct 1 as [l l' H|]; [|done]. simpl. f_equal.
  by apply restamp_same_cards.
Qed.

(** X8.  The four bulk shuffles read the cards of the deck and their order
    only: two decks that hold the same cards in the same order, whatever the
    [position] and [isHighlighted] fields, are shuffled into the same deck
    by the same draws.  So shuffling a deck, the reset deck or the deck with
    its highlights cleared gives one result. *)
Theorem bulk_shuffles_read_cards_only (rng : source) (fuel : nat)
    (deck deck' : list Card) :
  same_cards deck deck' ->
  fisherYatesShuffle rng deck = fisherYatesShuffle rng deck'
  /\ riffleShuffle fuel rng deck = riffleShuffle fuel rng deck'
  /\ overhandShuffle fuel rng deck = overhandShuffle fuel rng deck'
  /\ hinduShuffle fuel rng deck = hinduShuffle fuel rng deck'.
Proof.
  intros H. pose proof (same_cards_length deck deck' H) as Hlen.
  split; [|split; [|split]].
  - unfold fisherYatesShuffle. rewrite <- Hlen.
    by apply restamp_same_cards, fisherYates_loop_same_cards.
  - unfold riffleShuffle. rewrite <- Hlen.
    apply restamped_same_cards, riffle_loop_same_cards; unfold same_cards in *.
    + by rewrite !fmap_take, H.
    + by rewrite !fmap_drop, H.
    + done.
  - unfold overhandShuffle.
    by apply restamped_same_cards, overhand_loop_same_cards.
  - unfold hinduShuffle.
    by apply restamped_same_cards, hindu_loop_same_cards.
Qed.

Lemma bulk_shuffles_read_cards_only_witness :
  fisherYatesShuffle rising (resetDeck [card_c; card_a; card_b])
    = fisherYatesShuffle rising [card_c; card_a; card_b]
  /\ riffleShuffle 3 rising (resetDeck [card_c; card_a; card_b])
     = riffleShuffle 3 rising [card_c; card_a; card_b]
  /\ overhandShuffle 3 rising (resetDeck [card_c; card_a; card_b])
     = overhandShuffle 3 rising [card_c; card_a; card_b]
  /\ hinduShuffle 3 rising (resetDeck [card_c; card_a; card_b])
     = hinduShuffle 3 rising [card_c; card_a; card_b].
Proof.
  apply (bulk_shuffles_read_cards_only rising 3). reflexivity.
Defined.

Lemma fisherYatesSteps_loop_length_only rng i :
  forall k (w w' : list Card) acc,
  fisherYatesSteps_loop rng k i w acc = fisherYatesSteps_loop rng k i w' acc.
Proof.
  induction i as [|i IH]; intros k w w' acc; [done|].
  cbn [fisherYatesSteps_loop]. apply IH.
Qed.

Lemma riffleSteps_loop_length_only rng sp :
  forall fuel k li ri (L L' R R' res res' : list Card) cnt acc,
  length L = length L' -> length R = length R' -> length res = length res' ->
  riffleSteps_loop fuel rng k sp L R li ri res cnt acc
  = riffleSteps_loop fuel rng k sp L' R' li ri res' cnt acc.
Proof.
  induction fuel as [|fuel IH];
    intros k li ri L L' R R' res res' cnt acc HL HR Hres;
    cbn [riffleSteps_loop]; unfold takeFromLeft; rewrite <- HL, <- HR;
    (destruct ((li <? length L) || (ri <? length R)); [|done]); [done|].
  destruct (if li <? length L
            then if length R <=? ri then (true, k)
                 else (below_half (rng k), S k)
            else (false, k)) as [[|] k'].
  - destruct (L !! li) as [c|] eqn:Hc, (L' !! li) as [c'|] eqn:Hc'; simpl.
    + rewrite !length_app, Hres. simpl. apply IH; trivial.
      rewrite !length_app. simpl. lia.
    + apply lookup_lt_Some in Hc. apply lookup_ge_None in Hc'. lia.
    + apply lookup_lt_Some in Hc'. apply lookup_ge_None in Hc. lia.
    + done.
  - destruct (R !! ri) as [c|] eqn:Hc, (R' !! ri) as [c'|] eqn:Hc'; simpl.
    + rewrite !length_app, Hres. simpl. apply IH; trivial.
      rewrite !length_app. simpl. lia.
    + apply lookup_lt_Some in Hc. apply lookup_ge_None in Hc'. lia.
    + apply lookup_lt_Some in Hc'. apply lookup_ge_None in Hc. lia.
    + done.
Qed.

Lemma overhandSteps_loop_length_only rng :
  forall fuel k (w w' res res' : list Card) cnt acc,
  length w = length w' -> length res = length res' ->
  overhandSteps_loop fuel rng k w res cnt acc
  = overhandSteps_loop fuel rng k w' res' cnt acc.
Proof.
  induction fuel as [|fuel IH]; intros k w w' res res' cnt acc Hw Hres;
    cbn [overhandSteps_loop]; rewrite <- ?Hw, <- ?Hres;
    (destruct (0 <? length w); [|done]); [done|].
  apply IH.
  - rewrite !length_drop. lia.
  - rewrite !length_app, !length_take. lia.
Qed.

Lemma hinduSteps_loop_length_only rng :
  forall fuel k (w w' res res' : list Card) cnt acc,
  length w = length w' -> length res = length res' ->
  hinduSteps_loop fuel rng k w res cnt acc
  = hinduSteps_loop fuel rng k w' res' cnt acc.
Proof.
  induction fuel as [|fuel IH]; intros k w w' res res' cnt acc Hw Hres;
    cbn [hinduSteps_loop]; rewrite <- ?Hw, <- ?Hres;
    (destruct (0 <? length w); [|done]); [done|].
  apply IH.
  - rewrite !length_take. lia.
  - rewrite !length_app, !length_drop. lia.
Qed.

(** X9.  The four recorders read the length of the deck only: under the
    same draws they return the same records, descriptions included, for any
    two decks of the same length. *)
Theorem recorders_read_length_only (rng : source) (fuel : nat)
    (deck deck' : list Card) :
  length deck = length deck' ->
  fisherYatesShuffleSteps rng deck = fisherYatesShuffleSteps rng deck'
  /\ riffleShuffleSteps fuel rng deck = riffleShuffleSteps fuel rng deck'
  /\ overhandShuffleSteps fuel rng deck = overhandShuffleSteps fuel rng deck'
  /\ hinduShuffleSteps fuel rng deck = hinduShuffleSteps fuel rng deck'.
Proof.
  intros Hlen. split; [|split; [|split]].
  - unfold fisherYatesShuffleSteps. rewrite <- Hlen.
    apply fisherYatesSteps_loop_length_only.
  - unfold riffleShuffleSteps. rewrite <- Hlen, !length_take, !length_drop, <- Hlen.
    apply riffleSteps_loop_length_only; trivial.
    + rewrite !length_take. lia.
    + rewrite !length_drop. lia.
  - by apply overhandSteps_loop_length_only.
  - by apply hinduSteps_loop_length_only.
Qed.

Lemma recorders_read_length_only_witness :
  fisherYatesShuffleSteps rising [card_a; card_b]
    = fisherYatesShuffleSteps rising [card_c; card_c]
  /\ riffleShuffleSteps 2 rising [card_a; card_b]
     = riffleShuffleSteps 2 rising [card_c; card_c]
  /\ overhandShuffleSteps 2 rising [card_a; card_b]
     = overhandShuffleSteps 2 rising [card_c; card_c]
  /\ hinduShuffleSteps 2 rising [card_a; card_b]
     = hinduShuffleSteps 2 rising [card_c; card_c].
Proof.
  apply (recorders_read_length_only rising 2). reflexivity.
Defined.

(** ** The records of Fisher-Yates *)

Lemma fisherYatesSteps_loop_records rng i : forall k (w : list Card) acc,
  exists recorded,
    fisherYatesSteps_loop rng k i w acc = acc ++ recorded
    /\ (fun s => (action s, cardIndices s, fromPositions s, toPositions s))
         <$> recorded
       = zip_with (fun i j => (act_swap, [i; j], [i; j], [j; i]))
           (reverse (seq 1 i)) (fisherYates_draws rng k i)
    /\ description <$> recorded
       = zip_with (fun n '(i, j) =>
                     "Step " +:+ pretty n +:+ ": Swap card at position "
                     +:+ pretty i +:+ " with card at position " +:+ pretty j)
           (seq (length acc + 1) i)
           (zip (reverse (seq 1 i)) (fisherYates_draws rng k i)).
Proof.
  induction i as [|i IH]; intros k w acc.
  - exists []. by rewrite app_nil_r.
  - cbn [fisherYatesSteps_loop fisherYates_draws].
    match goal with
    | |- context [fisherYatesSteps_loop _ _ _ _ (acc ++ [?s])] =>
        destruct (IH (S k) (swap w (S i) (floor_times (rng k) (S i + 1)))
                    (acc ++ [s])) as (recorded & -> & Hrec & Hdesc);
          exists (s :: recorded)
    end.
    rewrite <- app_assoc. split; [done|].
    replace (seq 1 (S i)) with (seq 1 i ++ [S i])
      by (by rewrite seq_S).
    rewrite reverse_snoc. csimpl. rewrite Hrec, Hdesc.
    split; [done|]. rewrite length_app. simpl.
    repeat f_equal; lia.
Qed.

(** X10.  The Fisher-Yates recorder returns N - 1 records (none for a deck
    of fewer than two cards).  The k-th record is a [swap] of the index
    [i = N - k] with the index [j] that the bulk loop draws for it, an
    index of [[0, i]]; it has [cardIndices = fromPositions = [i, j]] and
    [toPositions = [j, i]], the reverse pairing, and its description is
    numbered [k]. *)
Theorem fisherYates_records (rng : source) (deck : list Card) :
  let top := length deck - 1 in
  let draws := fisherYates_draws rng 0 top in
  let steps := fisherYatesShuffleSteps rng deck in
  length steps = top
  /\ draws ∈ index_traces top
  /\ (fun s => (action s, cardIndices s, fromPositions s, toPositions s))
       <$> steps
     = zip_with (fun i j => (act_swap, [i; j], [i; j], [j; i]))
         (reverse (seq 1 top)) draws
  /\ description <$> steps
     = zip_with (fun n '(i, j) =>
                   "Step " +:+ pretty n +:+ ": Swap card at position "
                   +:+ pretty i +:+ " with card at position " +:+ pretty j)
         (seq 1 top) (zip (reverse (seq 1 top)) draws)
  /\ Forall (fun s => toPositions s = reverse (fromPositions s)) steps.
Proof.
  intros top draws steps. subst steps. unfold fisherYatesShuffleSteps.
  fold top.
  destruct (fisherYatesSteps_loop_records rng top 0 deck [])
    as (recorded & -> & Hrec & Hdesc).
  rewrite app_nil_l. fold draws in Hrec, Hdesc.
  assert (Hdraws : length draws = top).
  { subst draws. clear. generalize 0. induction top as [|i IH]; intros k;
      [done|]. simpl. by rewrite IH. }
  assert (Hlen : length recorded = top).
  { apply (f_equal length) in Hrec.
    rewrite length_fmap, length_zip_with, length_reverse, length_seq in Hrec.
    lia. }
  split; [done|]. split; [apply fisherYates_draws_in_traces|].
  split; [done|]. split; [done|].
  apply Forall_lookup. intros n s Hs.
  assert (Hn : ((fun s => (action s, cardIndices s, fromPositions s,
                           toPositions s)) <$> recorded) !! n
               = Some (action s, cardIndices s, fromPositions s,
                       toPositions s))
    by (by rewrite list_lookup_fmap, Hs).
  rewrite Hrec in Hn. apply lookup_zip_with_Some in Hn
    as (i & j & Heq & _ & _).
  by injection Heq as _ _ -> ->.
Qed.

(** ** The state of a shuffled deck *)

(** X11.  Each of the four bulk shuffles returns a deck in which every card
    has its index as [position] and no card is highlighted, whatever these
    fields were in the deck it was given: resetting the result changes
    nothing. *)
Theorem bulk_shuffles_normalize (rng : source) (deck : list Card) (fuel : nat) :
  length deck <= fuel ->
  (normalized (fisherYatesShuffle rng deck)
   /\ resetDeck (fisherYatesShuffle rng deck) = fisherYatesShuffle rng deck)
  /\ (exists out, riffleShuffle fuel rng deck = Some out
        /\ normalized out /\ resetDeck out = out)
  /\ (exists out, overhandShuffle fuel rng deck = Some out
        /\ normalized out /\ resetDeck out = out)
  /\ (exists out, hinduShuffle fuel rng deck = Some out
        /\ normalized out /\ resetDeck out = out).
Proof.
  intros Hfuel.
  assert (Hnorm : forall l : list Card,
    normalized (imap (fun index card => restamp index false card) l)
    /\ resetDeck (imap (fun index card => restamp index false card) l)
       = imap (fun index card => restamp index false card) l).
  { intros l. split; [apply normalized_restamp|].
    apply normalized_resetDeck, normalized_restamp. }
  split; [apply Hnorm|]. split; [|split].
  - unfold riffleShuffle.
    set (sp := riffle_splitPoint rng (length deck)).
    destruct (riffle_loop_interleaves rng (take sp deck) (drop sp deck)
                fuel 1 0 0 []) as (out & -> & _).
    { rewrite riffle_halves_length. lia. }
    eexists. split; [reflexivity|]. apply Hnorm.
  - unfold overhandShuffle.
    destruct (overhand_loop_regroups rng fuel 0 deck [] Hfuel)
      as (out & -> & _).
    eexists. split; [reflexivity|]. apply Hnorm.
  - unfold hinduShuffle.
    destruct (hindu_loop_regroups rng fuel 0 deck [] Hfuel)
      as (out & -> & _).
    eexists. split; [reflexivity|]. apply Hnorm.
Qed.

Lemma bulk_shuffles_normalize_witness :
  normalized (fisherYatesShuffle rising [card_c; card_c; card_a])
  /\ exists out, hinduShuffle 3 rising [card_c; card_c; card_a] = Some out
       /\ normalized out /\ resetDeck out = out.
Proof.
  destruct (bulk_shuffles_normalize rising [card_c; card_c; card_a] 3)
    as ([H1 _] & _ & _ & H4); [simpl; lia|].
  split; [exact H1 | exact H4].
Defined.

(** ** Applying a record twice, and to any array *)

Lemma applyShuffleStep_highlight_only (deck : list slot) (step : ShuffleStep) :
  is_exchange step = false ->
  applyShuffleStep deck step
  = imap (fun index s =>
            stamp_slot index (bool_decide (index ∈ cardIndices step)) s)
      (js_spread deck).
Proof.
  unfold is_exchange, applyShuffleStep. intros Hx.
  destruct (action step); trivial.
  by destruct (cardIndices step) as [|? [|? [|? ?]]].
Qed.

Lemma swap_involutive {A} (a : list A) i j :
  i < length a -> j < length a -> swap (swap a i j) i j = a.
Proof.
  intros Hi Hj. apply list_eq. intros n.
  rewrite !swap_lookup by (rewrite ?length_swap; lia).
  by rewrite transpose_involutive.
Qed.

(** X12.  A record that is no two-index swap only sets the highlights and
    positions: applying it a second time changes nothing, on any array.
    A two-index swap inside a well-typed deck undoes itself: applied twice,
    it leaves every card where it was, with the two indices highlighted. *)
Theorem applyShuffleStep_twice (step : ShuffleStep) :
  (forall deck : list slot,
      is_exchange step = false ->
      applyShuffleStep (applyShuffleStep deck step) step
      = applyShuffleStep deck step)
  /\ (forall (deck : list Card) i j,
        action step = act_swap -> cardIndices step = [i; j] ->
        i < length deck -> j < length deck ->
        applyShuffleStep (applyShuffleStep (Full <$> deck) step) step
        = Full <$> imap (fun index card =>
                           restamp index (bool_decide (index ∈ [i; j])) card)
                     deck).
Proof.
  split.
  - intros deck Hx. rewrite !applyShuffleStep_highlight_only by done.
    apply list_eq. intros n. unfold js_spread.
    rewrite !list_lookup_imap, !list_lookup_fmap, list_lookup_imap,
      list_lookup_fmap.
    by destruct (deck !! n) as [[]|].
  - intros deck i j Ha Hc Hi Hj.
    assert (Hin : Forall (fun n => n < length deck) (cardIndices step))
      by (rewrite Hc; repeat constructor; lia).
    rewrite (applyShuffleStep_Full deck step Hin).
    assert (Hre : forall l : list Card, reordered l step = swap l i j)
      by (intros l; unfold reordered; by rewrite Ha, Hc).
    rewrite applyShuffleStep_Full
      by (rewrite length_imap, Hre, length_swap; done).
    rewrite !Hre, Hc. f_equal. apply list_eq. intros n.
    rewrite !list_lookup_imap.
    rewrite swap_lookup by (rewrite length_imap, length_swap; lia).
    rewrite list_lookup_imap, swap_lookup by lia.
    rewrite transpose_involutive.
    by destruct (deck !! n).
Qed.

Lemma applyShuffleStep_twice_witness :
  applyShuffleStep (applyShuffleStep (Full <$> [card_a; card_b; card_c])
                      swap_0_2) swap_0_2
  = [Full (restamp 0 true card_a); Full (restamp 1 false card_b);
     Full (restamp 2 true card_c)].
Proof.
  destruct (applyShuffleStep_twice swap_0_2) as [_ H].
  rewrite (H [card_a; card_b; card_c] 2 0 eq_refl eq_refl)
    by (simpl; lia).
  reflexivity.
Defined.

Lemma cards_of_replicate_Hole n : cards_of (replicate n Hole) = [].
Proof. induction n as [|n IH]; [done|]. simpl. apply IH. Qed.

Lemma cards_of_js_read_Some (deck : list slot) i x :
  deck !! i = Some x -> cards_of [js_read deck i] = cards_of [x].
Proof. intros H. unfold js_read. rewrite H. by destruct x. Qed.

Lemma cards_of_js_read_None (deck : list slot) i :
  deck !! i = None -> cards_of [js_read deck i] = [].
Proof. intros H. unfold js_read. by rewrite H. Qed.

(** The cards before and after a store at an array index: the store
    replaces what was read at the index by what is written. *)
Lemma cards_of_js_write (deck : list slot) i v :
  is_array_index i = true ->
  cards_of (js_write deck i v) ++ cards_of [js_read deck i]
  ≡ₚ cards_of deck ++ cards_of [v].
Proof.
  intros Hi. unfold cards_of at 1 3. unfold js_write. rewrite Hi.
  destruct (i <? length deck) eqn:E.
  - apply Nat.ltb_lt in E.
    destruct (lookup_lt_is_Some_2 deck i E) as [x Hx].
    rewrite (cards_of_js_read_Some deck i x Hx).
    rewrite insert_take_drop by done.
    rewrite <- (take_drop_middle deck i x Hx) at 3.
    change (v :: drop (S i) deck) with ([v] ++ drop (S i) deck).
    change (x :: drop (S i) deck) with ([x] ++ drop (S i) deck).
    unfold cards_of. rewrite !omap_app.
    solve_Permutation.
  - apply Nat.ltb_ge in E.
    rewrite (cards_of_js_read_None deck i) by (by apply lookup_ge_None).
    rewrite !omap_app. fold (cards_of (replicate (i - length deck) Hole)).
    by rewrite cards_of_replicate_Hole, app_nil_r.
Qed.

Lemma cards_of_read_after_write (deck : list slot) i1 i2 v :
  is_array_index i1 = true -> v <> Hole ->
  cards_of [js_read (js_write deck i1 v) i2]
  = if decide (i1 = i2) then cards_of [v] else cards_of [js_read deck i2].
Proof.
  intros Hi Hv. unfold js_write. rewrite Hi.
  destruct (i1 <? length deck) eqn:E.
  - apply Nat.ltb_lt in E. case_decide as Heq.
    + subst i2. unfold js_read.
      rewrite list_lookup_insert_eq by done. by destruct v.
    + unfold js_read. by rewrite list_lookup_insert_ne.
  - apply Nat.ltb_ge in E. case_decide as Heq.
    + subst i2. unfold js_read.
      rewrite lookup_app_r by lia.
      rewrite lookup_app_r by (rewrite length_replicate; lia).
      rewrite length_replicate, Nat.sub_diag. simpl. by destruct v.
    + destruct (decide (i2 < length deck)) as [Hin|Hout].
      * unfold js_read. by rewrite lookup_app_l.
      * rewrite (cards_of_js_read_None deck i2)
          by (apply lookup_ge_None; lia).
        unfold js_read. rewrite lookup_app_r by lia.
        destruct (decide (i2 - length deck < i1 - length deck)) as [Hl|Hl].
        -- rewrite lookup_app_l by (by rewrite length_replicate).
           by rewrite lookup_replicate_2.
        -- rewrite lookup_app_r by (rewrite length_replicate; lia).
           rewrite length_replicate.
           destruct (i2 - length deck - (i1 - length deck)) as [|m] eqn:Em;
             [lia|]. done.
Qed.

Lemma js_read_not_Hole (deck : list slot) i : js_read deck i <> Hole.
Proof. unfold js_read. by destruct (deck !! i) as [[]|]. Qed.

Lemma cards_of_spread (deck : list slot) : cards_of (js_spread deck) = cards_of deck.
Proof.
  induction deck as [|s deck IH]; [done|].
  unfold cards_of, js_spread in *. destruct s; csimpl; by rewrite IH.
Qed.

Lemma cards_of_imap (g : nat -> slot -> slot) (deck : list slot) :
  (forall i s, slot_face (g i s) = slot_face s) ->
  cards_of (imap g deck) = cards_of deck.
Proof.
  unfold cards_of. revert g. induction deck as [|s deck IH]; intros g Hg; [done|].
  rewrite imap_cons. csimpl. rewrite Hg, IH; [done|].
  intros i s'. apply Hg.
Qed.

Lemma cards_of_stamp (h : nat -> bool) (deck : list slot) :
  cards_of (imap (fun index s => stamp_slot index (h index) s) deck)
  = cards_of deck.
Proof. apply cards_of_imap. intros. apply slot_face_stamp. Qed.

Lemma length_js_write (deck : list slot) i v :
  length deck <= length (js_write deck i v).
Proof.
  unfold js_write. destruct (i <? length deck).
  - by rewrite length_insert.
  - destruct (is_array_index i); [|done]. rewrite length_app. lia.
Qed.

(** X13.  Whatever the array and whatever the record whose indices are
    array indices (any action, any integers from 0 to [2^32 - 2], inside
    the array or past its end), [applyShuffleStep] loses no card and makes
    no card twice: the cards of the result are the cards of the array, in
    some order, and the result is at least as long as the array. *)
Theorem applyShuffleStep_keeps_cards (deck : list slot) (step : ShuffleStep) :
  Forall (fun i => is_array_index i = true) (cardIndices step) ->
  cards_of (applyShuffleStep deck step) ≡ₚ cards_of deck
  /\ length deck <= length (applyShuffleStep deck step).
Proof.
  intros Hidx. unfold applyShuffleStep.
  rewrite (cards_of_stamp (fun index => bool_decide (index ∈ cardIndices step))).
  rewrite length_imap.
  assert (Hsp : length (js_spread deck) = length deck)
    by (unfold js_spread; apply length_fmap).
  destruct (action step);
    try (rewrite cards_of_spread, Hsp; split; [done|lia]).
  destruct (cardIndices step) as [|i1 [|i2 [|? ?]]];
    try (rewrite cards_of_spread, Hsp; split; [done|lia]).
  apply Forall_cons in Hidx as [Hi1 Hidx].
  apply Forall_cons in Hidx as [Hi2 _].
  split.
  - set (d := js_spread deck).
    pose proof (cards_of_js_write (js_write d i1 (js_read d i2)) i2
                  (js_read d i1) Hi2) as H2.
    pose proof (cards_of_js_write d i1 (js_read d i2) Hi1) as H1.
    rewrite H1 in H2.
    rewrite (cards_of_read_after_write d i1 i2 (js_read d i2) Hi1
               (js_read_not_Hole d i2)) in H2.
    assert (Hsame : (if decide (i1 = i2) then cards_of [js_read d i2]
                     else cards_of [js_read d i2])
                    = cards_of [js_read d i2]) by (by case_decide).
    rewrite Hsame in H2.
    apply Permutation_app_inv_r in H2.
    rewrite H2. subst d. by rewrite cards_of_spread.
  - etrans; [|apply length_js_write]. etrans; [|apply length_js_write]. lia.
Qed.

Lemma applyShuffleStep_keeps_cards_witness :
  cards_of (applyShuffleStep (Full <$> [card_a; card_b]) swap_0_5)
  ≡ₚ cards_of (Full <$> [card_a; card_b])
  /\ length (Full <$> [card_a; card_b])
     <= length (applyShuffleStep (Full <$> [card_a; card_b]) swap_0_5).
Proof.
  apply (applyShuffleStep_keeps_cards (Full <$> [card_a; card_b]) swap_0_5).
  repeat constructor.
Defined.

(** ** The displacement score: its range and its zero *)

Lemma displacement_loop_bounds (shuffledDeck : list Card) :
  forall rest i displacedCards totalDisplacement,
  let '(displaced, total) :=
    displacement_loop shuffledDeck i rest displacedCards totalDisplacement in
  (displacedCards <= displaced <= displacedCards + Z.of_nat (length rest))%Z
  /\ (totalDisplacement <= total)%Z.
Proof.
  induction rest as [|c rest IH]; intros i dc td; [simpl; lia|].
  cbn [displacement_loop length]. case_bool_decide.
  - specialize (IH (i + 1) (dc + 1)%Z
      (td + Z.abs (findIndex_id shuffledDeck (id c) - Z.of_nat i))%Z).
    destruct (displacement_loop _ _ _ _ _) as [displaced total]. lia.
  - specialize (IH (i + 1) dc td).
    destruct (displacement_loop _ _ _ _ _) as [displaced total]. lia.
Qed.

Lemma Math_round_range (x : Q) (lo hi : Z) :
  (inject_Z lo <= x <= inject_Z hi)%Q -> (lo <= Math_round x <= hi)%Z.
Proof.
  intros [Hlo Hhi]. unfold Math_round. split.
  - rewrite <- (Qfloor_Z lo). apply Qfloor_resp_le. Lqa.lra.
  - assert (H : (Qfloor (x + (1 # 2)) < hi + 1)%Z); [|lia].
    rewrite Zlt_Qlt. pose proof (Qfloor_le (x + (1 # 2))) as Hf.
    rewrite inject_Z_plus. change (inject_Z 1) with 1%Q. Lqa.lra.
Qed.

(** Rounding is monotone and leaves 1 and 100 as they are, and the doubles
    of 0.6 and 0.4 add up to 1: the value given to [Math.round] stays in
    [[0, 100]]. *)
Lemma binary64_score_range (p t n : Z) :
  (0 <= p <= n)%Z -> (0 <= t)%Z -> (1 <= n)%Z ->
  (0 <= binary64_score (inject_Z p) (inject_Z t) (inject_Z n) <= 100)%Q.
Proof.
  intros Hp Ht Hn. unfold binary64_score, double_mul, double_add, double_div.
  pose proof (inject_Z_pos n ltac:(lia)) as Hn0.
  assert (H53 : (1 < 2 ^ 53)%Z) by done.
  assert (H100 : (100 < 2 ^ 53)%Z) by done.
  set (ps := fl (inject_Z p / inject_Z n)).
  assert (Hps : (0 <= ps <= 1)%Q).
  { split.
    - apply fl_nonneg, Qle_shift_div_l; [done|].
      rewrite Qmult_0_l. apply inject_Z_nonneg. lia.
    - apply (fl_le_Z _ 1); [simpl; lia|].
      apply Qle_shift_div_r; [done|]. rewrite Qmult_1_l, <- Zle_Qle. lia. }
  set (q := fl (fl (inject_Z t / inject_Z n) / fl (inject_Z n / 2))).
  assert (Hq : (0 <= q)%Q).
  { apply fl_nonneg. unfold Qdiv at 1. apply Qmult_le_0_compat.
    - apply fl_nonneg, Qle_shift_div_l; [done|].
      rewrite Qmult_0_l. apply inject_Z_nonneg. lia.
    - apply Qinv_le_0_compat, fl_nonneg, Qle_shift_div_l; [done|].
      rewrite Qmult_0_l. by apply Qlt_le_weak. }
  assert (Hnd : (0 <= Qmin q 1 <= 1)%Q).
  { split; [apply Q.min_glb; [done|Lqa.lra]|apply Q.le_min_r]. }
  set (nd := Qmin q 1) in *.
  assert (Hc6 : (0 <= fl (6 # 10))%Q) by (apply fl_nonneg; qcompute).
  assert (Hc4 : (0 <= fl (4 # 10))%Q) by (apply fl_nonneg; qcompute).
  set (c6 := fl (6 # 10)) in *. set (c4 := fl (4 # 10)) in *.
  assert (Hsum : (fl c6 + fl c4 == 1)%Q) by (vm_compute; reflexivity).
  assert (Ha : (0 <= fl (ps * c6) <= fl c6)%Q).
  { split; [apply fl_nonneg, Qmult_le_0_compat; Lqa.lra|].
    apply fl_le. apply Qle_trans with (1 * c6)%Q; [|Lqa.lra].
    apply Qmult_le_compat_r; Lqa.lra. }
  assert (Hb : (0 <= fl (nd * c4) <= fl c4)%Q).
  { split; [apply fl_nonneg, Qmult_le_0_compat; Lqa.lra|].
    apply fl_le. apply Qle_trans with (1 * c4)%Q; [|Lqa.lra].
    apply Qmult_le_compat_r; Lqa.lra. }
  set (a := fl (ps * c6)) in *. set (b := fl (nd * c4)) in *.
  assert (Hs : (0 <= fl (a + b) <= 1)%Q).
  { split; [apply fl_nonneg; Lqa.lra|].
    apply (fl_le_Z _ 1); [simpl; lia|]. change (inject_Z 1) with 1%Q.
    Lqa.lra. }
  set (s := fl (a + b)) in *. split.
  - apply fl_nonneg. Lqa.lra.
  - apply (fl_le_Z _ 100); [simpl; lia|]. change (inject_Z 100) with 100%Q.
    Lqa.lra.
Qed.

Lemma displacement_score_in_range (originalDeck shuffledDeck : list Card) :
  1 <= length originalDeck ->
  length originalDeck = length shuffledDeck ->
  exists score,
    calculateRandomnessMetrics originalDeck shuffledDeck = Int score
    /\ (0 <= score <= 100)%Z.
Proof.
  intros HN Hlen. unfold calculateRandomnessMetrics.
  rewrite bool_decide_eq_false_2 by (intros H; by apply H).
  pose proof (displacement_loop_bounds shuffledDeck originalDeck 0 0 0) as Hb.
  destruct (displacement_loop shuffledDeck 0 originalDeck 0 0)
    as [displaced total].
  destruct Hb as [Hd Ht].
  destruct (length originalDeck) as [|n] eqn:HeqN; [lia|].
  eexists. split; [reflexivity|].
  apply Math_round_range.
  change (inject_Z 0) with 0%Q. change (inject_Z 100) with 100%Q.
  apply (binary64_score_range displaced total (Z.of_nat (S n))); lia.
Qed.

(** X14.  For two decks of the same length N >= 1, whatever they hold,
    [calculateRandomnessMetrics] returns an integer from 0 to 100. *)
Theorem calculateRandomnessMetrics_range (originalDeck shuffledDeck : list Card) :
  1 <= length originalDeck ->
  length originalDeck = length shuffledDeck ->
  exists score,
    calculateRandomnessMetrics originalDeck shuffledDeck = Int score
    /\ (0 <= score <= 100)%Z.
Proof. apply displacement_score_in_range. Qed.

Lemma calculateRandomnessMetrics_range_witness :
  exists score,
    calculateRandomnessMetrics [card_a; card_b; card_c]
      [card_c; card_c; card_c] = Int score
    /\ (0 <= score <= 100)%Z.
Proof.
  apply (calculateRandomnessMetrics_range [card_a; card_b; card_c]
           [card_c; card_c; card_c]); simpl; lia.
Defined.

Lemma fl_zero (x : Q) : (x == 0)%Q -> (fl x == 0)%Q.
Proof. intros H. rewrite (fl_comp _ _ H). apply fl_0. Qed.

Lemma binary64_score_zero (n : Q) :
  (binary64_score (inject_Z 0) (inject_Z 0) n == 0)%Q.
Proof.
  unfold binary64_score, double_mul, double_add, double_div.
  assert (H0 : (fl (inject_Z 0 / n) == 0)%Q)
    by (apply fl_zero; unfold Qdiv; apply Qmult_0_l).
  rewrite H0.
  assert (H1 : (fl (0 * fl (6 # 10)) == 0)%Q)
    by (apply fl_zero, Qmult_0_l).
  assert (H2 : (fl (0 / fl (n / 2)) == 0)%Q)
    by (apply fl_zero; unfold Qdiv; apply Qmult_0_l).
  rewrite H1, H2.
  assert (H3 : (Qmin 0 1 == 0)%Q) by (apply Q.min_l; Lqa.lra).
  rewrite H3.
  assert (H4 : (fl (0 * fl (4 # 10)) == 0)%Q)
    by (apply fl_zero, Qmult_0_l).
  rewrite H4.
  assert (H5 : (fl (0 + 0) == 0)%Q) by (apply fl_zero; Lqa.lra).
  rewrite H5. apply fl_zero, Qmult_0_l.
Qed.

Lemma zeros_displaced (n : nat) :
  filter (fun d => d ≠ 0%Z) (replicate n 0%Z) = [].
Proof.
  induction n as [|n IH]; [done|].
  simpl. rewrite filter_cons, decide_False by (intros H; by apply H).
  apply IH.
Qed.

Lemma zeros_total (n : nat) : foldr Z.add 0%Z (replicate n 0%Z) = 0%Z.
Proof. induction n as [|n IH]; [done|]. simpl. by rewrite IH. Qed.

Lemma positions_of_snoc (deck : list Card) c :
  positions_of (deck ++ [c]) = <[id c := length deck]> (positions_of deck).
Proof.
  unfold positions_of. rewrite imap_app, foldl_app. simpl.
  by rewrite Nat.add_0_r.
Qed.

Lemma positions_of_lookup (deck : list Card) :
  NoDup (id <$> deck) ->
  forall j c, deck !! j = Some c -> positions_of deck !! id c = Some j.
Proof.
  induction deck as [|c0 deck IH] using rev_ind; intros Hnd j c Hj; [done|].
  rewrite positions_of_snoc. rewrite fmap_app in Hnd.
  apply NoDup_app in Hnd as (Hnd & Hfresh & _).
  destruct (decide (j < length deck)) as [Hlt|Hge].
  - rewrite lookup_app_l in Hj by done.
    rewrite lookup_insert_ne; [by apply IH|].
    intros Heq. apply (Hfresh (id c)).
    + apply list_elem_of_fmap. exists c. split; [done|].
      by apply list_elem_of_lookup_2 in Hj.
    + rewrite <- Heq. simpl. left.
  - assert (j = length deck) as ->.
    { apply lookup_lt_Some in Hj. rewrite length_app in Hj. simpl in Hj. lia. }
    rewrite list_lookup_middle in Hj by done. injection Hj as ->.
    by rewrite lookup_insert_eq.
Qed.

Lemma position_differences_same (deck shuffledDeck : list Card) :
  NoDup (id <$> deck) -> id <$> shuffledDeck = id <$> deck ->
  position_differences deck shuffledDeck = replicate (length deck) 0.
Proof.
  intros Hnd Hids. unfold position_differences.
  apply list_eq. intros j. rewrite list_lookup_imap.
  destruct (deck !! j) as [c|] eqn:Hc.
  - rewrite lookup_replicate_2 by (by apply lookup_lt_Some in Hc). simpl.
    assert (Hs : exists c', shuffledDeck !! j = Some c' /\ id c' = id c).
    { assert (H : (id <$> shuffledDeck) !! j = Some (id c))
        by (by rewrite Hids, list_lookup_fmap, Hc).
      rewrite list_lookup_fmap in H.
      destruct (shuffledDeck !! j) as [c'|]; simplify_eq/=. eauto. }
    destruct Hs as (c' & Hc' & Hid). rewrite <- Hid.
    rewrite (positions_of_lookup shuffledDeck) with (j := j); trivial.
    + simpl. f_equal. lia.
    + by rewrite Hids.
  - simpl. symmetry. apply lookup_replicate_None.
    by apply lookup_ge_None in Hc.
Qed.

(** X15.  When the shuffled deck has the ids of the original deck in the
    same order, the ids are distinct and the deck is not empty, both scores
    are 0: [calculateRandomnessMetrics] returns 0 and [calculateEntropy]
    returns 0.  So a shuffle that leaves the order as it is scores 0. *)
Theorem unmoved_deck_scores_zero (originalDeck shuffledDeck : list Card) :
  1 <= length originalDeck ->
  NoDup (id <$> originalDeck) ->
  id <$> shuffledDeck = id <$> originalDeck ->
  calculateRandomnessMetrics originalDeck shuffledDeck = Int 0
  /\ calculateEntropy originalDeck shuffledDeck = Returned 0%R.
Proof.
  intros HN Hnd Hids.
  assert (Hlen : length originalDeck = length shuffledDeck).
  { apply (f_equal length) in Hids. by rewrite !length_fmap in Hids. }
  split.
  - unfold calculateRandomnessMetrics.
    rewrite bool_decide_eq_false_2 by (intros H; by apply H).
    rewrite (displacement_loop_counts shuffledDeck (fun i => i)).
    2:{ intros k c Hk.
        assert (H : (id <$> shuffledDeck) !! k = Some (id c))
          by (by rewrite Hids, list_lookup_fmap, Hk).
        rewrite list_lookup_fmap in H.
        destruct (shuffledDeck !! k) as [c'|] eqn:Hc'; simplify_eq/=.
        rewrite <- H. apply findIndex_id_unique; [by rewrite Hids|done]. }
    assert (Hzero : displacement (fun i => i)
                      <$> seq 0 (length originalDeck)
                    = replicate (length originalDeck) 0%Z).
    { apply list_eq. intros j. rewrite list_lookup_fmap.
      destruct (decide (j < length originalDeck)).
      - rewrite lookup_seq_lt, lookup_replicate_2 by done. simpl.
        unfold displacement. f_equal. lia.
      - rewrite lookup_seq_ge by lia. symmetry.
        apply lookup_replicate_None. lia. }
    rewrite Hzero.
    rewrite zeros_displaced, zeros_total.
    destruct (length originalDeck) as [|n] eqn:HeqN; [lia|].
    apply (f_equal Int). cbn [length replicate foldr Z.add].
    apply (Math_round_comp _ 0), binary64_score_zero.
  - unfold calculateEntropy.
    rewrite position_differences_same by done.
    destruct (length originalDeck) as [|n] eqn:HeqN; [lia|].
    assert (Hmax : Math_max (replicate (S n) 0) = Some 0).
    { unfold Math_max. simpl. f_equal.
      clear. induction n as [|n IH]; [done|]. simpl. exact IH. }
    by rewrite Hmax.
Qed.

Lemma unmoved_deck_scores_zero_witness :
  calculateRandomnessMetrics [card_c; card_a; card_b]
    (resetDeck [card_c; card_a; card_b]) = Int 0
  /\ calculateEntropy [card_c; card_a; card_b]
       (resetDeck [card_c; card_a; card_b]) = Returned 0%R.
Proof.
  apply (unmoved_deck_scores_zero [card_c; card_a; card_b]
           (resetDeck [card_c; card_a; card_b])).
  - simpl; lia.
  - by apply (bool_decide_unpack _).
  - reflexivity.
Defined.

(** ** The statistics after a run of updates *)

Lemma algorithmName_after algorithm samples :
  algorithmName (statistics_after algorithm samples) = algorithm.
Proof.
  induction samples as [|s samples IH] using rev_ind; [done|].
  by rewrite statistics_after_snoc.
Qed.

Lemma executionTimes_after algorithm samples :
  executionTimes (statistics_after algorithm samples) = sample_time <$> samples.
Proof.
  induction samples as [|s samples IH] using rev_ind; [done|].
  rewrite statistics_after_snoc, fmap_app. simpl. by rewrite IH.
Qed.

(** The sum of [getAverageExecutionTime], rounded at every addition, stays
    between the count times the bounds of the times. *)
Lemma scaled_bound (k lo hi : Z) :
  (0 <= k)%Z -> (k * Z.max (Z.abs lo) (Z.abs hi) <= 2 ^ 53)%Z ->
  (Z.abs (k * lo) <= 2 ^ 53)%Z /\ (Z.abs (k * hi) <= 2 ^ 53)%Z.
Proof.
  intros Hk H. rewrite !Z.abs_mul, (Z.abs_eq k) by done.
  set (M := Z.max (Z.abs lo) (Z.abs hi)) in *.
  assert (k * Z.abs lo <= k * M)%Z
    by (apply Z.mul_le_mono_nonneg_l; [done|subst M; lia]).
  assert (k * Z.abs hi <= k * M)%Z
    by (apply Z.mul_le_mono_nonneg_l; [done|subst M; lia]).
  lia.
Qed.

Lemma sum_of_times_bounds (times : list Q) (lo hi : Z) :
  (Z.of_nat (length times) * Z.max (Z.abs lo) (Z.abs hi) <= 2 ^ 53)%Z ->
  Forall (fun time => inject_Z lo <= time <= inject_Z hi)%Q times ->
  (inject_Z (Z.of_nat (length times) * lo) <= foldl double_add 0 times
   <= inject_Z (Z.of_nat (length times) * hi))%Q.
Proof.
  induction times as [|time times IH] using rev_ind; intros Hk Hall.
  - cbn [length foldl]. rewrite !Z.mul_0_l. split; apply Qle_refl.
  - rewrite length_app in Hk |- *. cbn [length] in Hk |- *.
    apply Forall_app in Hall as [Hall Htime].
    apply Forall_singleton in Htime as [Hlo Hhi].
    set (k := Z.of_nat (length times)) in *.
    replace (Z.of_nat (length times + 1)) with (k + 1)%Z in * by lia.
    destruct (scaled_bound (k + 1) lo hi ltac:(lia) Hk) as [Hblo Hbhi].
    destruct IH as [IHlo IHhi]; [|done|].
    { set (M := Z.max (Z.abs lo) (Z.abs hi)) in *.
      assert (0 <= M)%Z by (subst M; lia). nia. }
    rewrite foldl_app. cbn [foldl]. unfold double_add at 1 3.
    set (sum := foldl double_add 0%Q times) in *.
    split.
    + apply fl_ge_Z; [done|].
      replace ((k + 1) * lo)%Z with (k * lo + lo)%Z by ring.
      rewrite inject_Z_plus. Lqa.lra.
    + apply fl_le_Z; [done|].
      replace ((k + 1) * hi)%Z with (k * hi + hi)%Z by ring.
      rewrite inject_Z_plus. Lqa.lra.
Qed.

(** X16.  From [initializeAlgorithmStatistics], k updates leave the
    algorithm's name as it is, count k shuffles and keep the k execution
    times in the order of the updates.  [getAverageExecutionTime], whose
    sum and quotient are rounded to binary64, then lies between any two
    integers that bound the recorded times, as long as k times these bounds
    stays within [2^53]. *)
Theorem statistics_bookkeeping (algorithm : string) (samples : list sample) :
  let stats := statistics_after algorithm samples in
  algorithmName stats = algorithm
  /\ shuffleCount stats = length samples
  /\ executionTimes stats = sample_time <$> samples
  /\ length (executionTimes stats) = shuffleCount stats
  /\ (forall lo hi : Z,
        samples <> [] ->
        (Z.of_nat (length samples) * Z.max (Z.abs lo) (Z.abs hi) <= 2 ^ 53)%Z ->
        Forall (fun s => inject_Z lo <= sample_time s <= inject_Z hi)%Q
          samples ->
        (lo <= getAverageExecutionTime stats <= hi)%Z).
Proof.
  simpl. split; [apply algorithmName_after|].
  split; [apply shuffleCount_after|].
  split; [apply executionTimes_after|].
  split; [by rewrite executionTimes_after, shuffleCount_after, length_fmap|].
  intros lo hi Hne Hk Hall.
  unfold getAverageExecutionTime. rewrite executionTimes_after.
  destruct (sample_time <$> samples) as [|time times] eqn:Htimes.
  { by destruct samples. }
  rewrite <- Htimes. clear time times Htimes.
  pose proof (sum_of_times_bounds (sample_time <$> samples) lo hi) as Hsum.
  rewrite length_fmap in Hsum |- *.
  destruct Hsum as [Hlo Hhi]; [done|by apply Forall_fmap|].
  set (sum := foldl double_add 0%Q (sample_time <$> samples)) in *.
  assert (Hlen : 0 < length samples) by (destruct samples; [done|simpl; lia]).
  set (k := Z.of_nat (length samples)) in *.
  pose proof (inject_Z_pos k ltac:(lia)) as Hk0.
  rewrite !inject_Z_mult in Hlo, Hhi.
  assert (Hb : (Z.abs lo <= 2 ^ 53 /\ Z.abs hi <= 2 ^ 53)%Z).
  { set (M := Z.max (Z.abs lo) (Z.abs hi)) in *.
    assert (0 <= M)%Z by (subst M; lia).
    assert (M <= k * M)%Z by nia. subst M. lia. }
  apply Math_round_range. unfold double_div. split.
  - apply fl_ge_Z; [lia|]. apply Qle_shift_div_l; [done|].
    by rewrite Qmult_comm.
  - apply fl_le_Z; [lia|]. apply Qle_shift_div_r; [done|].
    by rewrite Qmult_comm.
Qed.

Lemma statistics_bookkeeping_witness :
  let stats :=
    statistics_after "Riffle Shuffle"
      [mkSample [] [] (fl (3 # 10)) 4; mkSample [] [] (fl (7 # 10)) 6] in
  shuffleCount stats = 2
  /\ executionTimes stats = [fl (3 # 10); fl (7 # 10)]
  /\ (0 <= getAverageExecutionTime stats <= 1)%Z.
Proof.
  destruct (statistics_bookkeeping "Riffle Shuffle"
              [mkSample [] [] (fl (3 # 10)) 4; mkSample [] [] (fl (7 # 10)) 6])
    as (_ & Hcount & Htimes & _ & Havg).
  split; [exact Hcount|]. split; [exact Htimes|].
  apply Havg.
  - discriminate.
  - vm_compute. discriminate.
  - repeat constructor; vm_compute; discriminate.
Defined.

(** The times 0.3 and 0.7 add up to the double 1, and the average 0.5 is
    rounded to 1. *)
Lemma getAverageExecutionTime_example :
  getAverageExecutionTime
    (statistics_after "Riffle Shuffle"
       [mkSample [] [] (fl (3 # 10)) 4; mkSample [] [] (fl (7 # 10)) 6])
  = 1%Z.
Proof. vm_compute. reflexivity. Qed.

Lemma Math_round_between (a s lo hi : Z) (n : nat) :
  (lo <= s <= hi)%Z -> (n = 0 \/ (lo <= a <= hi)%Z) ->
  (lo <= Math_round (inject_Z (a * Z.of_nat n + s)
                     / inject_Z (Z.of_nat (n + 1))) <= hi)%Z.
Proof.
  intros Hs Ha. rewrite Math_round_quotient_nat by lia. split.
  - apply Z.div_le_lower_bound; [lia|]. destruct Ha as [->|Ha]; [lia|nia].
  - assert (H : ((2 * (a * Z.of_nat n + s) + Z.of_nat (n + 1))
                 / (2 * Z.of_nat (n + 1)) < hi + 1)%Z); [|lia].
    apply Z.div_lt_upper_bound; [lia|]. destruct Ha as [->|Ha]; [lia|nia].
Qed.



Lemma randomnessScore_snoc algorithm samples s :
  randomnessScore (statistics_after algorithm (samples ++ [s]))
  = match randomnessScore (statistics_after algorithm samples),
          calculateRandomnessMetrics (sample_original s) (sample_shuffled s)
    with
    | Int old, Int new =>
        Int (Math_round
               (inject_Z (old * Z.of_nat (length samples) + new)
                / inject_Z (Z.of_nat (length samples + 1))))
    | _, _ => NaN
    end.
Proof.
  rewrite statistics_after_snoc. unfold record_sample at 1.
  unfold updateAlgorithmStatistics. simpl.
  by rewrite shuffleCount_after.
Qed.

Lemma calculateRandomnessMetrics_cases (o s : list Card) :
  (o = [] /\ s = [] /\ calculateRandomnessMetrics o s = NaN)
  \/ ((o <> [] \/ s <> [])
      /\ exists score, calculateRandomnessMetrics o s = Int score
                       /\ (0 <= score <= 100)%Z).
Proof.
  destruct (decide (length o = length s)) as [Hlen|Hlen].
  - destruct o as [|c o].
    + destruct s; [|discriminate]. left. by repeat split.
    + right. split; [by left|].
      apply displacement_score_in_range; [simpl; lia|done].
  - right. split.
    + destruct o; [|by left]. destruct s; [done|by right].
    + exists 0%Z. split; [|lia]. unfold calculateRandomnessMetrics.
      by rewrite bool_decide_eq_true_2.
Qed.

(** X18.  From [initializeAlgorithmStatistics], as long as no update is made
    with two empty decks the stored [randomnessScore] is an integer from 0
    to 100.  One update with two empty decks makes it [NaN], and it stays
    [NaN] through every later update. *)
Theorem randomnessScore_range_or_NaN (algorithm : string)
    (samples : list sample) :
  (Forall (fun s => sample_original s <> [] \/ sample_shuffled s <> [])
     samples ->
   exists score,
     randomnessScore (statistics_after algorithm samples) = Int score
     /\ (0 <= score <= 100)%Z)
  /\ (Exists (fun s => sample_original s = [] /\ sample_shuffled s = [])
        samples ->
      randomnessScore (statistics_after algorithm samples) = NaN).
Proof.
  split.
  - induction samples as [|s samples IH] using rev_ind; intros Hall.
    + exists 0%Z. split; [done|lia].
    + apply Forall_app in Hall as [Hall Hs]. rewrite Forall_singleton in Hs.
      destruct (IH Hall) as (old & Hold & Hrange).
      rewrite randomnessScore_snoc, Hold.
      destruct (calculateRandomnessMetrics_cases (sample_original s)
                  (sample_shuffled s))
        as [(Ho & Hsh & _)|(_ & new & -> & Hnew)].
      * destruct Hs; congruence.
      * eexists. split; [reflexivity|].
        apply Math_round_between; [done|]. by right.
  - induction samples as [|s samples IH] using rev_ind; intros Hex.
    + by apply Exists_nil in Hex.
    + rewrite randomnessScore_snoc.
      apply Exists_app in Hex as [Hex|Hex].
      * by rewrite (IH Hex).
      * apply Exists_cons in Hex as [[Ho Hsh]|Hex];
          [|by apply Exists_nil in Hex].
        rewrite Ho, Hsh.
        by destruct (randomnessScore (statistics_after algorithm samples)).
Qed.

Lemma randomnessScore_range_or_NaN_witness :
  randomnessScore
    (statistics_after "Hindu Shuffle"
       [steps_sample 9; mkSample [] [] 0 0; steps_sample 9]) = NaN.
Proof.
  destruct (randomnessScore_range_or_NaN "Hindu Shuffle"
              [steps_sample 9; mkSample [] [] 0 0; steps_sample 9])
    as [_ H].
  apply H. apply Exists_cons_tl, Exists_cons_hd. done.
Defined.

(** ** The order of the arguments of [compareAlgorithms] *)

(** X19.  The order of the two arguments of [compareAlgorithms] matters on
    ties only: when the two randomness scores are different integers the
    two orders name the same randomness winner, and likewise for two
    different average times and for two different step averages.  Every
    winner is the name of one of the two arguments. *)
Theorem compareAlgorithms_argument_order (stats1 stats2 : ShuffleStatistics) :
  (forall x y, randomnessScore stats1 = Int x -> randomnessScore stats2 = Int y ->
     x <> y ->
     winner (randomnessComparison (compareAlgorithms stats1 stats2))
     = winner (randomnessComparison (compareAlgorithms stats2 stats1)))
  /\ (getAverageExecutionTime stats1 <> getAverageExecutionTime stats2 ->
      winner (speedComparison (compareAlgorithms stats1 stats2))
      = winner (speedComparison (compareAlgorithms stats2 stats1)))
  /\ (averageSteps stats1 <> averageSteps stats2 ->
      winner (stepComparison (compareAlgorithms stats1 stats2))
      = winner (stepComparison (compareAlgorithms stats2 stats1)))
  /\ Forall (fun w => w = algorithmName stats1 \/ w = algorithmName stats2)
       [winner (randomnessComparison (compareAlgorithms stats1 stats2));
        winner (speedComparison (compareAlgorithms stats1 stats2));
        winner (stepComparison (compareAlgorithms stats1 stats2))].
Proof.
  split; [|split; [|split]]; simpl.
  - intros x y -> -> Hxy. simpl.
    destruct (decide (y < x)%Z).
    + rewrite bool_decide_eq_true_2, bool_decide_eq_false_2 by lia. done.
    + rewrite bool_decide_eq_false_2, bool_decide_eq_true_2 by lia. done.
  - intros Hne.
    destruct (decide (getAverageExecutionTime stats1
                      < getAverageExecutionTime stats2)%Z).
    + rewrite bool_decide_eq_true_2, bool_decide_eq_false_2 by lia. done.
    + rewrite bool_decide_eq_false_2, bool_decide_eq_true_2 by lia. done.
  - intros Hne.
    destruct (decide (averageSteps stats1 < averageSteps stats2)%Z).
    + rewrite bool_decide_eq_true_2, bool_decide_eq_false_2 by lia. done.
    + rewrite bool_decide_eq_false_2, bool_decide_eq_true_2 by lia. done.
  - constructor; [|constructor; [|constructor; [|constructor]]].
    + destruct (randomnessScore stats1), (randomnessScore stats2); simpl;
        try case_bool_decide; auto.
    + case_bool_decide; auto.
    + case_bool_decide; auto.
Qed.

Lemma compareAlgorithms_argument_order_witness :
  let stats1 := mkStatistics "A" 2 51 (Int 90) [1%Q; 2%Q] in
  let stats2 := mkStatistics "B" 1 53 (Int 70) [4%Q] in
  winner (randomnessComparison (compareAlgorithms stats1 stats2))
  = winner (randomnessComparison (compareAlgorithms stats2 stats1))
  /\ winner (stepComparison (compareAlgorithms stats1 stats2))
     = winner (stepComparison (compareAlgorithms stats2 stats1)).
Proof.
  intros stats1 stats2.
  destruct (compareAlgorithms_argument_order stats1 stats2)
    as (Hr & _ & Hs & _).
  split; [apply (Hr 90 70)%Z; [reflexivity|reflexivity|lia]|].
  apply Hs. simpl. lia.
Defined.

(** ** The table of algorithms *)

(** X20.  The four names of [SHUFFLE_ALGORITHMS] are different, so that
    [getAlgorithmByName] finds every entry of the table under its own name;
    what it finds for a name is an entry of the table with that name, and
    the [execute] field of the entry found for each of the four names is
    the recorder of that algorithm. *)
Theorem getAlgorithmByName_finds_entries :
  NoDup (name <$> SHUFFLE_ALGORITHMS)
  /\ (forall algo, algo ∈ SHUFFLE_ALGORITHMS ->
        getAlgorithmByName (name algo) = Some algo)
  /\ (forall n algo, getAlgorithmByName n = Some algo ->
        name algo = n /\ algo ∈ SHUFFLE_ALGORITHMS)
  /\ (execute <$> getAlgorithmByName "Fisher-Yates"
      = Some (fun _ rng deck => Some (fisherYatesShuffleSteps rng deck))
      /\ execute <$> getAlgorithmByName "Riffle Shuffle" = Some riffleShuffleSteps
      /\ execute <$> getAlgorithmByName "Overhand Shuffle"
         = Some overhandShuffleSteps
      /\ execute <$> getAlgorithmByName "Hindu Shuffle" = Some hinduShuffleSteps).
Proof.
  split; [by apply (bool_decide_unpack _)|]. split; [|split].
  - intros algo Hin. unfold SHUFFLE_ALGORITHMS in Hin.
    repeat (apply elem_of_cons in Hin as [->|Hin]; [reflexivity|]).
    by apply elem_of_nil in Hin.
  - intros n algo Hfind. unfold getAlgorithmByName in Hfind.
    apply List.find_some in Hfind as [Hin Heq].
    apply String.eqb_eq in Heq. split; [done|].
    by apply list_elem_of_In.
  - repeat split.
Qed.

Lemma getAlgorithmByName_finds_entries_witness :
  name <$> getAlgorithmByName "Overhand Shuffle" = Some "Overhand Shuffle".
Proof.
  destruct getAlgorithmByName_finds_entries as (_ & _ & H & _).
  destruct (getAlgorithmByName "Overhand Shuffle") as [algo|] eqn:Hfind;
    [|discriminate].
  destruct (H _ _ Hfind) as [Hn _]. simpl. by rewrite Hn.
Defined.

(** ** The run count *)

Lemma run_fold_bounds (deck : list Card) (indices : list nat) (runs : nat) :
  runs
  <= foldl (fun runs i =>
              match deck !! i, deck !! (i - 1) with
              | Some card, Some previous =>
                  if decide (suit card ≠ suit previous) then runs + 1 else runs
              | _, _ => runs
              end) runs indices
  <= runs + length indices.
Proof.
  revert runs. induction indices as [|i indices IH]; intros runs; [simpl; lia|].
  cbn [foldl length].
  destruct (deck !! i) as [card|], (deck !! (i - 1)) as [previous|];
    try (specialize (IH runs); lia).
  destruct (decide (suit card ≠ suit previous));
    [specialize (IH (runs + 1)) | specialize (IH runs)]; lia.
Qed.

Lemma run_fold_suits (deck deck' : list Card) (indices : list nat) (runs : nat) :
  suit <$> deck = suit <$> deck' ->
  foldl (fun runs i =>
           match deck !! i, deck !! (i - 1) with
           | Some card, Some previous =>
               if decide (suit card ≠ suit previous) then runs + 1 else runs
           | _, _ => runs
           end) runs indices
  = foldl (fun runs i =>
             match deck' !! i, deck' !! (i - 1) with
             | Some card, Some previous =>
                 if decide (suit card ≠ suit previous) then runs + 1 else runs
             | _, _ => runs
             end) runs indices.
Proof.
  intros Hs. revert runs.
  assert (Hl : forall i, suit <$> deck !! i = suit <$> deck' !! i)
    by (intros i; by rewrite <- !list_lookup_fmap, Hs).
  induction indices as [|i indices IH]; intros runs; [done|].
  cbn [foldl]. pose proof (Hl i) as H1. pose proof (Hl (i - 1)) as H2.
  destruct (deck !! i) as [c|], (deck' !! i) as [c'|]; simpl in H1;
    try discriminate; [|apply IH].
  destruct (deck !! (i - 1)) as [p|], (deck' !! (i - 1)) as [p'|];
    simpl in H2; try discriminate; [|apply IH].
  injection H1 as ->. injection H2 as ->. apply IH.
Qed.

Lemma run_fold_one_suit (deck : list Card) (indices : list nat) (runs : nat) :
  (forall c c', c ∈ deck -> c' ∈ deck -> suit c = suit c') ->
  foldl (fun runs i =>
           match deck !! i, deck !! (i - 1) with
           | Some card, Some previous =>
               if decide (suit card ≠ suit previous) then runs + 1 else runs
           | _, _ => runs
           end) runs indices
  = runs.
Proof.
  intros Hone. revert runs.
  induction indices as [|i indices IH]; intros runs; [done|].
  cbn [foldl].
  destruct (deck !! i) as [c|] eqn:Hc, (deck !! (i - 1)) as [p|] eqn:Hp;
    try apply IH.
  rewrite decide_False; [apply IH|].
  intros Hne. apply Hne, Hone; by eapply list_elem_of_lookup_2.
Qed.

(** X21.  [calculateRunCount] returns 0 for the empty deck and, for N >= 1
    cards, a number from 1 to N; it is 1 when all the cards have one suit.
    It reads the suits only: two decks with the same suits in the same
    order have the same count, so that neither [resetDeck] nor
    [clearHighlights] changes it. *)
Theorem calculateRunCount_bounds (deck : list Card) :
  calculateRunCount [] = 0
  /\ (1 <= length deck -> 1 <= calculateRunCount deck <= length deck)
  /\ (1 <= length deck ->
      (forall c c', c ∈ deck -> c' ∈ deck -> suit c = suit c') ->
      calculateRunCount deck = 1)
  /\ (forall deck', suit <$> deck = suit <$> deck' ->
        calculateRunCount deck = calculateRunCount deck')
  /\ calculateRunCount (resetDeck deck) = calculateRunCount deck
  /\ calculateRunCount (clearHighlights deck) = calculateRunCount deck.
Proof.
  assert (Hsuits : forall d d' : list Card,
    suit <$> d = suit <$> d' -> calculateRunCount d = calculateRunCount d').
  { intros d d' Hs. unfold calculateRunCount, calculateRunCount_loop.
    assert (Hlen : length d = length d').
    { apply (f_equal length) in Hs. by rewrite !length_fmap in Hs. }
    destruct d as [|c d], d' as [|c' d']; try discriminate; [done|].
    rewrite <- Hlen. by apply run_fold_suits. }
  split; [done|]. split; [|split; [|split; [|split]]].
  - intros HN. destruct deck as [|c deck]; [simpl in HN; lia|].
    unfold calculateRunCount, calculateRunCount_loop.
    pose proof (run_fold_bounds (c :: deck)
                  (seq 1 (length (c :: deck) - 1)) 1) as H.
    rewrite length_seq in H. simpl in *. lia.
  - intros HN Hone. destruct deck as [|c deck]; [simpl in HN; lia|].
    unfold calculateRunCount, calculateRunCount_loop.
    by apply run_fold_one_suit.
  - intros deck'. apply Hsuits.
  - apply Hsuits. unfold resetDeck. rewrite fmap_imap, <- imap_const.
    by apply imap_ext.
  - apply Hsuits. unfold clearHighlights. by rewrite <- list_fmap_compose.
Qed.

Lemma calculateRunCount_bounds_witness :
  1 <= calculateRunCount createOrderedDeck <= 52
  /\ calculateRunCount createOrderedDeck = 4.
Proof.
  destruct (calculateRunCount_bounds createOrderedDeck) as (_ & H & _).
  split; [apply H; simpl; lia | reflexivity].
Defined.

(** ** Replaying Fisher-Yates, then clearing the highlights *)

Lemma fisherYates_replay_typed rng i :
  forall k (w : list Card) acc (d0 : list slot) (x : list Card),
  i < length w ->
  replay acc d0 = Full <$> x -> same_cards x w ->
  exists y,
    replay (fisherYatesSteps_loop rng k i w acc) d0 = Full <$> y
    /\ same_cards y (fisherYates_loop rng k i w)
    /\ ((0 < i \/ forall n c, x !! n = Some c -> position c = n) ->
        forall n c, y !! n = Some c -> position c = n).
Proof.
  induction i as [|i IH]; intros k w acc d0 x Hi Hx Hsame.
  - exists x. repeat split; trivial. intros [H|H]; [lia|done].
  - cbn [fisherYatesSteps_loop fisherYates_loop].
    set (j := floor_times (rng k) (S i + 1)).
    assert (Hj : j < length w).
    { pose proof (floor_times_lt (rng k) (S i + 1)). subst j. lia. }
    pose proof (same_cards_length x w Hsame) as Hlen.
    match goal with
    | |- context [fisherYatesSteps_loop _ _ _ _ (acc ++ [?s])] =>
        set (step := s)
    end.
    set (x' := imap (fun index card =>
                       restamp index (bool_decide (index ∈ [S i; j])) card)
                 (swap x (S i) j)).
    destruct (IH (S k) (swap w (S i) j) (acc ++ [step]) d0 x')
      as (y & Hy & Hsame' & Hpos).
    + rewrite length_swap. lia.
    + rewrite replay_snoc, Hx.
      rewrite applyShuffleStep_Full
        by (simpl; repeat constructor; lia).
      done.
    + subst x'. unfold same_cards in *.
      rewrite (same_cards_restamp (fun index => bool_decide (index ∈ [S i; j]))).
      by rewrite !swap_fmap, Hsame.
    + exists y. split; [done|]. split; [done|]. intros _.
      apply Hpos. right. intros n c Hn. subst x'.
      rewrite list_lookup_imap in Hn.
      destruct (swap x (S i) j !! n); simplify_eq/=. done.
Qed.

(** X23.  For a deck of two cards or more, replaying the records of
    [fisherYatesShuffleSteps] from the deck gives a well-typed deck, and
    clearing its highlights gives exactly the deck that [fisherYatesShuffle]
    returns under the same draws: the replayed deck differs from the bulk
    result by the highlights of the last record only. *)
Theorem fisherYates_replay_then_clear (rng : source) (deck : list Card) :
  2 <= length deck ->
  exists stepDeck,
    replay (fisherYatesShuffleSteps rng deck) (Full <$> deck)
      = Full <$> stepDeck
    /\ clearHighlights stepDeck = fisherYatesShuffle rng deck.
Proof.
  intros HN. unfold fisherYatesShuffleSteps, fisherYatesShuffle.
  destruct (fisherYates_replay_typed rng (length deck - 1) 0 deck []
              (Full <$> deck) deck)
    as (y & Hy & Hsame & Hpos); [lia|done|done|].
  exists y. split; [done|].
  rewrite <- (restamp_same_cards y _ Hsame).
  unfold clearHighlights. apply list_eq. intros n.
  rewrite list_lookup_fmap, (restamp_lookup (fun _ => false)).
  destruct (y !! n) as [c|] eqn:Hc; [|done]. simpl.
  by rewrite (Hpos ltac:(left; lia) n c Hc).
Qed.

Lemma fisherYates_replay_then_clear_witness :
  exists stepDeck,
    replay (fisherYatesShuffleSteps rising [card_a; card_b; card_c])
      (Full <$> [card_a; card_b; card_c]) = Full <$> stepDeck
    /\ clearHighlights stepDeck
       = fisherYatesShuffle rising [card_a; card_b; card_c].
Proof.
  apply (fisherYates_replay_then_clear rising [card_a; card_b; card_c]).
  simpl; lia.
Defined.
